(** * Question extractor: credential rotation, rate-limited calls, response
      decoding, page orchestration and save-batch validation.

    Shallow embedding of [src/lib/gemini.ts] and of the save path of
    [src/components/PDFScanner.tsx].

    Conventions.
    - A JavaScript string is the list of its UTF-16 code units ([list N]).
    - [keyUsageCount] is a [gmap] from credential to count; a missing entry
      reads as 0, as [keyUsageCount.get(key) || 0] does.
    - Asynchronous functions are state transformers over a [world] that
      carries the usage counters, the page memory and the trace of external
      effects (model calls, timers, console diagnostics, storage inserts).
      A rejected promise is the [Throw] completion.
    - What the program takes from its environment is gathered in a record
      [runtime]: the configured credentials, the engine's [JSON.parse],
      [ToString] and TypeError, the external model and the store. The
      theorems hold for every runtime; the concrete runs use a reference
      JSON parser.
    - Counts are natural numbers and numbers read from JSON are exact
      decimals: binary64 rounding is not modelled. *)

From Stdlib Require Import ZArith NArith Ascii String DecimalString DecimalN.
From stdpp Require Import base option list gmap.

Set Warnings "-register-all".
Local Open Scope N_scope.

(* ===================================================================== *)
(** ** JavaScript strings *)
(* ===================================================================== *)

Abbreviation jsstring := (list N).

Definition js (s : string) : jsstring := N_of_ascii <$> list_ascii_of_string s.

Definition N_toString (n : N) : jsstring :=
  js (NilEmpty.string_of_uint (N.to_uint n)).

Definition nat_toString (n : nat) : jsstring := N_toString (N.of_nat n).

Definition jseqb (a b : jsstring) : bool := bool_decide (a = b).

(** [s.startsWith(p)] *)
Fixpoint starts_with (p s : jsstring) : bool :=
  match p, s with
  | [], _ => true
  | _ :: _, [] => false
  | a :: p', b :: s' => (a =? b) && starts_with p' s'
  end.

(** [s.includes(p)] *)
Fixpoint includes (s p : jsstring) : bool :=
  starts_with p s ||
  match s with
  | [] => false
  | _ :: s' => includes s' p
  end.

(** [s.substring(0, n)] *)
Definition substring0 (n : nat) (s : jsstring) : jsstring := take n s.

(** [parts.join(sep)] on strings *)
Fixpoint join (sep : jsstring) (parts : list jsstring) : jsstring :=
  match parts with
  | [] => []
  | [p] => p
  | p :: rest => p ++ sep ++ join sep rest
  end.

(** The class [\s] of regular expressions, which is also what [trim]
    strips: WhiteSpace and LineTerminator code points. *)
Definition is_js_space (c : N) : bool :=
  (c =? 9) || (c =? 10) || (c =? 11) || (c =? 12) || (c =? 13) || (c =? 32)
  || (c =? 160) || (c =? 5760) || ((8192 <=? c) && (c <=? 8202))
  || (c =? 8232) || (c =? 8233) || (c =? 8239) || (c =? 8287)
  || (c =? 12288) || (c =? 65279).

Fixpoint skip_space (s : jsstring) : jsstring :=
  match s with
  | c :: r => if is_js_space c then skip_space r else s
  | [] => []
  end.

(** [s.trim()] *)
Definition trim (s : jsstring) : jsstring :=
  reverse (skip_space (reverse (skip_space s))).

(* ===================================================================== *)
(** ** Credential pool ([API_KEYS], [keyUsageCount], [getNextApiKey]) *)
(* ===================================================================== *)

Module Pool.

(** [keyUsageCount.get(key) || 0] *)
Definition usage (keyUsageCount : gmap jsstring nat) (key : jsstring) : nat :=
  default 0%nat (keyUsageCount !! key).

(** One iteration of [for (const key of API_KEYS)], on the pair
    [(bestKey, minUsage)]. *)
Definition scan_step (keyUsageCount : gmap jsstring nat)
    (best : jsstring * nat) (key : jsstring) : jsstring * nat :=
  let usage := usage keyUsageCount key in
  if (usage <? snd best)%nat then (key, usage) else best.

(** The search of [getNextApiKey]: [bestKey] starts at [API_KEYS[0]]; the
    module refuses to load with an empty pool, so the default of [hd] is
    never read. *)
Definition leastUsed (API_KEYS : list jsstring)
    (keyUsageCount : gmap jsstring nat) : jsstring :=
  let bestKey := hd [] API_KEYS in
  let minUsage := usage keyUsageCount bestKey in
  fst (fold_left (scan_step keyUsageCount) API_KEYS (bestKey, minUsage)).

Definition getNextApiKey (API_KEYS : list jsstring)
    (keyUsageCount : gmap jsstring nat) : jsstring * gmap jsstring nat :=
  let bestKey := leastUsed API_KEYS keyUsageCount in
  (bestKey, <[bestKey := (usage keyUsageCount bestKey + 1)%nat]> keyUsageCount).

(** [n] successive acquisitions; the counters they leave. *)
Fixpoint acquire_n (API_KEYS : list jsstring) (n : nat)
    (keyUsageCount : gmap jsstring nat) : gmap jsstring nat :=
  match n with
  | O => keyUsageCount
  | S n' => acquire_n API_KEYS n' (snd (getNextApiKey API_KEYS keyUsageCount))
  end.

(** The key handed out by the acquisition that follows [n] earlier ones. *)
Definition nth_acquired (API_KEYS : list jsstring) (n : nat) : jsstring :=
  fst (getNextApiKey API_KEYS (acquire_n API_KEYS n ∅)).

End Pool.

(* ===================================================================== *)
(** ** JavaScript values obtained from [JSON.parse] *)
(* ===================================================================== *)

Module Json.

(** A number is kept as the decimal [mantissa * 10 ^ exponent] it was
    written as; rounding to binary64 is outside this model. *)
Inductive json :=
  | JNull
  | JBool (b : bool)
  | JNum (mantissa exponent : Z)
  | JStr (s : jsstring)
  | JArr (items : list json)
  | JObj (props : list (jsstring * json)).

(** An error object, observed through [error.message]. *)
Record js_error := Error { message : option jsstring }.

Definition new_Error (msg : jsstring) : js_error := Error (Some msg).

(** [props[k]]: [None] is [undefined]. *)
Fixpoint get_prop (props : list (jsstring * json)) (k : jsstring) : option json :=
  match props with
  | [] => None
  | (k', v) :: rest => if jseqb k' k then Some v else get_prop rest k
  end.

(** [props[k] = v]: an existing property keeps its place. *)
Fixpoint set_prop (k : jsstring) (v : json) (props : list (jsstring * json))
    : list (jsstring * json) :=
  match props with
  | [] => [(k, v)]
  | (k', v') :: rest =>
      if jseqb k' k then (k, v) :: rest else (k', v') :: set_prop k v rest
  end.

(** ToBoolean, on a value that may be [undefined]. *)
Definition truthy (v : option json) : bool :=
  match v with
  | None | Some JNull => false
  | Some (JBool b) => b
  | Some (JNum m _) => negb (m =? 0)%Z
  | Some (JStr s) => negb (jseqb s [])
  | Some (JArr _) | Some (JObj _) => true
  end.

(** Own enumerable properties, as object spread copies them: the fields of
    an object, the indices of an array or of a string, nothing for the
    other primitives and for [null]. *)
Definition own_props (q : json) : list (jsstring * json) :=
  match q with
  | JObj props => props
  | JArr items => imap (λ i v, (nat_toString i, v)) items
  | JStr s => imap (λ i c, (nat_toString i, JStr [c])) s
  | _ => []
  end.

(** [{...q}] *)
Definition spread (q : json) : list (jsstring * json) :=
  fold_left (λ o kv, set_prop kv.1 kv.2 o) (own_props q) [].

(** [q.k] for the property names this program reads (never an index or a
    built-in name): reading from [null] raises the engine's TypeError. *)
Definition get_member (type_error : js_error) (q : json) (k : jsstring)
    : js_error + option json :=
  match q with
  | JNull => inl type_error
  | JObj props => inr (get_prop props k)
  | _ => inr None
  end.

(** [items.map(f)], stopping at the first exception. *)
Fixpoint map_throwing {A B} (f : A → js_error + B) (items : list A)
    : js_error + list B :=
  match items with
  | [] => inr []
  | q :: rest =>
      match f q with
      | inl e => inl e
      | inr q' =>
          match map_throwing f rest with
          | inl e => inl e
          | inr rest' => inr (q' :: rest')
          end
      end
  end.

(** [items.slice(-n)] *)
Definition slice_last {A} (n : nat) (items : list A) : list A :=
  drop (length items - n) items.

Definition number_of_N (n : N) : json := JNum (Z.of_N n) 0.

(** The literal [1.0] *)
Definition one : json := JNum 1 0.

End Json.

(* ===================================================================== *)
(** ** Response decoder: locating, repairing and stamping *)
(* ===================================================================== *)

Module Decoder.
Import Json.

(** Suffix of [s] that starts at the first [c]. *)
Fixpoint from_first (c : N) (s : jsstring) : option jsstring :=
  match s with
  | [] => None
  | x :: r => if x =? c then Some s else from_first c r
  end.

(** Longest prefix of [s] that ends with [c]. *)
Fixpoint through_last (c : N) (s : jsstring) : option jsstring :=
  match s with
  | [] => None
  | x :: r =>
      match through_last c r with
      | Some p => Some (x :: p)
      | None => if x =? c then Some [x] else None
      end
  end.

(** [text.match(/o[\s\S]*c/)] for single characters [o] and [c]: the
    leftmost [o] that has a [c] after it, extended greedily to the last [c]. *)
Definition match_span (o c : N) (text : jsstring) : option jsstring :=
  match from_first o text with
  | Some (x :: r) => cons x <$> through_last c r
  | _ => None
  end.

(** [text.match(/\[[\s\S]*\]/)] *)
Definition match_array (text : jsstring) : option jsstring := match_span 91 93 text.

(** [text.match(/\{[\s\S]*\}/)] *)
Definition match_object (text : jsstring) : option jsstring := match_span 123 125 text.

Definition fence : jsstring := [96; 96; 96].
Definition fence_json : jsstring := fence ++ js "json".

(** The lazy group of the fence pattern followed by its closing part: the
    shortest capture after which optional space and a fence follow. *)
Fixpoint lazy_capture (s : jsstring) : option jsstring :=
  if starts_with fence (skip_space s) then Some []
  else match s with
       | [] => None
       | x :: r => cons x <$> lazy_capture r
       end.

(** [text.match(/```json\s*([\s\S]*?)\s*```/)], returning group 1. The
    pattern is tried at every position from the left. *)
Fixpoint match_code_block (text : jsstring) : option jsstring :=
  let here :=
    if starts_with fence_json text
    then lazy_capture (skip_space (drop (length fence_json) text))
    else None in
  match here with
  | Some interior => Some interior
  | None => match text with
            | [] => None
            | _ :: r => match_code_block r
            end
  end.

(** [jsonMatch] after both attempts of the extraction passes. *)
Definition locate (text : jsstring) : option jsstring :=
  match match_array text with
  | Some span => Some span
  | None => match_code_block text
  end.

(** First [replace] of the repair: the pattern is a backslash with a negative
    lookahead for a backslash or a double quote; each match becomes two
    backslashes. *)
Fixpoint escape_single_backslashes (s : jsstring) : jsstring :=
  match s with
  | [] => []
  | c :: r =>
      if (c =? 92) &&
         negb (match r with
               | n :: _ => (n =? 92) || (n =? 34)
               | [] => false
               end)
      then 92 :: 92 :: escape_single_backslashes r
      else c :: escape_single_backslashes r
  end.

(** Length of the run of backslashes that [s] starts with. *)
Fixpoint backslash_run (s : jsstring) : nat :=
  match s with
  | c :: r => if c =? 92 then S (backslash_run r) else O
  | [] => O
  end.

(** Second [replace] of the repair: the pattern is three backslashes
    followed by one or more; every run of four or more becomes four.
    [skip] counts the characters of the current match still to drop. *)
Fixpoint collapse_backslashes_from (skip : nat) (s : jsstring) : jsstring :=
  match s with
  | [] => []
  | c :: r =>
      match skip with
      | S k => collapse_backslashes_from k r
      | O =>
          let run := backslash_run s in
          if (4 <=? run)%nat
          then [92; 92; 92; 92] ++ collapse_backslashes_from (run - 1) r
          else c :: collapse_backslashes_from O r
      end
  end.

Definition collapse_backslashes (s : jsstring) : jsstring :=
  collapse_backslashes_from O s.

(** [.replace(/c/g, '\\x')] for a single character [c]. *)
Definition escape_char (c x : N) (s : jsstring) : jsstring :=
  s ≫= (λ a, if a =? c then [92; x] else [a]).

(** The whole repair chain applied to [jsonMatch[0]]. *)
Definition fixJson (s : jsstring) : jsstring :=
  escape_char 13 114
    (escape_char 9 116
      (escape_char 10 110
        (collapse_backslashes (escape_single_backslashes s)))).

Section Stamping.
Variable type_error : js_error.

(** [{ ...q, page_number: pageNumber,
       confidence_score: q.confidence_score || 1.0 }] *)
Definition stamp (pageNumber : N) (q : json) : js_error + json :=
  let copied := set_prop (js "page_number") (number_of_N pageNumber) (spread q) in
  match get_member type_error q (js "confidence_score") with
  | inl e => inl e
  | inr score =>
      let confidence := if truthy score then default one score else one in
      inr (JObj (set_prop (js "confidence_score") confidence copied))
  end.

(** [questions.map(q => ({...}))] on whatever [JSON.parse] returned:
    only an array has [map]. *)
Definition stamp_all (pageNumber : N) (questions : json) : js_error + list json :=
  match questions with
  | JArr items => map_throwing (stamp pageNumber) items
  | _ => inl type_error
  end.
End Stamping.

End Decoder.

(* ===================================================================== *)
(** ** Asynchronous computations over the world *)
(* ===================================================================== *)

Module Runtime.
Import Json.

(** What a prompt interpolates; the surrounding instruction text is fixed. *)
Inductive prompt :=
  | StructurePrompt
  | ContextPrompt (pageNumber : N) (sharedDescription recentContext : jsstring)
  | SinglePassPrompt (pageNumber : N) (memoryContext previousContext : jsstring).

(** One call of [model.generateContent([prompt, {inlineData}])]. *)
Record request := Request {
  req_apiKey : jsstring;
  req_prompt : prompt;
  req_image : jsstring
}.

(** A row of the [questions] table as [savePdfQuestions] builds it;
    [year] is [None] when [parseInt] gave NaN. *)
Record row := Row {
  row_question_type : jsstring;
  row_question_statement : jsstring;
  row_options : option (list jsstring);
  row_course_id : jsstring;
  row_year : option Z;
  row_categorized : bool
}.

Inductive diagnostic :=
  | RateLimitHit (retryCount : nat)
  | ApiKeyFailed (retryCount : nat) (pageNumber : N) (error : js_error)
  | NoJsonFound (pageNumber : N)
  | JsonParsingError (pageNumber : N) (error : js_error)
  | JsonParsingFailedTwice (pageNumber : N) (error : js_error)
  | FirstPassError (pageNumber : N) (error : js_error)
  | ExtractionError (pageNumber : N) (error : js_error)
  | PageFailed (pageNumber : N) (error : js_error)
  | QuestionsFound (count : nat) (pageNumber : N)
  | NonQuestionPage (pageNumber : N)
  | SelectCourseFirst
  | SaveSucceeded (totalSaved : nat)
  | SaveFailed (error : js_error).

(** External effects, oldest first. *)
Inductive event :=
  | Generate (r : request)
  | Timeout (ms : N)
  | Report (d : diagnostic)
  | Insert (rows : list row).

Record world := World {
  keyUsageCount : gmap jsstring nat;
  pageMemory : list (N * jsstring);
  trace : list event
}.

Definition is_generate (ev : event) : bool :=
  match ev with Generate _ => true | _ => false end.

Definition is_insert (ev : event) : bool :=
  match ev with Insert _ => true | _ => false end.

(** The model calls issued so far. *)
Definition calls (t : list event) : list request :=
  omap (λ ev, match ev with Generate r => Some r | _ => None end) t.

(** The batches submitted to storage so far. *)
Definition inserts (t : list event) : list (list row) :=
  omap (λ ev, match ev with Insert rows => Some rows | _ => None end) t.

(** The reply of [supabase.from('questions').insert(rows).select()]. *)
Record insert_reply := InsertReply {
  reply_data : option (list row);
  reply_error : option js_error
}.

(** What the program takes from its environment: the configured pool, the
    engine's [JSON.parse], [ToString] and TypeError, the external model (its
    reply may depend on how many calls came before) and the store. *)
Record runtime := Runtime_ {
  API_KEYS : list jsstring;
  JSON_parse : jsstring → js_error + json;
  ToString : json → jsstring;
  type_error : js_error;
  generateContent : nat → request → js_error + jsstring;
  insert_select : nat → list row → insert_reply
}.

Inductive completion (A : Type) :=
  | Return (a : A)
  | Throw (e : js_error).
Arguments Return {A} a.
Arguments Throw {A} e.

Definition Async (A : Type) : Type := world → completion A * world.

Definition ret {A} (a : A) : Async A := λ w, (Return a, w).

Definition throw {A} (e : js_error) : Async A := λ w, (Throw e, w).

Definition bind {A B} (c : Async A) (k : A → Async B) : Async B :=
  λ w, match c w with
       | (Return a, w') => k a w'
       | (Throw e, w') => (Throw e, w')
       end.

(** [try { c } catch (error) { h error }] *)
Definition try_catch {A} (c : Async A) (h : js_error → Async A) : Async A :=
  λ w, match c w with
       | (Return a, w') => (Return a, w')
       | (Throw e, w') => h e w'
       end.

(** A synchronous step that may throw. *)
Definition lift {A} (r : js_error + A) : Async A :=
  match r with
  | inl e => throw e
  | inr a => ret a
  end.

Definition emit (ev : event) : Async unit :=
  λ w, (Return tt, World (keyUsageCount w) (pageMemory w) (trace w ++ [ev])).

(** [await new Promise(resolve => setTimeout(resolve, ms))] *)
Definition sleep (ms : N) : Async unit := emit (Timeout ms).

(** [console.log], [console.error] and [toast] *)
Definition report (d : diagnostic) : Async unit := emit (Report d).

Declare Scope async_scope.
Delimit Scope async_scope with async.
Notation "'let*' x := c 'in' k" := (bind c (λ x, k))
  (at level 10, x name, c at level 100, k at level 200) : async_scope.
Notation "c ;; k" := (bind c (λ _, k))
  (at level 100, k at level 200, right associativity) : async_scope.

Section WithRuntime.
Variable rt : runtime.

(** [getNextApiKey()] on the module-level counters. *)
Definition acquire : Async jsstring :=
  λ w, let (bestKey, counts) := Pool.getNextApiKey (API_KEYS rt) (keyUsageCount w) in
       (Return bestKey, World counts (pageMemory w) (trace w)).

(** [generateContent], [result.response] and [response.text()] awaited
    in a row: the text, or whatever any of them threw. *)
Definition generate (r : request) : Async jsstring :=
  λ w, let w' := World (keyUsageCount w) (pageMemory w) (trace w ++ [Generate r]) in
       match generateContent rt (length (calls (trace w))) r with
       | inl e => (Throw e, w')
       | inr text => (Return text, w')
       end.

(** [pageMemory.set(pageNumber, content)]: a present key keeps its place. *)
Fixpoint map_set (k : N) (v : jsstring) (m : list (N * jsstring)) : list (N * jsstring) :=
  match m with
  | [] => [(k, v)]
  | (k', v') :: rest => if k' =? k then (k, v) :: rest else (k', v') :: map_set k v rest
  end.

Definition remember (pageNumber : N) (content : jsstring) : Async unit :=
  λ w, (Return tt, World (keyUsageCount w) (map_set pageNumber content (pageMemory w)) (trace w)).

Definition recall : Async (list (N * jsstring)) := λ w, (Return (pageMemory w), w).

(** [new Map<number, string>()] taking the place of the page memory. *)
Definition fresh_memory : Async unit :=
  λ w, (Return tt, World (keyUsageCount w) [] (trace w)).

(** [supabase.from('questions').insert(rows).select()] *)
Definition insert (rows : list row) : Async insert_reply :=
  λ w, (Return (insert_select rt (length (inserts (trace w))) rows),
        World (keyUsageCount w) (pageMemory w) (trace w ++ [Insert rows])).
End WithRuntime.

End Runtime.

(* ===================================================================== *)
(** ** [gemini.ts]: the three call sites and the two-pass orchestrator *)
(* ===================================================================== *)

Module Gemini.
Import Json Decoder Runtime.
Local Open Scope async_scope.

(** [error.message?.includes('429') || error.message?.includes('quota')] *)
Definition is_rate_limit (error : js_error) : bool :=
  match message error with
  | Some m => includes m (js "429") || includes m (js "quota")
  | None => false
  end.

Section WithRuntime.
Variable rt : runtime.

(** A template-literal hole holding a value that may be [undefined]. *)
Definition template (v : option json) : jsstring :=
  match v with
  | None => js "undefined"
  | Some j => ToString rt j
  end.

(** An element of [Array.prototype.join]: empty for [undefined] and [null]. *)
Definition join_element (v : option json) : jsstring :=
  match v with
  | None | Some JNull => []
  | Some j => ToString rt j
  end.

Definition parse_and_stamp (pageNumber : N) (candidate : jsstring)
    : js_error + list json :=
  match JSON_parse rt candidate with
  | inl e => inl e
  | inr questions => stamp_all (type_error rt) pageNumber questions
  end.

(* ------------------------------------------------------------------- *)
(** *** [analyzePageStructure] *)

(** Body of the [try] block. *)
Definition analyzePageStructure_attempt (imageBase64 : jsstring) : Async json :=
  let* apiKey := acquire rt in
  let* text := generate rt (Request apiKey StructurePrompt imageBase64) in
  match match_object text with
  | None => ret (JObj [])
  | Some jsonMatch => lift (JSON_parse rt jsonMatch)
  end.

(** The [while (retryCount < maxRetries)] loop; [remaining] is
    [maxRetries - retryCount], so the loop is left when it reaches 0. *)
Fixpoint analyzePageStructure_loop (maxRetries remaining retryCount : nat)
    (imageBase64 : jsstring) : Async json :=
  match remaining with
  | O => throw (new_Error (js "All API keys exhausted for page structure analysis"))
  | S remaining' =>
      try_catch (analyzePageStructure_attempt imageBase64) (λ error,
        let retryCount := S retryCount in
        if is_rate_limit error then
          report (RateLimitHit retryCount) ;;
          if (retryCount <? maxRetries)%nat then
            sleep 2000 ;;
            analyzePageStructure_loop maxRetries remaining' retryCount imageBase64
          else throw error
        else throw error)
  end.

Definition analyzePageStructure (imageBase64 : jsstring) (pageNumber : N)
    (previousImage nextImage : option jsstring) : Async json :=
  let maxRetries := length (API_KEYS rt) in
  analyzePageStructure_loop maxRetries maxRetries 0 imageBase64.

(* ------------------------------------------------------------------- *)
(** *** [extractQuestionsWithContext] *)

(** One line of [recentContext]; [substring] exists on strings only. *)
Definition recent_line (q : json) : js_error + jsstring :=
  match get_member (type_error rt) q (js "question_number") with
  | inl e => inl e
  | inr number =>
      match get_member (type_error rt) q (js "question_statement") with
      | inl e => inl e
      | inr (Some (JStr statement)) =>
          inr (js "Q" ++ template number ++ js ": "
               ++ substring0 200 statement ++ js "...")
      | inr _ => inl (type_error rt)
      end
  end.

Definition recentContext (previousQuestions : list json) : js_error + jsstring :=
  match map_throwing recent_line (slice_last 3 previousQuestions) with
  | inl e => inl e
  | inr lines => inr (join [10] lines)
  end.

Definition shared_description_text (currentSharedDescription : option json) : jsstring :=
  if truthy currentSharedDescription
  then js "SHARED DESCRIPTION FOR THIS PAGE: " ++ [34]
       ++ template currentSharedDescription ++ [34]
  else js "No shared description found".

(** From [jsonMatch] to the returned list: strict parse, then the repair
    and a second parse. *)
Definition extractQuestionsWithContext_decode (pageNumber : N) (text : jsstring)
    : Async (list json) :=
  match locate text with
  | None => report (NoJsonFound pageNumber) ;; ret []
  | Some jsonMatch =>
      match parse_and_stamp pageNumber jsonMatch with
      | inr questions => ret questions
      | inl parseError =>
          report (JsonParsingError pageNumber parseError) ;;
          match parse_and_stamp pageNumber (fixJson jsonMatch) with
          | inr questions => ret questions
          | inl secondParseError =>
              report (JsonParsingFailedTwice pageNumber secondParseError) ;;
              ret []
          end
      end
  end.

Definition extractQuestionsWithContext_attempt (imageBase64 : jsstring)
    (pageNumber : N) (sharedDescriptions : gmap N json)
    (previousQuestions : list json) : Async (list json) :=
  let* apiKey := acquire rt in
  let currentSharedDescription := sharedDescriptions !! pageNumber in
  let* recent := lift (recentContext previousQuestions) in
  let enhancedPrompt :=
    ContextPrompt pageNumber (shared_description_text currentSharedDescription) recent in
  let* text := generate rt (Request apiKey enhancedPrompt imageBase64) in
  extractQuestionsWithContext_decode pageNumber text.

(** The [while] loop, with [remaining] as above. *)
Fixpoint extractQuestionsWithContext_loop (maxRetries remaining retryCount : nat)
    (imageBase64 : jsstring) (pageNumber : N) (sharedDescriptions : gmap N json)
    (previousQuestions : list json) : Async (list json) :=
  match remaining with
  | O => throw (new_Error (js "All API keys exhausted for question extraction"))
  | S remaining' =>
      try_catch
        (extractQuestionsWithContext_attempt imageBase64 pageNumber
           sharedDescriptions previousQuestions)
        (λ error,
          let retryCount := S retryCount in
          if is_rate_limit error then
            report (RateLimitHit retryCount) ;;
            if (retryCount <? maxRetries)%nat then
              sleep 2000 ;;
              extractQuestionsWithContext_loop maxRetries remaining' retryCount
                imageBase64 pageNumber sharedDescriptions previousQuestions
            else throw error
          else throw error)
  end.

Definition extractQuestionsWithContext (imageBase64 : jsstring) (pageNumber : N)
    (sharedDescriptions : gmap N json) (previousImage nextImage : option jsstring)
    (previousQuestions : list json) : Async (list json) :=
  let maxRetries := length (API_KEYS rt) in
  extractQuestionsWithContext_loop maxRetries maxRetries 0
    imageBase64 pageNumber sharedDescriptions previousQuestions.

(* ------------------------------------------------------------------- *)
(** *** [performExtraction] *)

Definition memoryContext (memory : list (N * jsstring)) : jsstring :=
  join [10; 10]
    ((λ entry, js "Page " ++ N_toString entry.1 ++ js ": "
               ++ substring0 500 entry.2 ++ js "...")
     <$> slice_last 3 memory).

(** From [jsonMatch] to the returned list: one strict parse. *)
Definition performExtraction_decode (pageNumber : N) (text : jsstring)
    : Async (list json) :=
  match locate text with
  | None => report (NoJsonFound pageNumber) ;; ret []
  | Some jsonMatch =>
      match parse_and_stamp pageNumber jsonMatch with
      | inr questions => ret questions
      | inl parseError => report (JsonParsingError pageNumber parseError) ;; ret []
      end
  end.

Definition performExtraction_attempt (imageBase64 : jsstring) (pageNumber : N)
    (previousContext : jsstring) : Async (list json) :=
  let* apiKey := acquire rt in
  let* memory := recall in
  let enhancedPrompt :=
    SinglePassPrompt pageNumber (memoryContext memory) previousContext in
  let* text := generate rt (Request apiKey enhancedPrompt imageBase64) in
  remember pageNumber (substring0 1000 text) ;;
  performExtraction_decode pageNumber text.

(** [`All ${maxRetries} API keys exhausted for page ${pageNumber}:
     ${error.message}`] *)
Definition exhausted_message (maxRetries : nat) (pageNumber : N)
    (error : js_error) : jsstring :=
  js "All " ++ nat_toString maxRetries ++ js " API keys exhausted for page "
  ++ N_toString pageNumber ++ js ": "
  ++ default (js "undefined") (message error).

(** The [while] loop, with [remaining] as above. In the [catch] block come
    [retryCount++], the log line, the rate-limit branch with its [continue],
    and the [throw] guarded by [retryCount >= maxRetries]; when neither
    fires, control leaves the block and the loop turns again. *)
Fixpoint performExtraction_loop (maxRetries remaining retryCount : nat)
    (imageBase64 : jsstring) (pageNumber : N) (previousContext : jsstring)
    : Async (list json) :=
  match remaining with
  | O => throw (new_Error (js "Failed to process page " ++ N_toString pageNumber
                           ++ js " after trying all API keys"))
  | S remaining' =>
      try_catch
        (performExtraction_attempt imageBase64 pageNumber previousContext)
        (λ error,
          let retryCount := S retryCount in
          let next :=
            performExtraction_loop maxRetries remaining' retryCount
              imageBase64 pageNumber previousContext in
          let after_rate_limit_check :=
            if (maxRetries <=? retryCount)%nat
            then throw (new_Error (exhausted_message maxRetries pageNumber error))
            else next in
          report (ApiKeyFailed retryCount pageNumber error) ;;
          if is_rate_limit error then
            report (RateLimitHit retryCount) ;;
            if (retryCount <? maxRetries)%nat then sleep 2000 ;; next
            else after_rate_limit_check
          else after_rate_limit_check)
  end.

(** The [pageMemory] argument is the map held in the world. *)
Definition performExtraction (imageBase64 : jsstring) (pageNumber : N)
    (previousContext : jsstring) : Async (list json) :=
  let maxRetries := length (API_KEYS rt) in
  performExtraction_loop maxRetries maxRetries 0 imageBase64 pageNumber previousContext.

(* ------------------------------------------------------------------- *)
(** *** [enhancedQuestionExtraction] *)

(** [i > 0 ? images[i-1] : undefined] *)
Definition previous_image (images : list jsstring) (i : nat) : option jsstring :=
  if (0 <? i)%nat then images !! (i - 1)%nat else None.

(** [i < images.length - 1 ? images[i+1] : undefined] *)
Definition next_image (images : list jsstring) (i : nat) : option jsstring :=
  if (i <? length images - 1)%nat then images !! (i + 1)%nat else None.

(** The delay between pages, skipped after the last one. *)
Definition pause_unless_last (images : list jsstring) (i : nat) (ms : N)
    : Async unit :=
  if (i <? length images - 1)%nat then sleep ms else ret tt.

(** [if (pageAnalysis.sharedDescription)
       sharedDescriptions.set(pageNum, pageAnalysis.sharedDescription)] *)
Definition store_description (pageNum : N) (description : option json)
    (sharedDescriptions : gmap N json) : gmap N json :=
  match description with
  | Some d => if truthy description
              then <[pageNum := d]> sharedDescriptions
              else sharedDescriptions
  | None => sharedDescriptions
  end.

(** First [for] loop, from index [i] on; [todo] is [images] from [i]. *)
Fixpoint first_pass (images : list jsstring) (startPageNumber : N) (i : nat)
    (todo : list jsstring) (sharedDescriptions : gmap N json)
    : Async (gmap N json) :=
  match todo with
  | [] => ret sharedDescriptions
  | image :: later =>
      let pageNum := startPageNumber + N.of_nat i in
      let* sharedDescriptions' :=
        try_catch
          (let* pageAnalysis :=
             analyzePageStructure image pageNum
               (previous_image images i) (next_image images i) in
           let* description :=
             lift (get_member (type_error rt) pageAnalysis (js "sharedDescription")) in
           pause_unless_last images i 5000 ;;
           ret (store_description pageNum description sharedDescriptions))
          (λ error, report (FirstPassError pageNum error) ;; ret sharedDescriptions) in
      first_pass images startPageNumber (S i) later sharedDescriptions'
  end.

(** Second [for] loop, from index [i] on. *)
Fixpoint second_pass (images : list jsstring) (startPageNumber : N) (i : nat)
    (todo : list jsstring) (sharedDescriptions : gmap N json)
    (allQuestions : list json) : Async (list json) :=
  match todo with
  | [] => ret allQuestions
  | image :: later =>
      let pageNum := startPageNumber + N.of_nat i in
      let* allQuestions' :=
        try_catch
          (let* questions :=
             extractQuestionsWithContext image pageNum sharedDescriptions
               (previous_image images i) (next_image images i) allQuestions in
           pause_unless_last images i 10000 ;;
           ret (allQuestions ++ questions))
          (λ error, report (ExtractionError pageNum error) ;; ret allQuestions) in
      second_pass images startPageNumber (S i) later sharedDescriptions allQuestions'
  end.

Definition enhancedQuestionExtraction (images : list jsstring)
    (startPageNumber : N) : Async (list json) :=
  let* sharedDescriptions := first_pass images startPageNumber 0 images ∅ in
  second_pass images startPageNumber 0 images sharedDescriptions [].
End WithRuntime.

End Gemini.

(* ===================================================================== *)
(** ** [PDFScanner.tsx]: the page loop and the save path *)
(* ===================================================================== *)

Module Scanner.
Import Json Runtime Gemini.
Local Open Scope async_scope.

(** The interface [ExtractedQuestion]. [question_type] is an arbitrary
    string here, because the save path checks it at run time. *)
Record ExtractedQuestion := {
  question_number : option jsstring;
  question_type : jsstring;
  question_statement : jsstring;
  options : option (list jsstring);
  is_continuation : option bool;
  page_number : N;
  confidence_score : option json;
  spans_multiple_pages : option bool;
  continuation_from_page : option N;
  has_image : option bool;
  image_description : option jsstring;
  uploaded_image : option jsstring
}.

(** [PDFUpload]; the file is known by its name. *)
Record PDFUpload := {
  file : option jsstring;
  year : jsstring;
  id : jsstring
}.

(** The component state that the save path reads and writes. *)
Record ui := UI {
  selectedExam : jsstring;
  selectedCourse : jsstring;
  pdfUploads : list PDFUpload;
  extractedQuestions : list ExtractedQuestion;
  isSaving : bool
}.

(** Value of a digit in the given radix, if it is one. *)
Definition digit_value (radix : Z) (c : N) : option Z :=
  let v :=
    if (48 <=? c) && (c <=? 57) then Some (Z.of_N c - 48)%Z
    else if (97 <=? c) && (c <=? 122) then Some (Z.of_N c - 87)%Z
    else if (65 <=? c) && (c <=? 90) then Some (Z.of_N c - 55)%Z
    else None in
  match v with
  | Some d => if (d <? radix)%Z then Some d else None
  | None => None
  end.

Fixpoint read_digits (radix : Z) (s : jsstring) (acc : Z) : Z :=
  match s with
  | c :: r =>
      match digit_value radix c with
      | Some d => read_digits radix r (acc * radix + d)%Z
      | None => acc
      end
  | [] => acc
  end.

(** [parseInt(string)] without a radix: leading space, a sign, an optional
    [0x] prefix, then the longest run of digits; [None] is NaN. The integer
    is exact here, which agrees with the number on every comparison made
    below. *)
Definition parseInt (string : jsstring) : option Z :=
  let S := skip_space string in
  let signed :=
    match S with
    | 45 :: r => ((-1)%Z, r)
    | 43 :: r => (1%Z, r)
    | _ => (1%Z, S)
    end in
  let prefixed :=
    match signed.2 with
    | 48 :: x :: r => if (x =? 120) || (x =? 88) then (16%Z, r) else (10%Z, signed.2)
    | _ => (10%Z, signed.2)
    end in
  match prefixed.2 with
  | c :: _ =>
      match digit_value prefixed.1 c with
      | Some _ => Some (signed.1 * read_digits prefixed.1 prefixed.2 0)%Z
      | None => None
      end
  | [] => None
  end.

Definition question_types : list jsstring :=
  [js "MCQ"; js "MSQ"; js "NAT"; js "Subjective"].

(** The object built by [questions.map(q => ({...}))] in [savePdfQuestions]. *)
Definition questionToInsert (selectedCourse year : jsstring)
    (q : ExtractedQuestion) : row :=
  Row (question_type q) (question_statement q)
      (match options q with
       | Some o => if (0 <? length o)%nat then Some o else None
       | None => None
       end)
      selectedCourse (parseInt year) false.

(** The predicate of [questionsToInsert.filter(...)]. *)
Definition valid_question (q : row) : bool :=
  negb (jseqb (row_question_statement q) [])
  && (0 <? length (trim (row_question_statement q)))%nat
  && negb (jseqb (row_question_type q) [])
  && bool_decide (row_question_type q ∈ question_types)
  && negb (jseqb (row_course_id q) [])
  && match row_year q with
     | Some y => negb (y =? 0)%Z && (2000 <? y)%Z && (y <? 2030)%Z
     | None => false
     end.

(** [q.page_number?.toString() || 'unknown'] *)
Definition year_of_question (q : ExtractedQuestion) : jsstring :=
  let s := N_toString (page_number q) in
  if jseqb s [] then js "unknown" else s.

(** [questionsByYear.get(year)!.push(q)], creating the entry if needed. *)
Fixpoint group_push (year : jsstring) (q : ExtractedQuestion)
    (groups : list (jsstring * list ExtractedQuestion))
    : list (jsstring * list ExtractedQuestion) :=
  match groups with
  | [] => [(year, [q])]
  | (y, qs) :: rest =>
      if jseqb y year then (y, qs ++ [q]) :: rest
      else (y, qs) :: group_push year q rest
  end.

Definition questionsByYear (questions : list ExtractedQuestion)
    : list (jsstring * list ExtractedQuestion) :=
  fold_left (λ groups q, group_push (year_of_question q) q groups) questions [].

(** [Array.from({ length: 20 }, (_, i) => ({ file: null, year: '', id }))] *)
Definition empty_uploads : list PDFUpload :=
  (λ i, {| file := None; year := []; id := js "pdf-" ++ nat_toString i |}) <$> seq 0 20.

Section WithRuntime.
Variable rt : runtime.

Definition savePdfQuestions (selectedCourse : jsstring)
    (questions : list ExtractedQuestion) (year : jsstring)
    : Async (option (list row)) :=
  let questionsToInsert := questionToInsert selectedCourse year <$> questions in
  let validQuestions := List.filter valid_question questionsToInsert in
  if (length validQuestions =? 0)%nat
  then throw (new_Error (js "No valid questions to save"))
  else
    let* reply := insert rt validQuestions in
    match reply_error reply with
    | Some error =>
        throw (new_Error (js "Database error: "
                          ++ default (js "undefined") (message error)))
    | None => ret (reply_data reply)
    end.

(** [for (const [year, questions] of questionsByYear)] *)
Fixpoint save_groups (selectedCourse : jsstring)
    (groups : list (jsstring * list ExtractedQuestion)) (totalSaved : nat)
    : Async nat :=
  match groups with
  | [] => ret totalSaved
  | (year, questions) :: rest =>
      let* data := savePdfQuestions selectedCourse questions year in
      save_groups selectedCourse rest
        (totalSaved + match data with Some d => length d | None => 0 end)%nat
  end.

Definition saveAllToDatabase (st : ui) : Async ui :=
  if jseqb (selectedCourse st) [] || (length (extractedQuestions st) =? 0)%nat
  then report SelectCourseFirst ;; ret st
  else
    let* st' :=
      try_catch
        (let* totalSaved :=
           save_groups (selectedCourse st) (questionsByYear (extractedQuestions st)) 0 in
         report (SaveSucceeded totalSaved) ;;
         ret (UI [] [] empty_uploads [] true))
        (λ error, report (SaveFailed error) ;; ret st) in
    ret (UI (selectedExam st') (selectedCourse st') (pdfUploads st')
            (extractedQuestions st') false).

(** [questions.map(q => q.question_statement).join(' ')] *)
Definition statements_joined (questions : list json) : js_error + jsstring :=
  match map_throwing (λ q, get_member (type_error rt) q (js "question_statement"))
          questions with
  | inl e => inl e
  | inr statements => inr (join [32] (join_element rt <$> statements))
  end.

(** The page loop of [scanAndExtractQuestions] for one PDF, from index
    [i] on; [todo] is [images] from [i]. The questions of a page are
    pushed before [previousContext] is rebuilt, so an exception raised
    while rebuilding it reaches the [catch] with the push already made. *)
Fixpoint scan_pages (images : list jsstring) (i : nat) (todo : list jsstring)
    (pdfQuestions : list json) (previousContext : jsstring) : Async (list json) :=
  match todo with
  | [] => ret pdfQuestions
  | image :: later =>
      let pageNum := N.of_nat i + 1 in
      let* st :=
        try_catch
          (let* questions := performExtraction rt image pageNum previousContext in
           if (0 <? length questions)%nat then
             let pdfQuestions := pdfQuestions ++ questions in
             match statements_joined questions with
             | inr context =>
                 report (QuestionsFound (length questions) pageNum) ;;
                 ret (pdfQuestions, context)
             | inl pageError =>
                 report (PageFailed pageNum pageError) ;;
                 ret (pdfQuestions, previousContext)
             end
           else
             report (NonQuestionPage pageNum) ;;
             ret (pdfQuestions, previousContext))
          (λ pageError,
             report (PageFailed pageNum pageError) ;;
             ret (pdfQuestions, previousContext)) in
      pause_unless_last images i 10000 ;;
      scan_pages images (S i) later st.1 st.2
  end.

(** Lines 161 to 193: fresh accumulators and page memory, then the loop. *)
Definition scan_pdf (images : list jsstring) : Async (list json) :=
  fresh_memory ;;
  scan_pages images 0 images [] [].
End WithRuntime.

End Scanner.

(* ===================================================================== *)
(** ** A reference [JSON.parse] (ECMA-404 grammar) for concrete runs *)
(* ===================================================================== *)

Module RefJson.
Import Json Runtime.

(** JSON white space: tab, line feed, carriage return, space. *)
Fixpoint skip_ws (s : jsstring) : jsstring :=
  match s with
  | c :: r => if (c =? 9) || (c =? 10) || (c =? 13) || (c =? 32) then skip_ws r else s
  | [] => []
  end.

Definition hex_value (c : N) : option N :=
  if (48 <=? c) && (c <=? 57) then Some (c - 48)
  else if (97 <=? c) && (c <=? 102) then Some (c - 87)
  else if (65 <=? c) && (c <=? 70) then Some (c - 55)
  else None.

(** After the opening quote: the decoded characters and what follows the
    closing quote. Control characters must be escaped, and only the escapes
    of the grammar are accepted. *)
Fixpoint parse_string_body (s : jsstring) : option (jsstring * jsstring) :=
  match s with
  | [] => None
  | 34 :: r => Some ([], r)
  | 92 :: e :: r =>
      let plain (c : N) :=
        match parse_string_body r with
        | Some (body, rest) => Some (c :: body, rest)
        | None => None
        end in
      if e =? 34 then plain 34
      else if e =? 92 then plain 92
      else if e =? 47 then plain 47
      else if e =? 98 then plain 8
      else if e =? 102 then plain 12
      else if e =? 110 then plain 10
      else if e =? 114 then plain 13
      else if e =? 116 then plain 9
      else if e =? 117 then
        match r with
        | a :: b :: c :: d :: r' =>
            match hex_value a, hex_value b, hex_value c, hex_value d with
            | Some a, Some b, Some c, Some d =>
                match parse_string_body r' with
                | Some (body, rest) =>
                    Some (((a * 16 + b) * 16 + c) * 16 + d :: body, rest)
                | None => None
                end
            | _, _, _, _ => None
            end
        | _ => None
        end
      else None
  | c :: r =>
      if c <? 32 then None
      else match parse_string_body r with
           | Some (body, rest) => Some (c :: body, rest)
           | None => None
           end
  end.

Definition is_digit (c : N) : bool := (48 <=? c) && (c <=? 57).

(** Longest run of decimal digits: its value continued from [acc], its
    length, and the rest. *)
Fixpoint read_decimal (s : jsstring) (acc : Z) (len : nat) : Z * nat * jsstring :=
  match s with
  | c :: r => if is_digit c then read_decimal r (acc * 10 + (Z.of_N c - 48))%Z (S len)
              else (acc, len, s)
  | [] => (acc, len, [])
  end.

(** [-? int frac? exp?], with no leading zero in [int]. *)
Definition parse_number (s : jsstring) : option (json * jsstring) :=
  let signed := match s with 45 :: r => ((-1)%Z, r) | _ => (1%Z, s) end in
  let '(int, int_len, after_int) := read_decimal signed.2 0 0 in
  let leading_zero :=
    match signed.2 with 48 :: _ => (1 <? int_len)%nat | _ => false end in
  if (int_len =? 0)%nat || leading_zero then None
  else
    let frac_part :=
      match after_int with
      | 46 :: r =>
          let '(m, len, rest) := read_decimal r int 0 in
          if (len =? 0)%nat then None else Some (m, len, rest)
      | _ => Some (int, O, after_int)
      end in
    match frac_part with
    | None => None
    | Some (m, frac_len, after_frac) =>
        let exp_part :=
          match after_frac with
          | x :: r =>
              if (x =? 101) || (x =? 69) then
                let esigned :=
                  match r with
                  | 45 :: r' => ((-1)%Z, r')
                  | 43 :: r' => (1%Z, r')
                  | _ => (1%Z, r)
                  end in
                let '(e, len, rest) := read_decimal esigned.2 0 0 in
                if (len =? 0)%nat then None else Some ((esigned.1 * e)%Z, rest)
              else Some (0%Z, after_frac)
          | [] => Some (0%Z, after_frac)
          end in
        match exp_part with
        | None => None
        | Some (e, rest) =>
            Some (JNum (signed.1 * m) (e - Z.of_nat frac_len), rest)
        end
    end.

Definition expect (word : jsstring) (v : json) (s : jsstring) : option (json * jsstring) :=
  if starts_with word s then Some (v, drop (length word) s) else None.

(** Recursive descent. Every call consumes a character before it calls
    again, so [fuel] above the length of the text is never exhausted. *)
Fixpoint parse_value (fuel : nat) (s : jsstring) : option (json * jsstring) :=
  match fuel with
  | O => None
  | S fuel' =>
      match skip_ws s with
      | [] => None
      | c :: r =>
          if c =? 123 then
            match skip_ws r with
            | 125 :: r' => Some (JObj [], r')
            | _ => parse_members fuel' r []
            end
          else if c =? 91 then
            match skip_ws r with
            | 93 :: r' => Some (JArr [], r')
            | _ => parse_elements fuel' r []
            end
          else if c =? 34 then
            match parse_string_body r with
            | Some (body, rest) => Some (JStr body, rest)
            | None => None
            end
          else if c =? 116 then expect (js "true") (JBool true) (c :: r)
          else if c =? 102 then expect (js "false") (JBool false) (c :: r)
          else if c =? 110 then expect (js "null") JNull (c :: r)
          else parse_number (c :: r)
      end
  end
with parse_elements (fuel : nat) (s : jsstring) (acc : list json)
    : option (json * jsstring) :=
  match fuel with
  | O => None
  | S fuel' =>
      match parse_value fuel' s with
      | None => None
      | Some (v, r) =>
          match skip_ws r with
          | 44 :: r' => parse_elements fuel' r' (acc ++ [v])
          | 93 :: r' => Some (JArr (acc ++ [v]), r')
          | _ => None
          end
      end
  end
with parse_members (fuel : nat) (s : jsstring) (acc : list (jsstring * json))
    : option (json * jsstring) :=
  match fuel with
  | O => None
  | S fuel' =>
      match skip_ws s with
      | 34 :: r =>
          match parse_string_body r with
          | None => None
          | Some (key, r1) =>
              match skip_ws r1 with
              | 58 :: r2 =>
                  match parse_value fuel' r2 with
                  | None => None
                  | Some (v, r3) =>
                      match skip_ws r3 with
                      | 44 :: r4 => parse_members fuel' r4 (set_prop key v acc)
                      | 125 :: r4 => Some (JObj (set_prop key v acc), r4)
                      | _ => None
                      end
                  end
              | _ => None
              end
          end
      | _ => None
      end
  end.

Definition syntax_error : js_error := new_Error (js "Unexpected token in JSON").

(** [JSON.parse(text)]: one value, then nothing but white space. *)
Definition reference_parse (text : jsstring) : js_error + json :=
  match parse_value (S (length text)) text with
  | Some (v, rest) =>
      match skip_ws rest with
      | [] => inr v
      | _ => inl syntax_error
      end
  | None => inl syntax_error
  end.

(** [ToString] where the concrete runs below need it: strings, booleans,
    [null] and integers written without exponent; the rest is left at the
    generic object rendering. *)
Definition reference_ToString (v : json) : jsstring :=
  match v with
  | JStr s => s
  | JNull => js "null"
  | JBool true => js "true"
  | JBool false => js "false"
  | JNum m 0 => (if (m <? 0)%Z then js "-" else []) ++ N_toString (Z.abs_N m)
  | _ => js "[object Object]"
  end.

Definition reference_TypeError : js_error := new_Error (js "TypeError").

(** A runtime over the reference engine, for a given pool, model and store. *)
Definition runtime_of (keys : list jsstring)
    (model : nat → request → js_error + jsstring)
    (store : nat → list row → insert_reply) : runtime :=
  Runtime_ keys reference_parse reference_ToString reference_TypeError model store.

(** A store that accepts every batch and returns it. *)
Definition accepting_store (n : nat) (rows : list row) : insert_reply :=
  InsertReply (Some rows) None.

Definition empty_world : world := World ∅ [] [].

End RefJson.

(* ===================================================================== *)
(** ** Worlds reached by single steps, and the requests sent *)
(* ===================================================================== *)

Module Steps.
Import Pool Json Decoder Runtime Gemini.

(** [w] with one more diagnostic. *)
Definition reported (d : diagnostic) (w : world) : world :=
  World (keyUsageCount w) (pageMemory w) (trace w ++ [Report d]).

(** [w] with one more timer awaited. *)
Definition slept (ms : N) (w : world) : world :=
  World (keyUsageCount w) (pageMemory w) (trace w ++ [Timeout ms]).

(** [w] after one acquisition and the model call made with the credential. *)
Definition called (rt : runtime) (p : prompt) (imageBase64 : jsstring)
    (w : world) : world :=
  let acquired := getNextApiKey (API_KEYS rt) (keyUsageCount w) in
  World acquired.2 (pageMemory w)
        (trace w ++ [Generate (Request acquired.1 p imageBase64)]).

(** [w] after one acquisition alone. *)
Definition acquired_only (rt : runtime) (w : world) : world :=
  World (getNextApiKey (API_KEYS rt) (keyUsageCount w)).2 (pageMemory w) (trace w).

(** [w] after the pause that follows page [i]. *)
Definition paused (images : list jsstring) (i : nat) (ms : N) (w : world) : world :=
  if (i <? length images - 1)%nat then slept ms w else w.

(** The request that the next attempt of [performExtraction] sends. *)
Definition single_pass_request (rt : runtime) (imageBase64 : jsstring)
    (pageNumber : N) (previousContext : jsstring) (w : world) : request :=
  Request (leastUsed (API_KEYS rt) (keyUsageCount w))
          (SinglePassPrompt pageNumber (memoryContext (pageMemory w)) previousContext)
          imageBase64.

(** The world right after a successful model call of [performExtraction]:
    one acquisition, one call, the page remembered. *)
Definition after_single_pass_call (rt : runtime) (imageBase64 : jsstring)
    (pageNumber : N) (previousContext text : jsstring) (w : world) : world :=
  let acquired := getNextApiKey (API_KEYS rt) (keyUsageCount w) in
  World acquired.2
        (map_set pageNumber (substring0 1000 text) (pageMemory w))
        (trace w ++ [Generate (Request acquired.1
                       (SinglePassPrompt pageNumber (memoryContext (pageMemory w))
                          previousContext)
                       imageBase64)]).

(** The request that the next attempt of [extractQuestionsWithContext]
    sends, given the lines of recent context. *)
Definition context_request (rt : runtime) (imageBase64 : jsstring)
    (pageNumber : N) (sharedDescriptions : gmap N json) (recent : jsstring)
    (w : world) : request :=
  Request (leastUsed (API_KEYS rt) (keyUsageCount w))
          (ContextPrompt pageNumber
             (shared_description_text rt (sharedDescriptions !! pageNumber)) recent)
          imageBase64.

(** Every call of the model fails, with an error that signals rate limiting. *)
Definition always_rate_limited (rt : runtime) : Prop :=
  ∀ n r, ∃ e, generateContent rt n r = inl e ∧ is_rate_limit e = true.

(** A computation that only reports: it returns, and leaves the counters
    and the page memory alone, adding to the trace nothing but diagnostics. *)
Definition only_reports {A} (c : Async A) (w : world) (a : A) : Prop :=
  ∃ ds, c w = (Return a,
               World (keyUsageCount w) (pageMemory w) (trace w ++ (Report <$> ds))).

End Steps.

(* ===================================================================== *)
(** ** Response decoder: what the specification asks for *)
(* ===================================================================== *)

Module DecoderSpec.
Import Json Decoder Runtime Gemini Steps.

(** The confidence score carried by a decoded record, if any. *)
Definition decoded_score (q : json) : option json :=
  match q with
  | JObj props => get_prop props (js "confidence_score")
  | _ => None
  end.

(** [q'] is the record [q] after stamping for page [pageNumber]: the page
    number is the page under analysis; a truthy decoded score is kept, and
    any other (absent, [null], [false], zero, empty string) gives 1. *)
Definition stamped (pageNumber : N) (q q' : json) : Prop :=
  ∃ props,
    q' = JObj props ∧
    get_prop props (js "page_number") = Some (number_of_N pageNumber) ∧
    (truthy (decoded_score q) = true →
       get_prop props (js "confidence_score") = decoded_score q) ∧
    (truthy (decoded_score q) = false →
       get_prop props (js "confidence_score") = Some one).

(** The decoder of the specification on a located candidate: strict parse;
    on failure one repair pass and a second parse; on a second failure the
    empty list. *)
Definition decode_with_one_repair (rt : runtime) (pageNumber : N)
    (text : jsstring) : list json :=
  match locate text with
  | None => []
  | Some candidate =>
      match parse_and_stamp rt pageNumber candidate with
      | inr questions => questions
      | inl _ =>
          match parse_and_stamp rt pageNumber (fixJson candidate) with
          | inr questions => questions
          | inl _ => []
          end
      end
  end.

(** The same without the repair stage. *)
Definition decode_without_repair (rt : runtime) (pageNumber : N)
    (text : jsstring) : list json :=
  match locate text with
  | None => []
  | Some candidate =>
      match parse_and_stamp rt pageNumber candidate with
      | inr questions => questions
      | inl _ => []
      end
  end.

End DecoderSpec.

(* ===================================================================== *)
(** ** Orchestrators: how a run decomposes into pages *)
(* ===================================================================== *)

Module OrchestratorSpec.
Import Pool Json Decoder Runtime Gemini Scanner Steps.

(** A run of the first pass of [enhancedQuestionExtraction] from page index
    [i]: a page whose analysis returned may add its shared description; a
    page whose analysis threw (or whose result could not be read) changes
    nothing but the log, and the run goes on to the next page. *)
Inductive first_pass_runs (rt : runtime) (images : list jsstring)
    (startPageNumber : N)
    : nat → list jsstring → gmap N json → world → gmap N json → world → Prop :=
  | first_pass_done i sharedDescriptions w :
      first_pass_runs rt images startPageNumber i [] sharedDescriptions w
        sharedDescriptions w
  | first_pass_page_returned i image later sharedDescriptions w pageAnalysis w1
        description final w' :
      analyzePageStructure rt image (startPageNumber + N.of_nat i)
        (previous_image images i) (next_image images i) w
        = (Return pageAnalysis, w1) →
      get_member (type_error rt) pageAnalysis (js "sharedDescription")
        = inr description →
      first_pass_runs rt images startPageNumber (S i) later
        (store_description (startPageNumber + N.of_nat i) description
           sharedDescriptions)
        (paused images i 5000 w1) final w' →
      first_pass_runs rt images startPageNumber i (image :: later)
        sharedDescriptions w final w'
  | first_pass_page_threw i image later sharedDescriptions w error w1 final w' :
      (analyzePageStructure rt image (startPageNumber + N.of_nat i)
         (previous_image images i) (next_image images i) w = (Throw error, w1) ∨
       ∃ pageAnalysis,
         analyzePageStructure rt image (startPageNumber + N.of_nat i)
           (previous_image images i) (next_image images i) w
           = (Return pageAnalysis, w1) ∧
         get_member (type_error rt) pageAnalysis (js "sharedDescription")
           = inl error) →
      first_pass_runs rt images startPageNumber (S i) later sharedDescriptions
        (reported (FirstPassError (startPageNumber + N.of_nat i) error) w1)
        final w' →
      first_pass_runs rt images startPageNumber i (image :: later)
        sharedDescriptions w final w'.

(** A run of the second pass of [enhancedQuestionExtraction] from page index
    [i]: for each page, what it contributed. A page whose extraction
    returned contributes the questions returned; a page whose extraction
    threw contributes nothing, and the run goes on to the next page. *)
Inductive second_pass_runs (rt : runtime) (images : list jsstring)
    (startPageNumber : N) (sharedDescriptions : gmap N json)
    : nat → list jsstring → list json → world → list (list json) → world → Prop :=
  | second_pass_done i allQuestions w :
      second_pass_runs rt images startPageNumber sharedDescriptions
        i [] allQuestions w [] w
  | second_pass_page_returned i image later allQuestions w questions w1
        contributions w' :
      extractQuestionsWithContext rt image (startPageNumber + N.of_nat i)
        sharedDescriptions (previous_image images i) (next_image images i)
        allQuestions w = (Return questions, w1) →
      second_pass_runs rt images startPageNumber sharedDescriptions
        (S i) later (allQuestions ++ questions) (paused images i 10000 w1)
        contributions w' →
      second_pass_runs rt images startPageNumber sharedDescriptions
        i (image :: later) allQuestions w (questions :: contributions) w'
  | second_pass_page_threw i image later allQuestions w error w1
        contributions w' :
      extractQuestionsWithContext rt image (startPageNumber + N.of_nat i)
        sharedDescriptions (previous_image images i) (next_image images i)
        allQuestions w = (Throw error, w1) →
      second_pass_runs rt images startPageNumber sharedDescriptions
        (S i) later allQuestions
        (reported (ExtractionError (startPageNumber + N.of_nat i) error) w1)
        contributions w' →
      second_pass_runs rt images startPageNumber sharedDescriptions
        i (image :: later) allQuestions w ([] :: contributions) w'.

(** [previousContext] after a page of the single-pass loop returned. *)
Definition context_after (rt : runtime) (questions : list json)
    (previousContext : jsstring) : jsstring :=
  if (0 <? length questions)%nat then
    match statements_joined rt questions with
    | inr context => context
    | inl _ => previousContext
    end
  else previousContext.

(** The notification that follows a page of the single-pass loop that
    returned. *)
Definition notice_after (rt : runtime) (pageNum : N) (questions : list json)
    : diagnostic :=
  if (0 <? length questions)%nat then
    match statements_joined rt questions with
    | inr _ => QuestionsFound (length questions) pageNum
    | inl pageError => PageFailed pageNum pageError
    end
  else NonQuestionPage pageNum.

(** A run of the page loop of [scanAndExtractQuestions] from page index [i],
    in the same terms. *)
Inductive scan_runs (rt : runtime) (images : list jsstring)
    : nat → list jsstring → list json → jsstring → world
      → list (list json) → world → Prop :=
  | scan_done i pdfQuestions previousContext w :
      scan_runs rt images i [] pdfQuestions previousContext w [] w
  | scan_page_returned i image later pdfQuestions previousContext w questions w1
        contributions w' :
      performExtraction rt image (N.of_nat i + 1) previousContext w
        = (Return questions, w1) →
      scan_runs rt images (S i) later (pdfQuestions ++ questions)
        (context_after rt questions previousContext)
        (paused images i 10000
           (reported (notice_after rt (N.of_nat i + 1) questions) w1))
        contributions w' →
      scan_runs rt images i (image :: later) pdfQuestions previousContext w
        (questions :: contributions) w'
  | scan_page_threw i image later pdfQuestions previousContext w pageError w1
        contributions w' :
      performExtraction rt image (N.of_nat i + 1) previousContext w
        = (Throw pageError, w1) →
      scan_runs rt images (S i) later pdfQuestions previousContext
        (paused images i 10000
           (reported (PageFailed (N.of_nat i + 1) pageError) w1))
        contributions w' →
      scan_runs rt images i (image :: later) pdfQuestions previousContext w
        ([] :: contributions) w'.

End OrchestratorSpec.

(* ===================================================================== *)
(** ** Save path: the validity test spelled out *)
(* ===================================================================== *)

Module SaveSpec.
Import Json Runtime Gemini Scanner.

(** A built row with a statement that is not blank, a recognised type and a
    course. *)
Definition well_formed (q : row) : Prop :=
  trim (row_question_statement q) ≠ [] ∧
  row_question_type q ∈ question_types ∧
  row_course_id q ≠ [].

(** The year of the row is a number between [lo] and [hi], both included. *)
Definition year_in (lo hi : Z) (q : row) : Prop :=
  ∃ y, row_year q = Some y ∧ (lo ≤ y ≤ hi)%Z.

(** The validity test of [savePdfQuestions], spelled out. *)
Definition acceptable (q : row) : Prop :=
  well_formed q ∧ year_in 2001 2029 q.

Definition nothing_to_save : js_error := new_Error (js "No valid questions to save").

(** What [savePdfQuestions] does once a non-empty batch went to storage. *)
Definition after_insert (reply : insert_reply) : completion (option (list row)) :=
  match reply_error reply with
  | Some error =>
      Throw (new_Error (js "Database error: "
                        ++ default (js "undefined") (message error)))
  | None => Return (reply_data reply)
  end.

End SaveSpec.

(* ===================================================================== *)
(** ** Concrete pools, models and inputs for the runs below *)
(* ===================================================================== *)

Module Scenarios.
Import Pool Json Decoder Runtime Gemini Scanner RefJson SaveSpec.

Definition key_a : jsstring := js "key-a".
Definition key_b : jsstring := js "key-b".
Definition key_c : jsstring := js "key-c".

(** A model that answers every call with the empty text. *)
Definition silent_model (n : nat) (r : request) : js_error + jsstring := inr [].

Definition three_keys : runtime :=
  runtime_of [key_a; key_b; key_c] silent_model accepting_store.

(** [s] between double quotes. *)
Definition quoted (s : string) : jsstring := [34] ++ js s ++ [34].

(** A model that always answers with the same text. *)
Definition answering (text : jsstring) (n : nat) (r : request) : js_error + jsstring :=
  inr text.

Definition one_key (text : jsstring) : runtime :=
  runtime_of [js "key-a"] (answering text) accepting_store.


(** A record that reports page 9 and no confidence. *)
Definition wrong_page : jsstring :=
  js "[{" ++ quoted "question_type" ++ js ":" ++ quoted "NAT" ++ js ","
  ++ quoted "page_number" ++ js ":9}]".

(** A record that reports a confidence of zero. *)
Definition zero_confidence : jsstring :=
  js "[{" ++ quoted "question_type" ++ js ":" ++ quoted "NAT" ++ js ","
  ++ quoted "confidence_score" ++ js ":0}]".

(** A statement with a LaTeX command whose backslash is not escaped. *)
Definition bad_escape : jsstring :=
  js "[{" ++ quoted "question_type" ++ js ":" ++ quoted "NAT" ++ js ","
  ++ quoted "question_statement" ++ js ":" ++ [34] ++ js "Find " ++ [92]
  ++ js "sqrt{2}" ++ [34] ++ js "}]".

Definition bad_escape_record : json :=
  JObj [(js "question_type", JStr (js "NAT"));
        (js "question_statement", JStr (js "Find " ++ [92] ++ js "sqrt{2}"));
        (js "page_number", number_of_N 1);
        (js "confidence_score", one)].

(** An answer with an object in a fenced block, and no bracket. *)
Definition fenced_interior : jsstring := js "{" ++ quoted "page" ++ js ": 3}".

Definition fenced_object : jsstring :=
  js "Result:" ++ [10] ++ fence_json ++ [10] ++ fenced_interior ++ [10] ++ fence
  ++ [10] ++ js "Done.".

Definition fetch_failed : js_error := new_Error (js "fetch failed").
Definition too_many_requests : js_error := new_Error (js "429 Too Many Requests").

(** The first call fails on the network; later calls answer an empty array. *)
Definition flaky_model (n : nat) (r : request) : js_error + jsstring :=
  match n with
  | O => inl fetch_failed
  | S _ => inr (js "[]")
  end.

(** A model whose every call fails with [e]. *)
Definition failing_model (e : js_error) (n : nat) (r : request) : js_error + jsstring :=
  inl e.

Definition two_keys (model : nat → request → js_error + jsstring) : runtime :=
  runtime_of [key_a; key_b] model accepting_store.

Definition one_question : jsstring :=
  js "[{" ++ quoted "question_type" ++ js ":" ++ quoted "NAT" ++ js ","
  ++ quoted "question_statement" ++ js ":" ++ quoted "Compute 2 + 2." ++ js "}]".

(** The model of the resilience scenario: extraction fails on page 2 and
    finds one question on every other page. *)
Definition page_two_fails (n : nat) (r : request) : js_error + jsstring :=
  match req_prompt r with
  | StructurePrompt => inr (js "{}")
  | ContextPrompt 2 _ _ | SinglePassPrompt 2 _ _ => inl fetch_failed
  | _ => inr one_question
  end.

(** The second call of a run, the structural analysis of page 2, fails. *)
Definition structure_fails_on_second_call (n : nat) (r : request)
    : js_error + jsstring :=
  match req_prompt r, n with
  | StructurePrompt, 1%nat => inl fetch_failed
  | StructurePrompt, _ => inr (js "{}")
  | _, _ => inr one_question
  end.

Definition question_on_page (pageNumber : N) : json :=
  JObj [(js "question_type", JStr (js "NAT"));
        (js "question_statement", JStr (js "Compute 2 + 2."));
        (js "page_number", number_of_N pageNumber);
        (js "confidence_score", one)].

Definition course : jsstring := js "course-1".

Definition plain_question (statement : string) (page : N) : ExtractedQuestion :=
  {| question_number := Some (js "1");
     question_type := js "MCQ";
     question_statement := js statement;
     options := Some [js "3"; js "4"];
     is_continuation := None;
     page_number := page;
     confidence_score := None;
     spans_multiple_pages := None;
     continuation_from_page := None;
     has_image := None;
     image_description := None;
     uploaded_image := None |}.

Definition store_only : runtime := runtime_of [js "key-a"] (λ _ _, inr []) accepting_store.

Definition plain_row (statement : string) (y : Z) : row :=
  Row (js "MCQ") (js statement) (Some [js "3"; js "4"]) course (Some y) false.

Definition two_page_state : ui :=
  UI (js "exam-1") course []
     [plain_question "What is 2 + 2?" 1; plain_question "What is 3 + 3?" 2] false.

End Scenarios.

(* ===================================================================== *)
(** ** [gemini.ts]: loading the pool, and the one-shot page analysis *)
(* ===================================================================== *)

Module Startup.
Import Json.

(** The predicate of [.filter(key => key && key.trim() !== '')], on an
    entry that is [undefined] when the environment variable is not set. *)
Definition usable_key (key : option jsstring) : bool :=
  match key with
  | Some k => negb (jseqb k []) && negb (jseqb (trim k) [])
  | None => false
  end.

(** [API_KEYS], from the array literal [candidates]: the environment
    variable first, then the literal keys. *)
Definition configured_keys (candidates : list (option jsstring)) : list jsstring :=
  omap (λ key, if usable_key key then key else None) candidates.

Definition no_keys_error : js_error :=
  new_Error (js "No valid Gemini API keys found. Please set VITE_GEMINI_API_KEY or provide valid API keys.").

(** Evaluation of the module top level: the pool, or the error thrown when
    it is empty. *)
Definition load_module (candidates : list (option jsstring))
    : js_error + list jsstring :=
  let API_KEYS := configured_keys candidates in
  if (length API_KEYS =? 0)%nat then inl no_keys_error else inr API_KEYS.

End Startup.

Module OneShot.
Import Pool Json Decoder Runtime.

(** One call of [generateContent] made by [analyzePageForQuestions]: the
    credential, the image, and what its prompt interpolates. *)
Record page_request := PageRequest {
  page_apiKey : jsstring;
  page_image : jsstring;
  page_previous : jsstring;
  page_pageNumber : N
}.

Inductive page_event :=
  | PageGenerate (r : page_request)
  | PageNoQuestions (pageNumber : N)
  | PageError (pageNumber : N) (error : js_error).

(** The counters and the effects of [analyzePageForQuestions], oldest first. *)
Record page_world := PageWorld {
  page_counts : gmap jsstring nat;
  page_trace : list page_event
}.

Definition page_calls (t : list page_event) : list page_request :=
  omap (λ ev, match ev with PageGenerate r => Some r | _ => None end) t.

(** [{ ...q, page_number: pageNumber }] *)
Definition stamp_page (pageNumber : N) (q : json) : json :=
  JObj (set_prop (js "page_number") (number_of_N pageNumber) (spread q)).

(** [`Failed to analyze page ${pageNumber}: ${error}`] *)
Definition failed_message (String_of_error : js_error → jsstring)
    (pageNumber : N) (error : js_error) : jsstring :=
  js "Failed to analyze page " ++ N_toString pageNumber ++ js ": "
  ++ String_of_error error.

Section WithRuntime.
Variable rt : runtime.
(** The model as this function calls it, and the conversion of a caught
    value to a string in the template literal. *)
Variable respond : nat → page_request → js_error + jsstring.
Variable String_of_error : js_error → jsstring.

(** [${previousContext ? `PREVIOUS PAGE CONTEXT: ${previousContext}` : ''}] *)
Definition previous_context_text (previousContext : option jsstring) : jsstring :=
  match previousContext with
  | Some c => if jseqb c [] then [] else js "PREVIOUS PAGE CONTEXT: " ++ c
  | None => []
  end.

(** Body of the [try] block: the result, or the value thrown. *)
Definition analyzePageForQuestions_try (imageBase64 : jsstring) (pageNumber : N)
    (previousContext : option jsstring) (w : page_world)
    : (js_error + list json) * page_world :=
  let (apiKey, counts) := getNextApiKey (API_KEYS rt) (page_counts w) in
  let request :=
    PageRequest apiKey imageBase64 (previous_context_text previousContext) pageNumber in
  let sent := page_trace w ++ [PageGenerate request] in
  match respond (length (page_calls (page_trace w))) request with
  | inl error => (inl error, PageWorld counts sent)
  | inr text =>
      match match_array text with
      | None => (inr [], PageWorld counts (sent ++ [PageNoQuestions pageNumber]))
      | Some jsonMatch =>
          match JSON_parse rt jsonMatch with
          | inl error => (inl error, PageWorld counts sent)
          | inr (JArr questions) =>
              (inr (stamp_page pageNumber <$> questions), PageWorld counts sent)
          | inr _ => (inl (type_error rt), PageWorld counts sent)
          end
      end
  end.

Definition analyzePageForQuestions (imageBase64 : jsstring) (pageNumber : N)
    (previousContext : option jsstring) (w : page_world)
    : completion (list json) * page_world :=
  match analyzePageForQuestions_try imageBase64 pageNumber previousContext w with
  | (inr questions, w') => (Return questions, w')
  | (inl error, w') =>
      (Throw (new_Error (failed_message String_of_error pageNumber error)),
       PageWorld (page_counts w') (page_trace w' ++ [PageError pageNumber error]))
  end.
End WithRuntime.

End OneShot.

(* ===================================================================== *)
(** ** [PDFScanner.tsx]: editing the uploads and the extracted questions *)
(* ===================================================================== *)

Module Editing.
Import Json Runtime Scanner.

(** [list.filter((_, i) => keep(i))], from index [i] on. *)
Fixpoint filter_index {A} (keep : nat → bool) (i : nat) (l : list A) : list A :=
  match l with
  | [] => []
  | x :: rest =>
      if keep i then x :: filter_index keep (S i) rest
      else filter_index keep (S i) rest
  end.

(** [prev.map((upload, i) => i === index ? {...upload, file: null, year: ''}
    : upload)] *)
Definition removePdf (index : nat) (pdfUploads : list PDFUpload) : list PDFUpload :=
  imap (λ i upload,
          if (i =? index)%nat
          then {| file := None; year := []; id := id upload |}
          else upload) pdfUploads.

(** [prev.map((upload, i) => i === index ? {...upload, year} : upload)] *)
Definition updateYear (index : nat) (newYear : jsstring)
    (pdfUploads : list PDFUpload) : list PDFUpload :=
  imap (λ i upload,
          if (i =? index)%nat
          then {| file := file upload; year := newYear; id := id upload |}
          else upload) pdfUploads.

(** The predicate of [getValidPdfs]: [upload.file && upload.year.trim() !== ''] *)
Definition valid_upload (upload : PDFUpload) : bool :=
  match file upload with
  | Some _ => negb (jseqb (trim (year upload)) [])
  | None => false
  end.

Definition getValidPdfs (pdfUploads : list PDFUpload) : list PDFUpload :=
  List.filter valid_upload pdfUploads.

(** [prev.filter((_, i) => i !== index)] *)
Definition deleteQuestion (index : nat) (extractedQuestions : list ExtractedQuestion)
    : list ExtractedQuestion :=
  filter_index (λ i, negb (i =? index)%nat) 0 extractedQuestions.

(** [{ ...q, uploaded_image: imageBase64 }] *)
Definition with_image (imageBase64 : jsstring) (q : ExtractedQuestion)
    : ExtractedQuestion :=
  {| question_number := question_number q;
     question_type := question_type q;
     question_statement := question_statement q;
     options := options q;
     is_continuation := is_continuation q;
     page_number := page_number q;
     confidence_score := confidence_score q;
     spans_multiple_pages := spans_multiple_pages q;
     continuation_from_page := continuation_from_page q;
     has_image := has_image q;
     image_description := image_description q;
     uploaded_image := Some imageBase64 |}.

(** [prev.map((q, i) => i === index ? { ...q, uploaded_image } : q)] *)
Definition updateQuestionImage (index : nat) (imageBase64 : jsstring)
    (extractedQuestions : list ExtractedQuestion) : list ExtractedQuestion :=
  imap (λ i q, if (i =? index)%nat then with_image imageBase64 q else q)
       extractedQuestions.

End Editing.

(* ===================================================================== *)
(** ** Further notions used to state properties of the code *)
(* ===================================================================== *)

Module MoreSpec.
Import Pool Json Decoder Runtime Gemini Scanner Steps SaveSpec.

(** The counts that [n] acquisitions leave on a pool of [M] distinct keys:
    [n / M] everywhere, and one more on the first [n mod M] keys. *)
Definition rotated (keys : list jsstring) (n : nat) (m : gmap jsstring nat) : Prop :=
  ∀ i k, keys !! i = Some k →
    usage m k = (n / length keys + (if (i <? n mod length keys)%nat then 1 else 0))%nat.

(** The keys that [k] acquisitions hand out after [n] earlier ones. *)
Definition next_keys (keys : list jsstring) (n k : nat) : list jsstring :=
  (λ j, nth_acquired keys (n + j)) <$> seq 0 k.

(** The keys of the calls that [w'] has made since [w]. *)
Definition keys_tried (w w' : world) : list jsstring :=
  req_apiKey <$> drop (length (calls (trace w))) (calls (trace w')).

(** From [w], whose counters are those of [n] acquisitions, to [w']: [k]
    more acquisitions, each followed by a model call with the key it
    handed out. *)
Definition advanced (keys : list jsstring) (n k : nat) (w w' : world) : Prop :=
  keyUsageCount w' = acquire_n keys (n + k) ∅ ∧
  ∃ requests, calls (trace w') = calls (trace w) ++ requests ∧
              req_apiKey <$> requests = next_keys keys n k.

(** The same with acquisitions that were followed by no call. *)
Definition advanced_silently (keys : list jsstring) (n k : nat) (w w' : world)
    : Prop :=
  keyUsageCount w' = acquire_n keys (n + k) ∅ ∧
  calls (trace w') = calls (trace w).

(** The delays awaited so far. *)
Definition delays (t : list event) : list N :=
  omap (λ ev, match ev with Timeout ms => Some ms | _ => None end) t.

(** [pageMemory.get(k)] *)
Fixpoint map_get (k : N) (m : list (N * jsstring)) : option jsstring :=
  match m with
  | [] => None
  | (k', v) :: rest => if k' =? k then Some v else map_get k rest
  end.

(** The record [q] carries page number [pageNumber]. *)
Definition on_page (pageNumber : N) (q : json) : Prop :=
  ∃ props, q = JObj props ∧
           get_prop props (js "page_number") = Some (number_of_N pageNumber).

(** [q.question_statement] is a string. *)
Definition has_statement (rt : runtime) (q : json) : Prop :=
  ∃ s, get_member (type_error rt) q (js "question_statement") = inr (Some (JStr s)).

(** The questions filed under [year] by [questionsByYear]. *)
Fixpoint batch_of (year : jsstring)
    (groups : list (jsstring * list ExtractedQuestion)) : list ExtractedQuestion :=
  match groups with
  | [] => []
  | (y, batch) :: rest => if jseqb y year then batch else batch_of year rest
  end.

(** A batch as storage receives it from the save path for [selectedCourse]:
    not empty, every row valid, for that course and not yet categorized. *)
Definition clean_batch (selectedCourse : jsstring) (rows : list row) : Prop :=
  rows ≠ [] ∧
  Forall (λ r, acceptable r ∧ row_course_id r = selectedCourse
               ∧ row_categorized r = false) rows.

(** [q'] has the fields of [q] that the save path reads. *)
Definition saved_alike (q q' : ExtractedQuestion) : Prop :=
  page_number q' = page_number q ∧
  question_type q' = question_type q ∧
  question_statement q' = question_statement q ∧
  options q' = options q.

(** The state with the saving flag lowered. *)
Definition idle (st : ui) : ui :=
  UI (selectedExam st) (selectedCourse st) (pdfUploads st) (extractedQuestions st)
     false.

(** The state that a successful save leaves. *)
Definition cleared : ui := UI [] [] empty_uploads [] false.

(** Whether [s] has an opening bracket with a closing bracket somewhere
    after it; [opened] tells that an opening bracket was passed already. *)
Fixpoint bracket_pair (opened : bool) (s : jsstring) : bool :=
  match s with
  | [] => false
  | x :: r =>
      if opened && (x =? 93) then true
      else bracket_pair (opened || (x =? 91)) r
  end.

(** The parser returns an array only for a text in which an opening
    bracket is followed by a closing one. *)
Definition arrays_need_brackets (rt : runtime) : Prop :=
  ∀ s items, JSON_parse rt s = inr (JArr items) → is_Some (match_array s).

(** What the first pass keeps of the [sharedDescription] member of a page
    analysis: the value, when it is truthy. *)
Definition kept_description (description : option json) : option json :=
  if truthy description then description else None.

(** A run of the first pass of [enhancedQuestionExtraction] from page index
    [i], with what each page left for the shared descriptions: the truthy
    description of an analysis that returned, nothing for an analysis that
    threw or whose result could not be read. *)
Inductive first_pass_keeps (rt : runtime) (images : list jsstring)
    (startPageNumber : N)
    : nat → list jsstring → world → list (option json) → world → Prop :=
  | first_pass_keeps_done i w :
      first_pass_keeps rt images startPageNumber i [] w [] w
  | first_pass_keeps_returned i image later w pageAnalysis w1 description
        kept w' :
      analyzePageStructure rt image (startPageNumber + N.of_nat i)
        (previous_image images i) (next_image images i) w
        = (Return pageAnalysis, w1) →
      get_member (type_error rt) pageAnalysis (js "sharedDescription")
        = inr description →
      first_pass_keeps rt images startPageNumber (S i) later
        (paused images i 5000 w1) kept w' →
      first_pass_keeps rt images startPageNumber i (image :: later) w
        (kept_description description :: kept) w'
  | first_pass_keeps_failed i image later w error w1 kept w' :
      (analyzePageStructure rt image (startPageNumber + N.of_nat i)
         (previous_image images i) (next_image images i) w = (Throw error, w1) ∨
       ∃ pageAnalysis,
         analyzePageStructure rt image (startPageNumber + N.of_nat i)
           (previous_image images i) (next_image images i) w
           = (Return pageAnalysis, w1) ∧
         get_member (type_error rt) pageAnalysis (js "sharedDescription")
           = inl error) →
      first_pass_keeps rt images startPageNumber (S i) later
        (reported (FirstPassError (startPageNumber + N.of_nat i) error) w1)
        kept w' →
      first_pass_keeps rt images startPageNumber i (image :: later) w
        (None :: kept) w'.

(** What one attempt may add to a world: at most one call, no delay. *)
Definition one_attempt (w w1 : world) : Prop :=
  (length (calls (trace w1)) ≤ S (length (calls (trace w))))%nat ∧
  delays (trace w1) = delays (trace w).

(** What a whole call may add: at most [k] calls and [k - 1] delays. *)
Definition within (k : nat) (w w' : world) : Prop :=
  (length (calls (trace w')) ≤ length (calls (trace w)) + k)%nat ∧
  (length (delays (trace w')) ≤ length (delays (trace w)) + (k - 1))%nat.

End MoreSpec.

(* ===================================================================== *)
(** ** More concrete inputs for the runs below *)
(* ===================================================================== *)

Module MoreScenarios.
Import Pool Json Decoder Runtime Gemini Scanner RefJson Scenarios.

(** A record with a type and no statement. *)
Definition statementless : json := JObj [(js "question_type", JStr (js "NAT"))].

End MoreScenarios.

(* ===================================================================== *)
(** ** Credential pool: lemmas *)
(* ===================================================================== *)

Module PoolFacts.
Import Pool.

Section Scan.
Variable m : gmap jsstring nat.

(** What the scan establishes about a prefix [seen] already visited: the
    running best has the recorded usage, is no more used than anything
    seen, and everything seen before its position is strictly more used. *)
Definition scan_inv (seen : list jsstring) (best : jsstring * nat) : Prop :=
  snd best = usage m (fst best) ∧
  (∀ k, k ∈ seen → (snd best ≤ usage m k)%nat) ∧
  ∃ i, seen !! i = Some (fst best) ∧
       ∀ j k, (j < i)%nat → seen !! j = Some k → (snd best < usage m k)%nat.

Lemma scan_step_inv seen best key :
  scan_inv seen best → scan_inv (seen ++ [key]) (scan_step m best key).
Proof.
  intros (Hu & Hmin & i & Hi & Hbefore). unfold scan_step.
  destruct (Nat.ltb_spec (usage m key) (snd best)) as [Hlt | Hge];
    unfold scan_inv; simpl.
  - split; [done|]. split.
    + intros k [Hk | Hk]%elem_of_app.
      * specialize (Hmin k Hk). lia.
      * apply list_elem_of_singleton in Hk. subst. lia.
    + exists (length seen). split.
      * rewrite lookup_app_r by lia. by rewrite Nat.sub_diag.
      * intros j k Hj Hjk. rewrite lookup_app_l in Hjk by lia.
        apply list_elem_of_lookup_2 in Hjk. specialize (Hmin k Hjk). lia.
  - split; [done|]. split.
    + intros k [Hk | Hk]%elem_of_app.
      * by apply Hmin.
      * apply list_elem_of_singleton in Hk. by subst.
    + exists i. split.
      * apply lookup_app_l_Some. exact Hi.
      * intros j k Hj Hjk. apply (Hbefore j k Hj).
        apply lookup_lt_Some in Hi.
        rewrite lookup_app_l in Hjk by lia. exact Hjk.
Qed.

Lemma scan_fold_inv rest : ∀ seen best,
  scan_inv seen best →
  scan_inv (seen ++ rest) (fold_left (scan_step m) rest best).
Proof.
  induction rest as [| key rest IH]; intros seen best Hinv; simpl.
  - by rewrite app_nil_r.
  - replace (seen ++ key :: rest) with ((seen ++ [key]) ++ rest)
      by (by rewrite <- app_assoc).
    apply IH. by apply scan_step_inv.
Qed.

(** The scan revisits [API_KEYS[0]], which never beats itself. *)
Lemma scan_first_inv k0 :
  scan_inv [k0] (scan_step m (k0, usage m k0) k0).
Proof.
  unfold scan_step. simpl. rewrite Nat.ltb_irrefl.
  split; [done|]. split.
  - intros k Hk. apply list_elem_of_singleton in Hk. by subst.
  - exists 0%nat. split; [done|]. intros; lia.
Qed.

Lemma leastUsed_inv keys :
  keys ≠ [] → scan_inv keys (leastUsed keys m, usage m (leastUsed keys m)).
Proof.
  destruct keys as [| k0 rest]; [done|]. intros _.
  unfold leastUsed. simpl hd. cbn [fold_left].
  pose proof (scan_fold_inv rest [k0] _ (scan_first_inv k0)) as H.
  simpl app in H.
  destruct (fold_left _ rest _) as [b u] eqn:E.
  destruct H as (Hu & Hrest). simpl in *. subst u. split; [done|]. exact Hrest.
Qed.
End Scan.

(** Largest and smallest recorded usage are at most one apart. *)
Definition balanced (keys : list jsstring) (m : gmap jsstring nat) : Prop :=
  ∀ k1 k2, k1 ∈ keys → k2 ∈ keys → (usage m k1 ≤ usage m k2 + 1)%nat.

Lemma usage_insert m k v k' :
  usage (<[k := v]> m) k' = if decide (k = k') then v else usage m k'.
Proof.
  unfold usage. rewrite lookup_insert. by case_decide.
Qed.

Lemma usage_empty k : usage ∅ k = 0%nat.
Proof. unfold usage. by rewrite lookup_empty. Qed.

Lemma balanced_step keys m :
  keys ≠ [] → balanced keys m → balanced keys (snd (getNextApiKey keys m)).
Proof.
  intros Hne Hbal k1 k2 H1 H2. unfold getNextApiKey. simpl.
  destruct (leastUsed_inv m keys Hne) as (_ & Hmin & i & Hi & _).
  simpl in *. apply list_elem_of_lookup_2 in Hi.
  rewrite !usage_insert.
  pose proof (Hmin k1 H1). pose proof (Hmin k2 H2).
  pose proof (Hbal k1 k2 H1 H2).
  pose proof (Hbal k1 (leastUsed keys m) H1 Hi).
  repeat case_decide; lia.
Qed.

Lemma balanced_acquire_n keys n : ∀ m,
  keys ≠ [] → balanced keys m → balanced keys (acquire_n keys n m).
Proof.
  induction n as [| n IH]; intros m Hne Hbal; simpl; [done|].
  apply IH; [done|]. by apply balanced_step.
Qed.

End PoolFacts.

(* ===================================================================== *)
(** ** Credential pool: the claims *)
(* ===================================================================== *)

Module PoolClaims.
Import Pool PoolFacts Json Runtime RefJson Scenarios.

(** C6. One acquisition returns a credential of the pool whose recorded
    usage is minimal, the first such credential in the configured order,
    and changes the world in one place only: the returned credential's
    count goes up by one; every other count, the page memory and the trace
    of external effects stay as they were. *)
Theorem acquire_least_used_first (rt : runtime) (w : world) :
  API_KEYS rt ≠ [] →
  ∃ bestKey w',
    acquire rt w = (Return bestKey, w') ∧
    (∀ k, k ∈ API_KEYS rt →
       (usage (keyUsageCount w) bestKey ≤ usage (keyUsageCount w) k)%nat) ∧
    (∃ i, API_KEYS rt !! i = Some bestKey ∧
          ∀ j k, (j < i)%nat → API_KEYS rt !! j = Some k →
                 (usage (keyUsageCount w) bestKey < usage (keyUsageCount w) k)%nat) ∧
    usage (keyUsageCount w') bestKey = (usage (keyUsageCount w) bestKey + 1)%nat ∧
    (∀ k, k ≠ bestKey → keyUsageCount w' !! k = keyUsageCount w !! k) ∧
    pageMemory w' = pageMemory w ∧
    trace w' = trace w.
Proof.
  intros Hne.
  destruct (leastUsed_inv (keyUsageCount w) (API_KEYS rt) Hne)
    as (_ & Hmin & Hfirst). simpl in Hmin, Hfirst.
  eexists _, _. split; [reflexivity|]. simpl.
  split; [exact Hmin|]. split; [exact Hfirst|].
  split; [|split; [|done]].
  - rewrite usage_insert. by case_decide.
  - intros k Hk. by rewrite lookup_insert_ne.
Qed.

Lemma acquire_least_used_first_witness :
  ∃ bestKey w',
    acquire three_keys (World {[ key_a := 2%nat; key_c := 1%nat ]} [] [])
      = (Return bestKey, w') ∧ bestKey = key_b.
Proof.
  destruct (acquire_least_used_first three_keys
              (World {[ key_a := 2%nat; key_c := 1%nat ]} [] []))
    as (bestKey & w' & Hrun & _); [discriminate|].
  exists bestKey, w'. split; [exact Hrun|].
  vm_compute in Hrun. inversion Hrun. reflexivity.
Defined.

(** C7. From all-zero counts, after any number [n] of acquisitions no
    credential of the pool has been used more than once more than any
    other, and the acquisition made at that point hands out a credential
    that no credential of the pool undercuts in usage. *)
Theorem acquisitions_stay_balanced (API_KEYS : list jsstring) (n : nat) :
  API_KEYS ≠ [] →
  let counts := acquire_n API_KEYS n ∅ in
  (∀ k1 k2, k1 ∈ API_KEYS → k2 ∈ API_KEYS →
     (usage counts k1 ≤ usage counts k2 + 1)%nat) ∧
  nth_acquired API_KEYS n ∈ API_KEYS ∧
  (∀ k, k ∈ API_KEYS →
     (usage counts (nth_acquired API_KEYS n) ≤ usage counts k)%nat).
Proof.
  intros Hne counts. split.
  - apply balanced_acquire_n; [done|].
    intros k1 k2 _ _. rewrite !usage_empty. lia.
  - destruct (leastUsed_inv counts API_KEYS Hne) as (_ & Hmin & i & Hi & _).
    simpl in Hmin, Hi. split.
    + by apply list_elem_of_lookup_2 in Hi.
    + exact Hmin.
Qed.

Lemma acquisitions_stay_balanced_witness :
  let counts := acquire_n [key_a; key_b; key_c] 7 ∅ in
  (usage counts key_a ≤ usage counts key_c + 1)%nat ∧
  nth_acquired [key_a; key_b; key_c] 7 = key_b.
Proof.
  destruct (acquisitions_stay_balanced [key_a; key_b; key_c] 7) as (Hbal & _);
    [discriminate|].
  split.
  - apply Hbal; apply list_elem_of_In; simpl; auto.
  - vm_compute. reflexivity.
Defined.

End PoolClaims.


(* ===================================================================== *)
(** ** Response decoder: lemmas *)
(* ===================================================================== *)

Module DecoderFacts.
Import Json Decoder Runtime Gemini Steps DecoderSpec.

Lemma get_set_prop_eq k v props : get_prop (set_prop k v props) k = Some v.
Proof.
  induction props as [| [k' v'] rest IH]; simpl; unfold jseqb.
  - by rewrite bool_decide_true.
  - case_bool_decide as Hk; simpl; unfold jseqb.
    + by rewrite bool_decide_true.
    + by rewrite bool_decide_false.
Qed.

Lemma get_set_prop_ne k k' v props :
  k ≠ k' → get_prop (set_prop k v props) k' = get_prop props k'.
Proof.
  intros Hne. induction props as [| [k0 v0] rest IH]; simpl; unfold jseqb.
  - by rewrite bool_decide_false.
  - case_bool_decide as Hk; simpl; unfold jseqb.
    + subst k0. by rewrite !bool_decide_false.
    + case_bool_decide; [done | exact IH].
Qed.

Lemma from_first_app c pre r :
  c ∉ pre → from_first c (pre ++ c :: r) = Some (c :: r).
Proof.
  induction pre as [| x pre IH]; simpl; intros Hnot.
  - by rewrite N.eqb_refl.
  - apply not_elem_of_cons in Hnot as [Hx Hpre].
    destruct (N.eqb_spec x c); [congruence | by apply IH].
Qed.

Lemma from_first_Some c s s' :
  from_first c s = Some s' →
  ∃ pre r, s = pre ++ c :: r ∧ s' = c :: r ∧ c ∉ pre.
Proof.
  revert s'. induction s as [| x s IH]; simpl; intros s' H; [done|].
  destruct (N.eqb_spec x c) as [-> | Hne].
  - inversion H; subst. exists [], s. split; [done|]. split; [done|].
    apply not_elem_of_nil.
  - destruct (IH _ H) as (pre & r & -> & -> & Hpre).
    exists (x :: pre), r. split; [done|]. split; [done|].
    apply not_elem_of_cons. split; [congruence | done].
Qed.

Lemma through_last_None c s : c ∉ s → through_last c s = None.
Proof.
  induction s as [| x s IH]; simpl; intros Hnot; [done|].
  apply not_elem_of_cons in Hnot as [Hx Hs]. rewrite (IH Hs).
  destruct (N.eqb_spec x c); [congruence | done].
Qed.

Lemma through_last_app c mid post :
  c ∉ post → through_last c (mid ++ c :: post) = Some (mid ++ [c]).
Proof.
  intros Hpost. induction mid as [| x mid IH]; simpl.
  - rewrite (through_last_None _ _ Hpost). by rewrite N.eqb_refl.
  - by rewrite IH.
Qed.

Lemma through_last_Some c s p :
  through_last c s = Some p →
  ∃ mid post, s = mid ++ c :: post ∧ p = mid ++ [c] ∧ c ∉ post.
Proof.
  revert p. induction s as [| x s IH]; simpl; intros p H; [done|].
  destruct (through_last c s) as [p' |] eqn:E.
  - inversion H; subst. destruct (IH _ eq_refl) as (mid & post & -> & -> & Hpost).
    by exists (x :: mid), post.
  - destruct (N.eqb_spec x c) as [-> | Hne]; [|done].
    inversion H; subst. exists [], s. split; [done|]. split; [done|].
    intros Hin. revert E.
    clear -Hin. induction s as [| y s IH]; [by apply elem_of_nil in Hin|].
    simpl. destruct (through_last c s) eqn:E'; [done|].
    destruct (N.eqb_spec y c); [done|].
    apply elem_of_cons in Hin as [-> | Hin]; [done | by apply IH].
Qed.

(** The bracket pattern finds exactly the span that runs from the first
    opening character to the last closing character after it. *)
Lemma match_span_iff o c text span :
  match_span o c text = Some span ↔
  (∃ pre mid post,
     text = pre ++ span ++ post ∧ span = o :: (mid ++ [c]) ∧ (o ∉ pre) ∧ (c ∉ post)).
Proof.
  unfold match_span. split.
  - destruct (from_first o text) as [s' |] eqn:E; [|done].
    destruct (from_first_Some _ _ _ E) as (pre & r & -> & -> & Hpre).
    intros H. destruct (through_last c r) as [p |] eqn:E'; [|done].
    simpl in H. inversion H; subst.
    destruct (through_last_Some _ _ _ E') as (mid & post & -> & -> & Hpost).
    exists pre, mid, post. split; [|done].
    simpl. by rewrite <- !app_assoc.
  - intros (pre & mid & post & -> & -> & Hpre & Hpost).
    simpl. rewrite (from_first_app _ _ _ Hpre).
    rewrite <- app_assoc. simpl.
    by rewrite (through_last_app _ _ _ Hpost).
Qed.

Lemma starts_with_app p s : starts_with p s = true → s = p ++ drop (length p) s.
Proof.
  revert s. induction p as [| a p IH]; intros [| b s]; simpl; try done.
  intros [Hab Hrest]%andb_true_iff. apply N.eqb_eq in Hab. subst.
  f_equal. by apply IH.
Qed.

Lemma skip_space_app s :
  ∃ ws, s = ws ++ skip_space s ∧ Forall (λ c, is_js_space c = true) ws.
Proof.
  induction s as [| c s (ws & IH & Hws)]; simpl.
  - by exists [].
  - destruct (is_js_space c) eqn:E.
    + exists (c :: ws). split; [simpl; by f_equal | by constructor].
    + by exists [].
Qed.

Lemma lazy_capture_eq s :
  lazy_capture s =
  if starts_with fence (skip_space s) then Some []
  else match s with
       | [] => None
       | x :: r => cons x <$> lazy_capture r
       end.
Proof. by destruct s. Qed.

Lemma match_code_block_eq text :
  match_code_block text =
  match (if starts_with fence_json text
         then lazy_capture (skip_space (drop (length fence_json) text))
         else None) with
  | Some interior => Some interior
  | None => match text with
            | [] => None
            | _ :: r => match_code_block r
            end
  end.
Proof. by destruct text. Qed.

Lemma lazy_capture_Some s interior :
  lazy_capture s = Some interior →
  ∃ ws post, s = interior ++ ws ++ fence ++ post ∧
             Forall (λ c, is_js_space c = true) ws.
Proof.
  revert interior. induction s as [| x s IH]; intros interior;
    rewrite lazy_capture_eq.
  - done.
  - destruct (starts_with fence (skip_space (x :: s))) eqn:E.
    + intros H. inversion H; subst.
      destruct (skip_space_app (x :: s)) as (ws & Hs & Hws).
      exists ws, (drop (length fence) (skip_space (x :: s))).
      split; [|done]. rewrite app_nil_l. rewrite Hs at 1. f_equal.
      by apply starts_with_app.
    + destruct (lazy_capture s) as [i' |] eqn:E'; [|done].
      intros H. inversion H; subst.
      destruct (IH _ eq_refl) as (ws & post & Hs & Hws).
      exists ws, post. split; [|done].
      rewrite <- app_comm_cons. by f_equal.
Qed.

(** What the fence pattern captures lies between a fence labelled [json]
    and a closing fence, with the surrounding space left out. *)
Lemma match_code_block_Some text interior :
  match_code_block text = Some interior →
  ∃ pre ws1 ws2 post,
    text = pre ++ fence_json ++ ws1 ++ interior ++ ws2 ++ fence ++ post ∧
    Forall (λ c, is_js_space c = true) ws1 ∧
    Forall (λ c, is_js_space c = true) ws2.
Proof.
  assert (Hhere : ∀ t, starts_with fence_json t = true →
            lazy_capture (skip_space (drop (length fence_json) t)) = Some interior →
            ∃ pre ws1 ws2 post,
              t = pre ++ fence_json ++ ws1 ++ interior ++ ws2 ++ fence ++ post ∧
              Forall (λ c, is_js_space c = true) ws1 ∧
              Forall (λ c, is_js_space c = true) ws2).
  { intros t Hst Hcap.
    destruct (skip_space_app (drop (length fence_json) t)) as (ws1 & Hd & Hws1).
    destruct (lazy_capture_Some _ _ Hcap) as (ws2 & post & Hs & Hws2).
    exists [], ws1, ws2, post. split; [|done]. rewrite app_nil_l.
    rewrite (starts_with_app _ _ Hst) at 1. f_equal.
    rewrite Hd at 1. f_equal. exact Hs. }
  induction text as [| x text IH]; rewrite match_code_block_eq.
  - destruct (starts_with fence_json []) eqn:E; [|done].
    destruct (lazy_capture _) eqn:E'; [|done].
    intros H. inversion H; subst. by apply Hhere.
  - destruct (starts_with fence_json (x :: text)) eqn:E.
    + destruct (lazy_capture _) as [i |] eqn:E'.
      * intros H. inversion H; subst. by apply Hhere.
      * intros H. destruct (IH H) as (pre & ws1 & ws2 & post & -> & Hw).
        by exists (x :: pre), ws1, ws2, post.
    + intros H. destruct (IH H) as (pre & ws1 & ws2 & post & -> & Hw).
      by exists (x :: pre), ws1, ws2, post.
Qed.

Lemma starts_with_prefix p s : starts_with p (p ++ s) = true.
Proof. induction p as [| a p IH]; [done|]. simpl. by rewrite N.eqb_refl. Qed.

Lemma skip_space_before_fence mid post :
  skip_space (mid ++ fence ++ post) = skip_space mid ++ fence ++ post.
Proof.
  induction mid as [| x mid IH]; [reflexivity|].
  cbn [app skip_space]. destruct (is_js_space x); [exact IH | done].
Qed.

Lemma lazy_capture_is_Some mid post : is_Some (lazy_capture (mid ++ fence ++ post)).
Proof.
  induction mid as [| x mid IH]; rewrite lazy_capture_eq.
  - rewrite app_nil_l.
    change (skip_space (fence ++ post)) with (fence ++ post).
    rewrite starts_with_prefix. by eexists.
  - destruct (starts_with fence (skip_space ((x :: mid) ++ fence ++ post)));
      [by eexists|].
    cbn [app]. destruct IH as [i ->]. by eexists.
Qed.

Lemma match_code_block_is_Some pre mid post :
  is_Some (match_code_block (pre ++ fence_json ++ mid ++ fence ++ post)).
Proof.
  induction pre as [| x pre IH]; rewrite match_code_block_eq.
  - rewrite app_nil_l, starts_with_prefix, drop_app_length.
    rewrite skip_space_before_fence.
    destruct (lazy_capture_is_Some (skip_space mid) post) as [i ->]. by eexists.
  - match goal with
    | |- is_Some (match ?here with _ => _ end) => destruct here as [i |]
    end; [by eexists | exact IH].
Qed.












End DecoderFacts.

(* ===================================================================== *)
(** ** Response decoder: the claims *)
(* ===================================================================== *)

Module DecoderClaims.
Import Pool Json Decoder Runtime Gemini Steps DecoderSpec DecoderFacts RefJson Scenarios.

Lemma stamp_spec te pageNumber q :
  match stamp te pageNumber q with
  | inr q' => stamped pageNumber q q'
  | inl e => q = JNull ∧ e = te
  end.
Proof.
  unfold stamp.
  assert (Hne : js "confidence_score" ≠ js "page_number") by (by vm_compute).
  assert (Hgen : ∀ score, get_member te q (js "confidence_score") = inr score →
            score = decoded_score q) by (destruct q; simpl; congruence).
  destruct (get_member te q (js "confidence_score")) as [e | score] eqn:E.
  - destruct q; simpl in E; try discriminate. split; [done | congruence].
  - specialize (Hgen _ eq_refl). subst score. eexists. split; [reflexivity|].
    split; [|split].
    + rewrite get_set_prop_ne by exact Hne. apply get_set_prop_eq.
    + intros Ht. rewrite get_set_prop_eq, Ht.
      destruct (decoded_score q); [done | discriminate Ht].
    + intros Ht. by rewrite get_set_prop_eq, Ht.
Qed.

Lemma map_throwing_Forall2 {A B} (f : A → js_error + B) items out :
  map_throwing f items = inr out → Forall2 (λ q q', f q = inr q') items out.
Proof.
  revert out. induction items as [| q items IH]; simpl; intros out H.
  - inversion H. constructor.
  - destruct (f q) as [e | q'] eqn:E; [done|].
    destruct (map_throwing f items) as [e | rest]; [done|].
    inversion H; subst. constructor; [done | by apply IH].
Qed.

Ltac reports_done :=
  unfold bind, report, emit, ret; cbn [fmap list_fmap trace keyUsageCount pageMemory];
  rewrite ?app_nil_r, <- ?app_assoc; reflexivity.

Lemma performExtraction_decode_reports rt pageNumber text w :
  only_reports (performExtraction_decode rt pageNumber text) w
    (decode_without_repair rt pageNumber text).
Proof.
  destruct w as [counts memory events].
  unfold only_reports, performExtraction_decode, decode_without_repair.
  destruct (locate text) as [candidate |].
  - destruct (parse_and_stamp rt pageNumber candidate) as [e | questions].
    + eexists [_]. reports_done.
    + exists []. reports_done.
  - eexists [_]. reports_done.
Qed.

Lemma extractQuestionsWithContext_decode_reports rt pageNumber text w :
  only_reports (extractQuestionsWithContext_decode rt pageNumber text) w
    (decode_with_one_repair rt pageNumber text).
Proof.
  destruct w as [counts memory events].
  unfold only_reports, extractQuestionsWithContext_decode, decode_with_one_repair.
  destruct (locate text) as [candidate |].
  - destruct (parse_and_stamp rt pageNumber candidate) as [e | questions].
    + destruct (parse_and_stamp rt pageNumber (fixJson candidate)) as [e2 | questions].
      * eexists [_; _]. reports_done.
      * eexists [_]. reports_done.
    + exists []. reports_done.
  - eexists [_]. reports_done.
Qed.

(** Once the model has answered, [performExtraction] is its decoder run on
    the answer. *)
Lemma performExtraction_on_answer rt imageBase64 pageNumber previousContext text w :
  API_KEYS rt ≠ [] →
  generateContent rt (length (calls (trace w)))
    (single_pass_request rt imageBase64 pageNumber previousContext w) = inr text →
  performExtraction rt imageBase64 pageNumber previousContext w =
  performExtraction_decode rt pageNumber text
    (after_single_pass_call rt imageBase64 pageNumber previousContext text w).
Proof.
  intros Hne Hgen. unfold performExtraction.
  destruct (API_KEYS rt) as [| k0 keys] eqn:Hkeys; [done|].
  cbn [length performExtraction_loop].
  unfold try_catch, performExtraction_attempt, bind at 1.
  unfold acquire at 1. rewrite Hkeys.
  unfold single_pass_request in Hgen. rewrite Hkeys in Hgen.
  unfold getNextApiKey at 1. cbn beta iota zeta.
  unfold bind at 1, recall at 1. cbn beta iota zeta.
  unfold bind at 1, generate at 1. cbn [trace keyUsageCount pageMemory].
  rewrite Hgen. cbn beta iota zeta.
  unfold bind at 1, remember at 1. cbn [trace keyUsageCount pageMemory].
  unfold after_single_pass_call, getNextApiKey. rewrite Hkeys. cbn [fst snd].
  match goal with
  | |- context [performExtraction_decode ?r ?p ?t ?w0] =>
      destruct (performExtraction_decode_reports r p t w0) as (ds & ->)
  end.
  reflexivity.
Qed.



(** Once the model has answered, [extractQuestionsWithContext] returns what
    its decoder makes of the answer. *)
Lemma extractQuestionsWithContext_on_answer rt imageBase64 pageNumber
    sharedDescriptions previousImage nextImage previousQuestions recent text w :
  API_KEYS rt ≠ [] →
  recentContext rt previousQuestions = inr recent →
  generateContent rt (length (calls (trace w)))
    (context_request rt imageBase64 pageNumber sharedDescriptions recent w) = inr text →
  (extractQuestionsWithContext rt imageBase64 pageNumber sharedDescriptions
     previousImage nextImage previousQuestions w).1 =
  Return (decode_with_one_repair rt pageNumber text).
Proof.
  intros Hne Hrecent Hgen. unfold extractQuestionsWithContext.
  destruct (API_KEYS rt) as [| k0 keys] eqn:Hkeys; [done|].
  cbn [length extractQuestionsWithContext_loop].
  unfold try_catch, extractQuestionsWithContext_attempt, bind at 1.
  unfold acquire at 1. rewrite Hkeys.
  unfold context_request in Hgen. rewrite Hkeys in Hgen.
  unfold getNextApiKey at 1. cbn beta iota zeta.
  rewrite Hrecent. unfold lift, bind at 1, ret at 1. cbn beta iota zeta.
  unfold bind at 1, generate at 1. cbn [trace keyUsageCount pageMemory].
  rewrite Hgen. cbn beta iota zeta.
  match goal with
  | |- context [extractQuestionsWithContext_decode ?r ?p ?t ?w0] =>
      destruct (extractQuestionsWithContext_decode_reports r p t w0) as (ds & ->)
  end.
  reflexivity.
Qed.

Lemma Forall2_stamped_exists pageNumber items questions :
  Forall2 (stamped pageNumber) items questions →
  Forall (λ q', ∃ q, stamped pageNumber q q') questions.
Proof. induction 1; constructor; eauto. Qed.

Lemma parse_and_stamp_inr rt pageNumber candidate questions :
  parse_and_stamp rt pageNumber candidate = inr questions →
  ∃ items, JSON_parse rt candidate = inr (JArr items) ∧
           Forall2 (stamped pageNumber) items questions.
Proof.
  unfold parse_and_stamp, stamp_all.
  destruct (JSON_parse rt candidate) as [e | v]; [done|].
  destruct v; try done. intros H. exists items. split; [done|].
  apply map_throwing_Forall2 in H.
  eapply Forall2_impl; [exact H|]. intros q q' Hq. simpl in Hq.
  pose proof (stamp_spec (type_error rt) pageNumber q) as Hs.
  by rewrite Hq in Hs.
Qed.

(** C5, as the code has it. Every record that a successful parse returns is
    the decoded record stamped: its page number is the page under analysis,
    whatever the model wrote there; its confidence score is the decoded one
    when that is truthy, and 1 when it is absent or falsy (zero, [null],
    [false], the empty string). The lists returned by the two decoders
    consist of such records. *)
Theorem returned_records_are_stamped (rt : runtime) (pageNumber : N)
    (text : jsstring) :
  (∀ candidate questions,
     parse_and_stamp rt pageNumber candidate = inr questions →
     ∃ items, JSON_parse rt candidate = inr (JArr items) ∧
              Forall2 (stamped pageNumber) items questions) ∧
  Forall (λ q', ∃ q, stamped pageNumber q q')
    (decode_with_one_repair rt pageNumber text) ∧
  Forall (λ q', ∃ q, stamped pageNumber q q')
    (decode_without_repair rt pageNumber text).
Proof.
  split; [intros candidate questions; apply parse_and_stamp_inr|].
  unfold decode_with_one_repair, decode_without_repair.
  destruct (locate text) as [candidate |]; [|by split].
  destruct (parse_and_stamp rt pageNumber candidate) as [e | questions] eqn:E.
  - split; [|done].
    destruct (parse_and_stamp rt pageNumber (fixJson candidate))
      as [e2 | questions] eqn:E2; [done|].
    destruct (parse_and_stamp_inr _ _ _ _ E2) as (items & _ & H).
    by eapply Forall2_stamped_exists.
  - destruct (parse_and_stamp_inr _ _ _ _ E) as (items & _ & H).
    split; by eapply Forall2_stamped_exists.
Qed.

Lemma returned_records_are_stamped_witness :
  ∃ items,
    reference_parse wrong_page = inr (JArr items) ∧
    Forall2 (stamped 4) items
      [JObj [(js "question_type", JStr (js "NAT"));
             (js "page_number", number_of_N 4);
             (js "confidence_score", one)]].
Proof.
  destruct (returned_records_are_stamped (one_key wrong_page) 4 wrong_page)
    as (Hparse & _).
  apply (Hparse wrong_page). vm_compute. reflexivity.
Defined.

(** C5 as stated fails: the decoded record has a confidence score, zero, and
    the returned record carries 1 in its place. *)
Lemma zero_confidence_is_replaced :
  let decoded := JObj [(js "question_type", JStr (js "NAT"));
                       (js "confidence_score", JNum 0 0)] in
  let returned := JObj [(js "question_type", JStr (js "NAT"));
                        (js "confidence_score", one);
                        (js "page_number", number_of_N 4)] in
  reference_parse zero_confidence = inr (JArr [decoded]) ∧
  (performExtraction (one_key zero_confidence) (js "img") 4 [] empty_world).1
    = Return [returned] ∧
  decoded_score decoded = Some (JNum 0 0) ∧
  decoded_score returned = Some one ∧
  decoded_score returned ≠ decoded_score decoded.
Proof. vm_compute. repeat split; discriminate. Qed.

(** C3, as the code has it. Neither decoder ever throws: each returns, adding
    only diagnostics to the trace. On a located candidate whose strict parse
    fails, the decoder of [extractQuestionsWithContext] applies the repair
    once and parses again, returning the empty list when that fails too;
    the decoder of [performExtraction] returns the empty list at once. The
    same holds for the two functions on every answer of the model. *)
Theorem decode_failure_is_never_thrown (rt : runtime) (pageNumber : N)
    (text : jsstring) (w : world) :
  only_reports (extractQuestionsWithContext_decode rt pageNumber text) w
    (decode_with_one_repair rt pageNumber text) ∧
  only_reports (performExtraction_decode rt pageNumber text) w
    (decode_without_repair rt pageNumber text) ∧
  (∀ candidate e,
     locate text = Some candidate →
     parse_and_stamp rt pageNumber candidate = inl e →
     decode_with_one_repair rt pageNumber text =
       match parse_and_stamp rt pageNumber (fixJson candidate) with
       | inr questions => questions
       | inl _ => []
       end ∧
     decode_without_repair rt pageNumber text = []) ∧
  (∀ imageBase64 previousContext,
     API_KEYS rt ≠ [] →
     generateContent rt (length (calls (trace w)))
       (single_pass_request rt imageBase64 pageNumber previousContext w) = inr text →
     (performExtraction rt imageBase64 pageNumber previousContext w).1 =
     Return (decode_without_repair rt pageNumber text)) ∧
  (∀ imageBase64 sharedDescriptions previousImage nextImage previousQuestions recent,
     API_KEYS rt ≠ [] →
     recentContext rt previousQuestions = inr recent →
     generateContent rt (length (calls (trace w)))
       (context_request rt imageBase64 pageNumber sharedDescriptions recent w)
       = inr text →
     (extractQuestionsWithContext rt imageBase64 pageNumber sharedDescriptions
        previousImage nextImage previousQuestions w).1 =
     Return (decode_with_one_repair rt pageNumber text)).
Proof.
  split; [apply extractQuestionsWithContext_decode_reports|].
  split; [apply performExtraction_decode_reports|].
  split.
  - intros candidate e Hloc Hparse.
    unfold decode_with_one_repair, decode_without_repair.
    by rewrite Hloc, Hparse.
  - split.
    + intros imageBase64 previousContext Hne Hgen.
      rewrite (performExtraction_on_answer _ _ _ _ _ _ Hne Hgen).
      match goal with
      | |- context [performExtraction_decode ?r ?p ?t ?w0] =>
          destruct (performExtraction_decode_reports r p t w0) as (ds & ->)
      end.
      reflexivity.
    + intros. by eapply extractQuestionsWithContext_on_answer.
Qed.

Lemma decode_failure_is_never_thrown_witness :
  decode_without_repair (one_key bad_escape) 1 bad_escape = [] ∧
  (performExtraction (one_key bad_escape) (js "img") 1 [] empty_world).1 = Return [] ∧
  (extractQuestionsWithContext (one_key bad_escape) (js "img") 1 ∅ None None []
     empty_world).1 = Return [bad_escape_record].
Proof.
  destruct (decode_failure_is_never_thrown (one_key bad_escape) 1 bad_escape
              empty_world) as (_ & _ & Hfail & Hsingle & Htwo).
  split; [|split].
  - eapply Hfail; vm_compute; reflexivity.
  - rewrite (Hsingle (js "img") []); [|discriminate|reflexivity].
    vm_compute. reflexivity.
  - rewrite (Htwo (js "img") ∅ None None [] []); [|discriminate|reflexivity|reflexivity].
    vm_compute. reflexivity.
Defined.

(** C3 as stated fails for the single-pass variant: the strict parse of the
    located candidate fails, the repaired candidate parses to one record,
    and [performExtraction] returns the empty list without trying it. *)
Lemma single_pass_has_no_repair :
  locate bad_escape = Some bad_escape ∧
  reference_parse bad_escape = inl syntax_error ∧
  parse_and_stamp (one_key bad_escape) 1 (fixJson bad_escape)
    = inr [bad_escape_record] ∧
  decode_with_one_repair (one_key bad_escape) 1 bad_escape = [bad_escape_record] ∧
  (performExtraction (one_key bad_escape) (js "img") 1 [] empty_world).1 = Return [].
Proof. vm_compute. repeat split. Qed.

End DecoderClaims.

(* ===================================================================== *)
(** ** Rate-limited calls: lemmas *)
(* ===================================================================== *)

Module ExecutorFacts.
Import Pool Json Decoder Runtime Gemini Steps DecoderSpec DecoderFacts DecoderClaims.

Lemma calls_app t1 t2 : calls (t1 ++ t2) = calls t1 ++ calls t2.
Proof. unfold calls. apply omap_app. Qed.

Lemma calls_generate t r : length (calls (t ++ [Generate r])) = S (length (calls t)).
Proof. rewrite calls_app, length_app. simpl. lia. Qed.

Lemma calls_report t d : calls (t ++ [Report d]) = calls t.
Proof. rewrite calls_app. simpl. by rewrite app_nil_r. Qed.

Lemma calls_timeout t ms : calls (t ++ [Timeout ms]) = calls t.
Proof. rewrite calls_app. simpl. by rewrite app_nil_r. Qed.

(** A failed attempt of [analyzePageStructure] has acquired one credential
    and made one call. *)
Lemma analyzePageStructure_attempt_throw rt imageBase64 w e w1 :
  analyzePageStructure_attempt rt imageBase64 w = (Throw e, w1) →
  w1 = called rt StructurePrompt imageBase64 w.
Proof.
  unfold analyzePageStructure_attempt, bind, acquire, generate, called, getNextApiKey.
  cbn [trace keyUsageCount pageMemory fst snd].
  destruct (generateContent rt _ _) as [e0 | text]; [by intros [= <- <-]|].
  destruct (match_object text) as [m |]; [|done].
  unfold lift. destruct (JSON_parse rt m); [by intros [= <- <-] | done].
Qed.

(** A failed attempt of [extractQuestionsWithContext] has acquired one
    credential; it has made one call, or none when building the recent
    context raised. *)
Lemma extractQuestionsWithContext_attempt_throw rt imageBase64 pageNumber
    sharedDescriptions previousQuestions w e w1 :
  extractQuestionsWithContext_attempt rt imageBase64 pageNumber
    sharedDescriptions previousQuestions w = (Throw e, w1) →
  (recentContext rt previousQuestions = inl e ∧ w1 = acquired_only rt w) ∨
  (∃ recent, recentContext rt previousQuestions = inr recent ∧
     w1 = called rt (ContextPrompt pageNumber
                       (shared_description_text rt (sharedDescriptions !! pageNumber))
                       recent) imageBase64 w).
Proof.
  unfold extractQuestionsWithContext_attempt, bind at 1, acquire at 1.
  unfold getNextApiKey. cbn beta iota zeta.
  destruct (recentContext rt previousQuestions) as [e0 | recent].
  - unfold lift, bind, throw. intros [= <- <-]. by left.
  - unfold lift, bind at 1, ret at 1. cbn beta iota zeta.
    unfold bind at 1, generate at 1. cbn [trace keyUsageCount pageMemory].
    destruct (generateContent rt _ _) as [e0 | text].
    + intros [= <- <-]. right. by exists recent.
    + match goal with
      | |- context [extractQuestionsWithContext_decode ?r ?p ?t ?w0] =>
          destruct (extractQuestionsWithContext_decode_reports r p t w0) as (ds & ->)
      end.
      done.
Qed.

(** A failed attempt of [performExtraction] has acquired one credential
    and made one call, and the page memory is as before. *)
Lemma performExtraction_attempt_throw rt imageBase64 pageNumber previousContext w e w1 :
  performExtraction_attempt rt imageBase64 pageNumber previousContext w = (Throw e, w1) →
  w1 = called rt (SinglePassPrompt pageNumber (memoryContext (pageMemory w))
                    previousContext) imageBase64 w ∧
  generateContent rt (length (calls (trace w)))
    (single_pass_request rt imageBase64 pageNumber previousContext w) = inl e.
Proof.
  unfold performExtraction_attempt, bind at 1, acquire at 1.
  unfold getNextApiKey. cbn beta iota zeta.
  unfold bind at 1, recall at 1. cbn beta iota zeta.
  unfold bind at 1, generate at 1. cbn [trace keyUsageCount pageMemory].
  unfold single_pass_request.
  destruct (generateContent rt _ _) as [e0 | text].
  - by intros [= <- <-].
  - unfold bind at 1, remember at 1. cbn [trace keyUsageCount pageMemory].
    match goal with
    | |- context [performExtraction_decode ?r ?p ?t ?w0] =>
        destruct (performExtraction_decode_reports r p t w0) as (ds & ->)
    end.
    done.
Qed.

(** One turn of the loop of [analyzePageStructure] after a failed attempt. *)
Lemma analyzePageStructure_loop_throw rt maxRetries remaining retryCount
    imageBase64 w e w1 :
  analyzePageStructure_attempt rt imageBase64 w = (Throw e, w1) →
  analyzePageStructure_loop rt maxRetries (S remaining) retryCount imageBase64 w =
  if is_rate_limit e then
    if (S retryCount <? maxRetries)%nat then
      analyzePageStructure_loop rt maxRetries remaining (S retryCount) imageBase64
        (slept 2000 (reported (RateLimitHit (S retryCount)) w1))
    else (Throw e, reported (RateLimitHit (S retryCount)) w1)
  else (Throw e, w1).
Proof.
  intros Hatt. cbn [analyzePageStructure_loop]. unfold try_catch. rewrite Hatt.
  destruct (is_rate_limit e); [|done].
  destruct (S retryCount <? maxRetries)%nat; reflexivity.
Qed.

Lemma extractQuestionsWithContext_loop_throw rt maxRetries remaining retryCount
    imageBase64 pageNumber sharedDescriptions previousQuestions w e w1 :
  extractQuestionsWithContext_attempt rt imageBase64 pageNumber
    sharedDescriptions previousQuestions w = (Throw e, w1) →
  extractQuestionsWithContext_loop rt maxRetries (S remaining) retryCount
    imageBase64 pageNumber sharedDescriptions previousQuestions w =
  if is_rate_limit e then
    if (S retryCount <? maxRetries)%nat then
      extractQuestionsWithContext_loop rt maxRetries remaining (S retryCount)
        imageBase64 pageNumber sharedDescriptions previousQuestions
        (slept 2000 (reported (RateLimitHit (S retryCount)) w1))
    else (Throw e, reported (RateLimitHit (S retryCount)) w1)
  else (Throw e, w1).
Proof.
  intros Hatt. cbn [extractQuestionsWithContext_loop]. unfold try_catch. rewrite Hatt.
  destruct (is_rate_limit e); [|done].
  destruct (S retryCount <? maxRetries)%nat; reflexivity.
Qed.

(** One turn of the loop of [performExtraction] after a failed attempt:
    whatever the error, the loop goes on while attempts remain. *)
Lemma performExtraction_loop_throw rt maxRetries remaining retryCount
    imageBase64 pageNumber previousContext w e w1 :
  performExtraction_attempt rt imageBase64 pageNumber previousContext w = (Throw e, w1) →
  performExtraction_loop rt maxRetries (S remaining) retryCount
    imageBase64 pageNumber previousContext w =
  let logged := reported (ApiKeyFailed (S retryCount) pageNumber e) w1 in
  let exhausted := new_Error (exhausted_message maxRetries pageNumber e) in
  if is_rate_limit e then
    if (S retryCount <? maxRetries)%nat then
      performExtraction_loop rt maxRetries remaining (S retryCount)
        imageBase64 pageNumber previousContext
        (slept 2000 (reported (RateLimitHit (S retryCount)) logged))
    else if (maxRetries <=? S retryCount)%nat then
      (Throw exhausted, reported (RateLimitHit (S retryCount)) logged)
    else
      performExtraction_loop rt maxRetries remaining (S retryCount)
        imageBase64 pageNumber previousContext
        (reported (RateLimitHit (S retryCount)) logged)
  else if (maxRetries <=? S retryCount)%nat then (Throw exhausted, logged)
  else
    performExtraction_loop rt maxRetries remaining (S retryCount)
      imageBase64 pageNumber previousContext logged.
Proof.
  intros Hatt. cbn [performExtraction_loop]. unfold try_catch. rewrite Hatt.
  cbn zeta.
  destruct (is_rate_limit e);
    destruct (S retryCount <? maxRetries)%nat;
    destruct (maxRetries <=? S retryCount)%nat; reflexivity.
Qed.

Lemma analyzePageStructure_attempt_rate_limited rt imageBase64 w :
  always_rate_limited rt →
  ∃ e, analyzePageStructure_attempt rt imageBase64 w
         = (Throw e, called rt StructurePrompt imageBase64 w) ∧
       is_rate_limit e = true ∧
       ∃ n r, generateContent rt n r = inl e.
Proof.
  intros Hall.
  destruct (Hall (length (calls (trace w)))
              (Request (leastUsed (API_KEYS rt) (keyUsageCount w))
                 StructurePrompt imageBase64)) as (e & Hgen & He).
  exists e. split; [|split; [done | by eauto]].
  unfold analyzePageStructure_attempt, bind, acquire, generate, called, getNextApiKey.
  cbn [trace keyUsageCount pageMemory fst snd]. by rewrite Hgen.
Qed.

Lemma performExtraction_attempt_rate_limited rt imageBase64 pageNumber
    previousContext w :
  always_rate_limited rt →
  ∃ e, performExtraction_attempt rt imageBase64 pageNumber previousContext w
         = (Throw e, called rt (SinglePassPrompt pageNumber
                                  (memoryContext (pageMemory w)) previousContext)
                       imageBase64 w) ∧
       is_rate_limit e = true ∧
       ∃ n r, generateContent rt n r = inl e.
Proof.
  intros Hall.
  destruct (Hall (length (calls (trace w)))
              (single_pass_request rt imageBase64 pageNumber previousContext w))
    as (e & Hgen & He).
  exists e. split; [|split; [done | by eauto]].
  unfold single_pass_request in Hgen.
  unfold performExtraction_attempt, bind, acquire, recall, generate, called,
    getNextApiKey.
  cbn [trace keyUsageCount pageMemory fst snd]. by rewrite Hgen.
Qed.

(** Under constant rate limiting the loop of [analyzePageStructure] uses
    every remaining attempt and then throws the error of the last call. *)
Lemma analyzePageStructure_loop_exhaustion rt imageBase64 :
  always_rate_limited rt →
  ∀ remaining retryCount w,
  ∃ e w',
    analyzePageStructure_loop rt (retryCount + S remaining) (S remaining)
      retryCount imageBase64 w = (Throw e, w') ∧
    length (calls (trace w')) = (length (calls (trace w)) + S remaining)%nat ∧
    is_rate_limit e = true ∧
    ∃ n r, generateContent rt n r = inl e.
Proof.
  intros Hall. induction remaining as [| remaining IH]; intros retryCount w;
    destruct (analyzePageStructure_attempt_rate_limited rt imageBase64 w Hall)
      as (e & Hatt & He & Horigin);
    rewrite (analyzePageStructure_loop_throw _ _ _ _ _ _ _ _ Hatt), He.
  - destruct (Nat.ltb_spec (S retryCount) (retryCount + 1)); [lia|].
    exists e. eexists. split; [reflexivity|]. split; [|done].
    unfold reported, called. cbn [trace]. rewrite calls_report, calls_generate. lia.
  - destruct (Nat.ltb_spec (S retryCount) (retryCount + S (S remaining))); [|lia].
    replace (retryCount + S (S remaining))%nat with (S retryCount + S remaining)%nat
      by lia.
    destruct (IH (S retryCount)
                (slept 2000 (reported (RateLimitHit (S retryCount))
                               (called rt StructurePrompt imageBase64 w))))
      as (e' & w' & Hrun & Hcalls & He' & Horigin').
    exists e', w'. split; [exact Hrun|]. split; [|done].
    rewrite Hcalls. unfold slept, reported, called. cbn [trace].
    rewrite calls_timeout, calls_report, calls_generate. lia.
Qed.

(** Under constant rate limiting the loop of [performExtraction] uses every
    remaining attempt and then throws the exhausted failure, built from the
    error of the last call. *)
Lemma performExtraction_loop_exhaustion rt imageBase64 pageNumber previousContext :
  always_rate_limited rt →
  ∀ remaining retryCount w,
  ∃ e w',
    performExtraction_loop rt (retryCount + S remaining) (S remaining)
      retryCount imageBase64 pageNumber previousContext w
      = (Throw (new_Error (exhausted_message (retryCount + S remaining)
                             pageNumber e)), w') ∧
    length (calls (trace w')) = (length (calls (trace w)) + S remaining)%nat ∧
    is_rate_limit e = true ∧
    ∃ n r, generateContent rt n r = inl e.
Proof.
  intros Hall. induction remaining as [| remaining IH]; intros retryCount w;
    destruct (performExtraction_attempt_rate_limited rt imageBase64 pageNumber
                previousContext w Hall) as (e & Hatt & He & Horigin);
    rewrite (performExtraction_loop_throw _ _ _ _ _ _ _ _ _ _ Hatt), He; cbn zeta.
  - destruct (Nat.ltb_spec (S retryCount) (retryCount + 1)); [lia|].
    destruct (Nat.leb_spec (retryCount + 1) (S retryCount)); [|lia].
    exists e. eexists. split; [reflexivity|]. split; [|done].
    unfold reported, called. cbn [trace].
    rewrite !calls_report, calls_generate. lia.
  - destruct (Nat.ltb_spec (S retryCount) (retryCount + S (S remaining))); [|lia].
    replace (retryCount + S (S remaining))%nat with (S retryCount + S remaining)%nat
      by lia.
    match goal with
    | |- context [performExtraction_loop _ _ _ _ _ _ _ ?w0] =>
        destruct (IH (S retryCount) w0) as (e' & w' & Hrun & Hcalls & He' & Horigin')
    end.
    exists e', w'. split; [exact Hrun|]. split; [|done].
    rewrite Hcalls. unfold slept, reported, called. cbn [trace].
    rewrite calls_timeout, !calls_report, calls_generate. lia.
Qed.

(** The exhausted failure of [performExtraction] is never the error it
    reports on: its message is strictly longer. *)
Lemma exhausted_error_is_distinct maxRetries pageNumber e :
  new_Error (exhausted_message maxRetries pageNumber e) ≠ e.
Proof.
  destruct e as [[m |]]; [|done]. intros H.
  assert (Hlen : length (exhausted_message maxRetries pageNumber (Error (Some m)))
                 = length m).
  { apply (f_equal (λ e, length (default [] (message e)))) in H. exact H. }
  unfold exhausted_message in Hlen. cbn [message default] in Hlen.
  rewrite !length_app in Hlen.
  unfold id in Hlen. pose proof (eq_refl : length (js "All ") = 4%nat). lia.
Qed.

(** For a pool of any size [M >= 1] and a model that always signals rate
    limiting: [analyzePageStructure] makes [M] calls and throws a rate-limit
    error that came from the model; [performExtraction] makes [M] calls and
    throws the exhausted failure. *)
Lemma exhaustion_by_call_site rt imageBase64 pageNumber previousImage nextImage
    previousContext w :
  always_rate_limited rt →
  API_KEYS rt ≠ [] →
  (∃ e w',
     analyzePageStructure rt imageBase64 pageNumber previousImage nextImage w
       = (Throw e, w') ∧
     length (calls (trace w')) = (length (calls (trace w)) + length (API_KEYS rt))%nat ∧
     is_rate_limit e = true ∧
     (∃ n r, generateContent rt n r = inl e) ∧
     e ≠ new_Error (js "All API keys exhausted for page structure analysis")) ∧
  (∃ e w',
     performExtraction rt imageBase64 pageNumber previousContext w
       = (Throw (new_Error (exhausted_message (length (API_KEYS rt)) pageNumber e)), w') ∧
     length (calls (trace w')) = (length (calls (trace w)) + length (API_KEYS rt))%nat ∧
     (∃ n r, generateContent rt n r = inl e) ∧
     new_Error (exhausted_message (length (API_KEYS rt)) pageNumber e) ≠ e).
Proof.
  intros Hall Hne. unfold analyzePageStructure, performExtraction.
  destruct (API_KEYS rt) as [| k0 keys]; [done|]. cbn [length]. split.
  - destruct (analyzePageStructure_loop_exhaustion rt imageBase64 Hall
                (length keys) 0%nat w) as (e & w' & Hrun & Hcalls & He & Horigin).
    exists e, w'. split; [exact Hrun|]. split; [exact Hcalls|].
    split; [exact He|]. split; [exact Horigin|].
    intros ->. vm_compute in He. discriminate.
  - destruct (performExtraction_loop_exhaustion rt imageBase64 pageNumber
                previousContext Hall (length keys) 0%nat w)
      as (e & w' & Hrun & Hcalls & He & Horigin).
    exists e, w'. split; [exact Hrun|]. split; [exact Hcalls|].
    split; [exact Horigin|]. apply exhausted_error_is_distinct.
Qed.

End ExecutorFacts.

(* ===================================================================== *)
(** ** Rate-limited calls: the claims *)
(* ===================================================================== *)

Module ExecutorClaims.
Import Pool Json Decoder Runtime Gemini Steps DecoderSpec DecoderFacts.
Import ExecutorFacts RefJson Scenarios.

(** C1, as the code has it. In the loops of [analyzePageStructure] and
    [extractQuestionsWithContext], an attempt that fails with an error that
    does not signal rate limiting ends the call at once: the error itself
    is thrown and the world is the one the failed attempt left (one
    acquisition, at most one model call, no delay). In the loop of
    [performExtraction] such a failure is logged and, while fewer than
    [maxRetries] attempts have been made, followed by another attempt; the
    failure of the last attempt throws the exhausted error. *)
Theorem other_errors_by_call_site (rt : runtime)
    (maxRetries remaining retryCount : nat) (imageBase64 : jsstring)
    (pageNumber : N) (sharedDescriptions : gmap N json)
    (previousQuestions : list json) (previousContext : jsstring)
    (w w1 : world) (e : js_error) :
  is_rate_limit e = false →
  (analyzePageStructure_attempt rt imageBase64 w = (Throw e, w1) →
     analyzePageStructure_loop rt maxRetries (S remaining) retryCount imageBase64 w
       = (Throw e, w1) ∧
     w1 = called rt StructurePrompt imageBase64 w) ∧
  (extractQuestionsWithContext_attempt rt imageBase64 pageNumber
     sharedDescriptions previousQuestions w = (Throw e, w1) →
     extractQuestionsWithContext_loop rt maxRetries (S remaining) retryCount
       imageBase64 pageNumber sharedDescriptions previousQuestions w
       = (Throw e, w1) ∧
     (w1 = acquired_only rt w ∨
      ∃ recent,
        w1 = called rt (ContextPrompt pageNumber
                          (shared_description_text rt (sharedDescriptions !! pageNumber))
                          recent) imageBase64 w)) ∧
  (performExtraction_attempt rt imageBase64 pageNumber previousContext w
     = (Throw e, w1) →
     let logged := reported (ApiKeyFailed (S retryCount) pageNumber e) w1 in
     w1 = called rt (SinglePassPrompt pageNumber (memoryContext (pageMemory w))
                       previousContext) imageBase64 w ∧
     ((S retryCount < maxRetries)%nat →
        performExtraction_loop rt maxRetries (S remaining) retryCount
          imageBase64 pageNumber previousContext w =
        performExtraction_loop rt maxRetries remaining (S retryCount)
          imageBase64 pageNumber previousContext logged) ∧
     ((maxRetries ≤ S retryCount)%nat →
        performExtraction_loop rt maxRetries (S remaining) retryCount
          imageBase64 pageNumber previousContext w =
        (Throw (new_Error (exhausted_message maxRetries pageNumber e)), logged))).
Proof.
  intros Hother. split; [|split].
  - intros Hatt. split.
    + rewrite (analyzePageStructure_loop_throw _ _ _ _ _ _ _ _ Hatt).
      by rewrite Hother.
    + by eapply analyzePageStructure_attempt_throw.
  - intros Hatt. split.
    + rewrite (extractQuestionsWithContext_loop_throw _ _ _ _ _ _ _ _ _ _ _ Hatt).
      by rewrite Hother.
    + destruct (extractQuestionsWithContext_attempt_throw _ _ _ _ _ _ _ _ Hatt)
        as [[_ ->] | (recent & _ & ->)]; [by left | right; by exists recent].
  - intros Hatt logged. split.
    + by destruct (performExtraction_attempt_throw _ _ _ _ _ _ _ Hatt).
    + pose proof (performExtraction_loop_throw rt maxRetries remaining retryCount
                    _ _ _ _ _ _ Hatt) as Hloop.
      rewrite Hother in Hloop. cbn zeta in Hloop. split; intros Hcount.
      * rewrite Hloop.
        destruct (Nat.leb_spec maxRetries (S retryCount)); [lia | done].
      * rewrite Hloop.
        destruct (Nat.leb_spec maxRetries (S retryCount)); [done | lia].
Qed.

Lemma other_errors_by_call_site_witness :
  analyzePageStructure_loop (two_keys (failing_model fetch_failed)) 2 2 0
    (js "img") empty_world
  = (Throw fetch_failed,
     called (two_keys (failing_model fetch_failed)) StructurePrompt (js "img")
       empty_world).
Proof.
  destruct (other_errors_by_call_site (two_keys (failing_model fetch_failed))
              2 1 0 (js "img") 1 ∅ [] [] empty_world
              (called (two_keys (failing_model fetch_failed)) StructurePrompt
                 (js "img") empty_world)
              fetch_failed) as (Hstructure & _).
  - vm_compute. reflexivity.
  - apply Hstructure. vm_compute. reflexivity.
Defined.

(** C1 as stated fails for [performExtraction]: with two credentials, a
    first attempt that fails on the network is followed by a second
    attempt with the other credential, and the call returns normally. *)
Lemma performExtraction_retries_other_errors :
  let rt := two_keys flaky_model in
  let run := performExtraction rt (js "img") 1 [] empty_world in
  is_rate_limit fetch_failed = false ∧
  (performExtraction_attempt rt (js "img") 1 [] empty_world).1 = Throw fetch_failed ∧
  run.1 = Return [] ∧
  length (calls (trace run.2)) = 2%nat ∧
  req_apiKey <$> calls (trace run.2) = [key_a; key_b] ∧
  usage (keyUsageCount run.2) key_a = 1%nat ∧
  usage (keyUsageCount run.2) key_b = 1%nat.
Proof. vm_compute. repeat split. Qed.

(** C2 on the code. With two credentials and a model that answers every
    call with the same rate-limit error, each call site makes two model
    calls. [analyzePageStructure] and [extractQuestionsWithContext] then
    throw that rate-limit error itself, not the exhausted failure that
    stands after their loops; [performExtraction] throws the exhausted
    failure, a different error. *)
Theorem rate_limit_error_is_rethrown :
  let rt := two_keys (failing_model too_many_requests) in
  let structure := analyzePageStructure rt (js "img") 1 None None empty_world in
  let context := extractQuestionsWithContext rt (js "img") 1 ∅ None None [] empty_world in
  let single := performExtraction rt (js "img") 1 [] empty_world in
  is_rate_limit too_many_requests = true ∧
  structure.1 = Throw too_many_requests ∧
  length (calls (trace structure.2)) = 2%nat ∧
  structure.1 ≠ Throw (new_Error (js "All API keys exhausted for page structure analysis")) ∧
  context.1 = Throw too_many_requests ∧
  length (calls (trace context.2)) = 2%nat ∧
  context.1 ≠ Throw (new_Error (js "All API keys exhausted for question extraction")) ∧
  single.1 = Throw (new_Error
               (js "All 2 API keys exhausted for page 1: 429 Too Many Requests")) ∧
  length (calls (trace single.2)) = 2%nat ∧
  single.1 ≠ Throw too_many_requests.
Proof. vm_compute. repeat split; discriminate. Qed.

End ExecutorClaims.

(* ===================================================================== *)
(** ** Orchestrators: lemmas and the claim *)
(* ===================================================================== *)

Module OrchestratorClaims.
Import Pool Json Decoder Runtime Gemini Scanner Steps OrchestratorSpec RefJson Scenarios.
Local Open Scope async_scope.

Lemma pause_unless_last_paused images i ms w :
  pause_unless_last images i ms w = (Return tt, paused images i ms w).
Proof.
  unfold pause_unless_last, paused, sleep, slept, emit, ret.
  by destruct (i <? length images - 1)%nat.
Qed.

Lemma first_pass_decomposes rt images startPageNumber todo :
  ∀ i sharedDescriptions w,
  ∃ final w',
    first_pass_runs rt images startPageNumber i todo sharedDescriptions w final w' ∧
    first_pass rt images startPageNumber i todo sharedDescriptions w
      = (Return final, w').
Proof.
  induction todo as [| image later IH]; intros i sharedDescriptions w.
  - exists sharedDescriptions, w. split; [constructor | done].
  - cbn [first_pass]. unfold bind at 1, try_catch, bind at 1.
    destruct (analyzePageStructure rt image (startPageNumber + N.of_nat i)
                (previous_image images i) (next_image images i) w)
      as [[pageAnalysis | error] w1] eqn:Hpage.
    + unfold bind at 1, lift.
      destruct (get_member (type_error rt) pageAnalysis (js "sharedDescription"))
        as [error | description] eqn:Hmember.
      * unfold throw at 1, bind at 1, report, emit, ret at 1.
        cbn [trace keyUsageCount pageMemory].
        destruct (IH (S i) sharedDescriptions
                    (reported (FirstPassError (startPageNumber + N.of_nat i) error) w1))
          as (final & w' & Hruns & Hrun).
        exists final, w'. split; [|exact Hrun].
        eapply first_pass_page_threw; [|exact Hruns]. right. by exists pageAnalysis.
      * unfold ret at 1, bind at 1. rewrite pause_unless_last_paused.
        unfold ret at 1.
        destruct (IH (S i)
                    (store_description (startPageNumber + N.of_nat i) description
                       sharedDescriptions)
                    (paused images i 5000 w1)) as (final & w' & Hruns & Hrun).
        exists final, w'. split; [|exact Hrun].
        by eapply first_pass_page_returned.
    + unfold bind at 1, report, emit, ret at 1.
      cbn [trace keyUsageCount pageMemory].
      destruct (IH (S i) sharedDescriptions
                  (reported (FirstPassError (startPageNumber + N.of_nat i) error) w1))
        as (final & w' & Hruns & Hrun).
      exists final, w'. split; [|exact Hrun].
      eapply first_pass_page_threw; [|exact Hruns]. by left.
Qed.

Lemma second_pass_decomposes rt images startPageNumber sharedDescriptions todo :
  ∀ i allQuestions w,
  ∃ contributions w',
    second_pass_runs rt images startPageNumber sharedDescriptions
      i todo allQuestions w contributions w' ∧
    length contributions = length todo ∧
    second_pass rt images startPageNumber i todo sharedDescriptions allQuestions w
      = (Return (allQuestions ++ concat contributions), w').
Proof.
  induction todo as [| image later IH]; intros i allQuestions w.
  - exists [], w. split; [constructor|]. split; [done|].
    simpl. by rewrite app_nil_r.
  - cbn [second_pass]. unfold bind at 1, try_catch, bind at 1.
    destruct (extractQuestionsWithContext rt image (startPageNumber + N.of_nat i)
                sharedDescriptions (previous_image images i) (next_image images i)
                allQuestions w) as [[questions | error] w1] eqn:Hpage.
    + unfold bind at 1. rewrite pause_unless_last_paused. unfold ret at 1.
      destruct (IH (S i) (allQuestions ++ questions) (paused images i 10000 w1))
        as (contributions & w' & Hruns & Hlen & Hrun).
      exists (questions :: contributions), w'.
      split; [by eapply second_pass_page_returned|].
      split; [simpl; by rewrite Hlen|].
      rewrite Hrun. simpl. by rewrite <- app_assoc.
    + unfold bind at 1, report, emit, ret at 1.
      cbn [trace keyUsageCount pageMemory].
      destruct (IH (S i) allQuestions
                  (reported (ExtractionError (startPageNumber + N.of_nat i) error) w1))
        as (contributions & w' & Hruns & Hlen & Hrun).
      exists ([] :: contributions), w'.
      split; [by eapply second_pass_page_threw|].
      split; [simpl; by rewrite Hlen|].
      exact Hrun.
Qed.

Lemma scan_pages_decomposes rt images todo :
  ∀ i pdfQuestions previousContext w,
  ∃ contributions w',
    scan_runs rt images i todo pdfQuestions previousContext w contributions w' ∧
    length contributions = length todo ∧
    scan_pages rt images i todo pdfQuestions previousContext w
      = (Return (pdfQuestions ++ concat contributions), w').
Proof.
  induction todo as [| image later IH]; intros i pdfQuestions previousContext w.
  - exists [], w. split; [constructor|]. split; [done|].
    simpl. by rewrite app_nil_r.
  - cbn [scan_pages]. unfold bind at 1, try_catch, bind at 1.
    destruct (performExtraction rt image (N.of_nat i + 1) previousContext w)
      as [[questions | pageError] w1] eqn:Hpage.
    + destruct (IH (S i) (pdfQuestions ++ questions)
                  (context_after rt questions previousContext)
                  (paused images i 10000
                     (reported (notice_after rt (N.of_nat i + 1) questions) w1)))
        as (contributions & w' & Hruns & Hlen & Hrun).
      exists (questions :: contributions), w'.
      split; [by eapply scan_page_returned|].
      split; [simpl; by rewrite Hlen|].
      unfold context_after, notice_after in Hrun.
      destruct (0 <? length questions)%nat eqn:Hsome.
      * destruct (statements_joined rt questions) as [e | context];
          unfold bind at 1, report, emit, ret at 1;
          cbn [trace keyUsageCount pageMemory];
          unfold bind at 1; rewrite pause_unless_last_paused;
          cbn [fst snd]; unfold reported in Hrun; rewrite Hrun;
          simpl; by rewrite <- app_assoc.
      * unfold bind at 1, report, emit, ret at 1.
        cbn [trace keyUsageCount pageMemory].
        unfold bind at 1. rewrite pause_unless_last_paused.
        cbn [fst snd]. unfold reported in Hrun.
        destruct questions; [|discriminate Hsome].
        rewrite app_nil_r in Hrun. rewrite Hrun. reflexivity.
    + unfold bind at 1, report, emit, ret at 1.
      cbn [trace keyUsageCount pageMemory].
      unfold bind at 1. rewrite pause_unless_last_paused. cbn [fst snd].
      destruct (IH (S i) pdfQuestions previousContext
                  (paused images i 10000
                     (reported (PageFailed (N.of_nat i + 1) pageError) w1)))
        as (contributions & w' & Hruns & Hlen & Hrun).
      exists ([] :: contributions), w'.
      split; [by eapply scan_page_threw|].
      split; [simpl; by rewrite Hlen|].
      exact Hrun.
Qed.

(** C9. A run never throws and visits every page. In the two-pass
    orchestrator the structural pass goes through all pages and returns;
    an error caught there for a page is reported and adds no shared
    description, and that page is still extracted: the extraction pass then
    goes through all pages as well. In the single-pass page loop likewise.
    In both, the result is the concatenation, in page order, of one
    contribution per page, where a page whose extraction threw contributes
    no question and every other page contributes exactly what its
    extraction returned. *)
Theorem page_failures_do_not_abort (rt : runtime) (images : list jsstring)
    (startPageNumber : N) (w : world) :
  (∃ sharedDescriptions w1 contributions w',
     first_pass_runs rt images startPageNumber 0 images ∅ w sharedDescriptions w1 ∧
     first_pass rt images startPageNumber 0 images ∅ w
       = (Return sharedDescriptions, w1) ∧
     second_pass_runs rt images startPageNumber sharedDescriptions
       0 images [] w1 contributions w' ∧
     second_pass rt images startPageNumber 0 images sharedDescriptions [] w1
       = (Return (concat contributions), w') ∧
     length contributions = length images ∧
     enhancedQuestionExtraction rt images startPageNumber w
       = (Return (concat contributions), w')) ∧
  (∃ contributions w',
     scan_runs rt images 0 images [] []
       (World (keyUsageCount w) [] (trace w)) contributions w' ∧
     length contributions = length images ∧
     scan_pdf rt images w = (Return (concat contributions), w')).
Proof.
  split.
  - destruct (first_pass_decomposes rt images startPageNumber images 0%nat ∅ w)
      as (sharedDescriptions & w1 & Hfirst_runs & Hfirst).
    destruct (second_pass_decomposes rt images startPageNumber sharedDescriptions
                images 0%nat [] w1) as (contributions & w' & Hruns & Hlen & Hrun).
    exists sharedDescriptions, w1, contributions, w'.
    split; [exact Hfirst_runs|]. split; [exact Hfirst|].
    split; [exact Hruns|]. split; [exact Hrun|]. split; [exact Hlen|].
    unfold enhancedQuestionExtraction, bind. by rewrite Hfirst, Hrun.
  - destruct (scan_pages_decomposes rt images images 0%nat [] []
                (World (keyUsageCount w) [] (trace w)))
      as (contributions & w' & Hruns & Hlen & Hrun).
    exists contributions, w'. split; [exact Hruns|]. split; [exact Hlen|].
    unfold scan_pdf, bind, fresh_memory. by rewrite Hrun.
Qed.

(** A failure in the structural pass does not empty the page: the
    structural analysis of the second page throws and is reported, and
    the second page is still extracted in the second pass, with its
    question in the result. *)
Example structural_failure_on_second_page :
  let rt := runtime_of [js "key-a"; js "key-b"] structure_fails_on_second_call
              accepting_store in
  let images := [js "page-1"; js "page-2"; js "page-3"] in
  (analyzePageStructure rt (js "page-2") 2 (Some (js "page-1")) (Some (js "page-3"))
     (paused images 0 5000
        (analyzePageStructure rt (js "page-1") 1 None (Some (js "page-2"))
           empty_world).2)).1
    = Throw fetch_failed ∧
  In (Report (FirstPassError 2 fetch_failed))
     (trace (enhancedQuestionExtraction rt images 1 empty_world).2) ∧
  (enhancedQuestionExtraction rt images 1 empty_world).1
    = Return [question_on_page 1; question_on_page 2; question_on_page 3].
Proof. vm_compute. split; [reflexivity|]. split; [|reflexivity]. tauto. Qed.

(** The scenario of the specification: three pages, the second fails, the
    run completes with the questions of pages 1 and 3. *)
Example three_pages_second_fails :
  let rt := runtime_of [js "key-a"; js "key-b"] page_two_fails accepting_store in
  let images := [js "page-1"; js "page-2"; js "page-3"] in
  (enhancedQuestionExtraction rt images 1 empty_world).1
    = Return [question_on_page 1; question_on_page 3] ∧
  (scan_pdf rt images empty_world).1
    = Return [question_on_page 1; question_on_page 3].
Proof. vm_compute. by split. Qed.

End OrchestratorClaims.

(* ===================================================================== *)
(** ** Save path: lemmas *)
(* ===================================================================== *)

Module SaveFacts.
Import Json Runtime Gemini Scanner SaveSpec.

Lemma trim_nil : trim [] = [].
Proof. reflexivity. Qed.

Lemma length_pos_iff {A} (l : list A) : (0 <? length l)%nat = true ↔ l ≠ [].
Proof.
  destruct l; simpl; split; done.
Qed.

Lemma valid_question_iff q : valid_question q = true ↔ acceptable q.
Proof.
  unfold valid_question, acceptable, well_formed, year_in, jseqb.
  rewrite !andb_true_iff, !negb_true_iff, !bool_decide_eq_false,
    bool_decide_eq_true, length_pos_iff.
  split.
  - intros (((((_ & Htrim) & _) & Htype) & Hcourse) & Hyear).
    split; [done|].
    destruct (row_year q) as [y |]; [|done].
    exists y. split; [done|].
    apply andb_true_iff in Hyear as [[_ Hlo]%andb_true_iff Hhi]. lia.
  - intros ((Htrim & Htype & Hcourse) & y & -> & Hy).
    repeat split; try done.
    + intros Hs. rewrite Hs in Htrim. by apply Htrim.
    + intros Ht. rewrite Ht in Htype.
      apply list_elem_of_In in Htype. vm_compute in Htype.
      intuition discriminate.
    + rewrite !andb_true_iff, negb_true_iff. repeat split; lia.
Qed.

Lemma filter_valid_elem_of (candidates : list row) q :
  q ∈ List.filter valid_question candidates ↔ q ∈ candidates ∧ acceptable q.
Proof.
  rewrite !list_elem_of_In, List.filter_In. by rewrite valid_question_iff.
Qed.

(** With no valid row, [savePdfQuestions] throws before it reaches storage. *)
Lemma savePdfQuestions_nothing_valid rt selectedCourse questions year w :
  List.filter valid_question (questionToInsert selectedCourse year <$> questions) = [] →
  savePdfQuestions rt selectedCourse questions year w = (Throw nothing_to_save, w).
Proof. intros H. unfold savePdfQuestions. by rewrite H. Qed.

(** With a valid row, the valid rows go to storage in one batch. *)
Lemma savePdfQuestions_some_valid rt selectedCourse questions year w :
  let valid :=
    List.filter valid_question (questionToInsert selectedCourse year <$> questions) in
  valid ≠ [] →
  savePdfQuestions rt selectedCourse questions year w =
  (after_insert (insert_select rt (length (inserts (trace w))) valid),
   World (keyUsageCount w) (pageMemory w) (trace w ++ [Insert valid])).
Proof.
  intros valid Hne. unfold savePdfQuestions. fold valid.
  destruct valid as [| v rest] eqn:E; [done|].
  cbn [length Nat.eqb]. unfold bind, insert, after_insert.
  by destruct (reply_error _).
Qed.

(** Decimal digits read back give the number that was printed. *)
Lemma read_digits_of_uint_acc d : ∀ acc,
  read_digits 10 (js (NilEmpty.string_of_uint d)) (Z.pos acc)
  = Z.pos (Pos.of_uint_acc d acc).
Proof.
  induction d; intros acc; cbn [NilEmpty.string_of_uint Pos.of_uint_acc];
    [reflexivity | ..];
    (etransitivity; [|apply IHd]); simpl; f_equal; lia.
Qed.

Lemma read_digits_of_uint d :
  read_digits 10 (js (NilEmpty.string_of_uint d)) 0 = Z.of_N (Pos.of_uint d).
Proof.
  induction d; cbn [NilEmpty.string_of_uint Pos.of_uint];
    [reflexivity | exact IHd | ..];
    (etransitivity; [|apply read_digits_of_uint_acc]); reflexivity.
Qed.

Lemma to_uint_not_Nil n : N.to_uint n ≠ Decimal.Nil.
Proof.
  intros H. pose proof (DecimalN.Unsigned.of_to n) as Hn. rewrite H in Hn.
  simpl in Hn. subst n. discriminate H.
Qed.

Lemma N_toString_not_empty n : N_toString n ≠ [].
Proof.
  unfold N_toString. pose proof (to_uint_not_Nil n).
  by destruct (N.to_uint n).
Qed.

(** [parseInt] reads back a printed page number. *)
Lemma parseInt_N_toString n : parseInt (N_toString n) = Some (Z.of_N n).
Proof.
  unfold N_toString.
  pose proof (to_uint_not_Nil n) as Hnil.
  pose proof (read_digits_of_uint (N.to_uint n)) as Hread.
  rewrite <- (DecimalN.Unsigned.of_to n) at 2.
  unfold N.of_uint.
  destruct (N.to_uint n) as [| d | d | d | d | d | d | d | d | d | d];
    [done | ..];
    try (unfold parseInt; cbn -[read_digits Z.mul]; rewrite Z.mul_1_l;
         f_equal; exact Hread).
  destruct d; unfold parseInt; cbn -[read_digits Z.mul]; rewrite Z.mul_1_l;
    f_equal; exact Hread.
Qed.

End SaveFacts.

(* ===================================================================== *)
(** ** Save path: the claims *)
(* ===================================================================== *)

Module SaveClaims.
Import Json Runtime Gemini Scanner SaveSpec SaveFacts RefJson Scenarios.
Local Open Scope async_scope.

(** C10, as the code has it by design. The rows submitted are built rows
    whose statement is not blank (something is left after trimming white
    space), whose type is one of MCQ, MSQ, NAT, Subjective, whose course is
    set and whose year lies in 2000..2030; every such row with a year in
    2001..2029 is submitted; all submitted rows go to storage in one batch.
    When no row passes, the save throws the nothing-to-save failure and the
    world is untouched: nothing is submitted. (The years 2000 and 2030
    themselves are left open here.) *)
Theorem savePdfQuestions_submits_valid_rows (rt : runtime)
    (selectedCourse : jsstring) (questions : list ExtractedQuestion)
    (year : jsstring) (w : world) :
  let candidates := questionToInsert selectedCourse year <$> questions in
  let valid := List.filter valid_question candidates in
  (∀ q, q ∈ valid → q ∈ candidates ∧ well_formed q ∧ year_in 2000 2030 q) ∧
  (∀ q, q ∈ candidates → well_formed q → year_in 2001 2029 q → q ∈ valid) ∧
  (valid = [] →
     savePdfQuestions rt selectedCourse questions year w = (Throw nothing_to_save, w)) ∧
  (valid ≠ [] →
     savePdfQuestions rt selectedCourse questions year w =
     (after_insert (insert_select rt (length (inserts (trace w))) valid),
      World (keyUsageCount w) (pageMemory w) (trace w ++ [Insert valid]))).
Proof.
  intros candidates valid. split; [|split; [|split]].
  - intros q [Hin [Hwf (y & Hy & Hrange)]]%filter_valid_elem_of.
    split; [done|]. split; [done|]. exists y. split; [done | lia].
  - intros q Hin Hwf Hyear. apply filter_valid_elem_of.
    split; [exact Hin|]. split; [exact Hwf | exact Hyear].
  - apply savePdfQuestions_nothing_valid.
  - apply savePdfQuestions_some_valid.
Qed.

Lemma savePdfQuestions_submits_valid_rows_witness :
  savePdfQuestions store_only course
    [plain_question "" 1; plain_question "What is 2 + 2?" 1] (js "2024") empty_world
  = (Return (Some [plain_row "What is 2 + 2?" 2024]),
     World ∅ [] [Insert [plain_row "What is 2 + 2?" 2024]]).
Proof.
  destruct (savePdfQuestions_submits_valid_rows store_only course
              [plain_question "" 1; plain_question "What is 2 + 2?" 1]
              (js "2024") empty_world) as (_ & _ & _ & Hsome).
  rewrite Hsome; [|vm_compute; discriminate].
  vm_compute. reflexivity.
Defined.

(** C10 as stated fails on a blank statement: a record whose statement is
    three spaces (so not empty), with a recognised type, a course and the
    year 2024, is dropped; the save throws nothing-to-save and submits
    nothing. *)
Lemma blank_statement_is_dropped :
  question_statement (plain_question "   " 1) ≠ [] ∧
  question_type (plain_question "   " 1) ∈ question_types ∧
  course ≠ [] ∧
  parseInt (js "2024") = Some 2024%Z ∧
  savePdfQuestions store_only course [plain_question "   " 1]
    (js "2024") empty_world = (Throw nothing_to_save, empty_world).
Proof.
  split; [discriminate|]. split; [apply list_elem_of_In; simpl; auto|].
  split; [discriminate|]. vm_compute. by split.
Qed.

(** The strict comparisons of the filter also drop the years 2000 and 2030,
    which the year field of the form accepts (its bounds are 2000 and 2030). *)
Example boundary_years_are_dropped :
  savePdfQuestions store_only course [plain_question "What is 2 + 2?" 1]
    (js "2000") empty_world = (Throw nothing_to_save, empty_world) ∧
  savePdfQuestions store_only course [plain_question "What is 2 + 2?" 1]
    (js "2030") empty_world = (Throw nothing_to_save, empty_world) ∧
  inserts (trace (savePdfQuestions store_only course
                    [plain_question "What is 2 + 2?" 1] (js "2029") empty_world).2)
    = [[plain_row "What is 2 + 2?" 2029]].
Proof. vm_compute. by repeat split. Qed.

Lemma year_of_question_is_page q : year_of_question q = N_toString (page_number q).
Proof.
  unfold year_of_question, jseqb.
  by rewrite bool_decide_false by apply N_toString_not_empty.
Qed.

Lemma group_push_keys year q groups y :
  y ∈ (group_push year q groups).*1 → y = year ∨ y ∈ groups.*1.
Proof.
  induction groups as [| [y0 qs] rest IH]; simpl.
  - intros ->%list_elem_of_singleton. by left.
  - unfold jseqb. case_bool_decide as Hk; simpl.
    + intros H. by right.
    + intros [-> | H]%elem_of_cons.
      * right. apply elem_of_cons. by left.
      * destruct (IH H) as [-> | Hin]; [by left|].
        right. apply elem_of_cons. by right.
Qed.

Lemma questionsByYear_keys questions : ∀ groups y,
  y ∈ (fold_left (λ groups q, group_push (year_of_question q) q groups)
         questions groups).*1 →
  y ∈ groups.*1 ∨ ∃ q, q ∈ questions ∧ y = year_of_question q.
Proof.
  induction questions as [| q questions IH]; intros groups y; simpl.
  - by left.
  - intros H. destruct (IH _ _ H) as [Hin | (q' & Hq' & ->)].
    + destruct (group_push_keys _ _ _ _ Hin) as [-> | Hin'].
      * right. exists q. split; [apply elem_of_cons; by left | done].
      * by left.
    + right. exists q'. split; [apply elem_of_cons; by right | done].
Qed.

Lemma group_push_not_empty year q groups : group_push year q groups ≠ [].
Proof.
  destruct groups as [| [y qs] rest]; simpl; [done|].
  by destruct (jseqb y year).
Qed.

Lemma fold_group_push_not_empty questions : ∀ groups,
  groups ≠ [] →
  fold_left (λ groups q, group_push (year_of_question q) q groups) questions groups ≠ [].
Proof.
  induction questions as [| q questions IH]; intros groups Hne; simpl; [done|].
  apply IH. apply group_push_not_empty.
Qed.

Lemma questionsByYear_not_empty questions :
  questions ≠ [] → questionsByYear questions ≠ [].
Proof.
  destruct questions as [| q questions]; [done|]. intros _.
  unfold questionsByYear. simpl. apply fold_group_push_not_empty. done.
Qed.

(** With a page number of at most 2000 as the year, no row is valid. *)
Lemma page_number_is_no_year selectedCourse page batch :
  page ≤ 2000 →
  List.filter valid_question
    (questionToInsert selectedCourse (N_toString page) <$> batch) = [].
Proof.
  intros Hpage. induction batch as [| q batch IH]; [done|].
  cbn [fmap list_fmap List.filter].
  assert (valid_question (questionToInsert selectedCourse (N_toString page) q) = false)
    as ->; [|exact IH].
  apply not_true_iff_false. rewrite valid_question_iff.
  intros (_ & y & Hy & Hrange).
  unfold questionToInsert in Hy. cbn [row_year] in Hy.
  rewrite parseInt_N_toString in Hy. injection Hy as <-. lia.
Qed.

(** C4. Save-all groups the questions under their page number printed in
    decimal and passes that string on as the year; when every page number
    is at most 2000, every group fails the year test, so with a course
    selected and at least one question the operation submits nothing,
    reports the failure No valid questions to save, and leaves the
    selection and the extracted questions as they were. *)
Theorem saveAll_saves_nothing (rt : runtime) (st : ui) (w : world) :
  selectedCourse st ≠ [] →
  extractedQuestions st ≠ [] →
  (∀ q, q ∈ extractedQuestions st → page_number q ≤ 2000) →
  (∀ q, year_of_question q = N_toString (page_number q)) ∧
  (∀ year, year ∈ (questionsByYear (extractedQuestions st)).*1 →
     ∀ batch, List.filter valid_question
                (questionToInsert (selectedCourse st) year <$> batch) = []) ∧
  saveAllToDatabase rt st w =
    (Return (UI (selectedExam st) (selectedCourse st) (pdfUploads st)
               (extractedQuestions st) false),
     World (keyUsageCount w) (pageMemory w)
       (trace w ++ [Report (SaveFailed nothing_to_save)])).
Proof.
  intros Hcourse Hsome Hpages.
  assert (Hgroups : ∀ year, year ∈ (questionsByYear (extractedQuestions st)).*1 →
            ∀ batch, List.filter valid_question
                       (questionToInsert (selectedCourse st) year <$> batch) = []).
  { intros year Hyear batch.
    destruct (questionsByYear_keys _ _ _ Hyear) as [Hin | (q & Hq & ->)].
    - by apply elem_of_nil in Hin.
    - rewrite year_of_question_is_page.
      apply page_number_is_no_year. by apply Hpages. }
  split; [apply year_of_question_is_page|]. split; [exact Hgroups|].
  unfold saveAllToDatabase, jseqb.
  rewrite bool_decide_false by exact Hcourse.
  destruct (extractedQuestions st) as [| q0 rest] eqn:Hqs; [done|].
  cbn [length Nat.eqb orb]. rewrite <- Hqs in *.
  pose proof (questionsByYear_not_empty _ Hsome) as Hne.
  destruct (questionsByYear (extractedQuestions st)) as [| [year batch] groups]
    eqn:Hby; [done|].
  unfold bind at 1, try_catch, bind at 1. cbn [save_groups]. unfold bind at 1.
  rewrite savePdfQuestions_nothing_valid;
    [|apply Hgroups; simpl; apply elem_of_cons; by left].
  reflexivity.
Qed.

Lemma saveAll_saves_nothing_witness :
  saveAllToDatabase store_only two_page_state empty_world =
    (Return two_page_state,
     World ∅ [] [Report (SaveFailed nothing_to_save)]).
Proof.
  destruct (saveAll_saves_nothing store_only two_page_state empty_world)
    as (_ & _ & Hrun).
  - discriminate.
  - discriminate.
  - intros q Hq. apply list_elem_of_In in Hq. simpl in Hq.
    destruct Hq as [<- | [<- | []]]; vm_compute; discriminate.
  - exact Hrun.
Defined.

End SaveClaims.

(* ===================================================================== *)
(** ** Credential pool: rotation *)
(* ===================================================================== *)

Module PoolRotation.
Import Pool PoolFacts Scenarios MoreSpec.

Lemma acquire_n_end keys n : ∀ m,
  acquire_n keys (S n) m = (getNextApiKey keys (acquire_n keys n m)).2.
Proof.
  induction n as [| n IH]; intros m; [reflexivity|].
  change (acquire_n keys (S (S n)) m)
    with (acquire_n keys (S n) (getNextApiKey keys m).2).
  rewrite IH. reflexivity.
Qed.

Lemma rotated_pick keys n m :
  keys ≠ [] → rotated keys n m →
  keys !! (n mod length keys)%nat = Some (leastUsed keys m).
Proof.
  intros Hne Hrot.
  assert (HM : (0 < length keys)%nat) by (destruct keys; simpl; [done | lia]).
  pose proof (Nat.mod_upper_bound n (length keys) ltac:(lia)) as Hr.
  destruct (leastUsed_inv m keys Hne) as (_ & Hmin & i0 & Hi0 & Hbefore).
  simpl in Hmin, Hi0, Hbefore.
  destruct (lookup_lt_is_Some_2 keys (n mod length keys)%nat Hr) as [kr Hkr].
  pose proof (Hrot _ _ Hkr) as Hukr. rewrite Nat.ltb_irrefl in Hukr.
  pose proof (Hrot _ _ Hi0) as Hu0.
  pose proof (Hmin kr (list_elem_of_lookup_2 _ _ _ Hkr)) as Hle.
  destruct (Nat.ltb_spec i0 (n mod length keys)) as [Hlt | Hge]; [lia|].
  destruct (decide (i0 = n mod length keys)%nat) as [-> | Hneq]; [done|].
  specialize (Hbefore (n mod length keys)%nat kr ltac:(lia) Hkr). lia.
Qed.

Lemma rotated_step keys n m :
  NoDup keys → keys ≠ [] → rotated keys n m →
  rotated keys (S n) (getNextApiKey keys m).2.
Proof.
  intros Hnodup Hne Hrot i k Hk.
  assert (HM : (0 < length keys)%nat) by (destruct keys; simpl; [done | lia]).
  pose proof (rotated_pick keys n m Hne Hrot) as Hpick.
  pose proof (Nat.mod_upper_bound n (length keys) ltac:(lia)) as Hr.
  pose proof (Nat.div_mod_eq n (length keys)) as Hn.
  unfold getNextApiKey. cbn [snd]. rewrite usage_insert.
  rewrite (Hrot _ _ Hpick), Nat.ltb_irrefl.
  assert (Hsucc : ((S (n mod length keys) < length keys ∧
                    S n / length keys = n / length keys ∧
                    S n mod length keys = S (n mod length keys)) ∨
                   (S (n mod length keys) = length keys ∧
                    S n / length keys = S (n / length keys) ∧
                    S n mod length keys = 0))%nat).
  { destruct (decide (S (n mod length keys) < length keys)%nat) as [Hin | Hout].
    - left. split; [done|].
      assert (S n = length keys * (n / length keys) + S (n mod length keys))%nat
        as Heq by lia.
      split; [symmetry; eapply Nat.div_unique; eauto
             | symmetry; eapply Nat.mod_unique; eauto].
    - right. split; [lia|].
      assert (S n = length keys * S (n / length keys) + 0)%nat as Heq by lia.
      split; [symmetry; eapply Nat.div_unique; [|exact Heq]; lia
             | symmetry; eapply Nat.mod_unique; [|exact Heq]; lia]. }
  case_decide as Hbest.
  - subst k.
    assert (i = n mod length keys)%nat as ->
      by (eapply NoDup_lookup; eauto).
    destruct Hsucc as [(_ & -> & ->) | (_ & -> & ->)].
    + destruct (Nat.ltb_spec (n mod length keys) (S (n mod length keys))); lia.
    + simpl. lia.
  - rewrite (Hrot _ _ Hk).
    assert (i ≠ n mod length keys)%nat as Hi by (intros ->; congruence).
    pose proof (lookup_lt_Some _ _ _ Hk) as Hlen.
    destruct Hsucc as [(_ & -> & ->) | (Hlast & -> & ->)].
    + destruct (Nat.ltb_spec i (n mod length keys));
        destruct (Nat.ltb_spec i (S (n mod length keys))); lia.
    + destruct (Nat.ltb_spec i (n mod length keys)); simpl; lia.
Qed.

Lemma rotated_acquire_n keys n :
  NoDup keys → keys ≠ [] → rotated keys n (acquire_n keys n ∅).
Proof.
  intros Hnodup Hne. induction n as [| n IH].
  - intros i k Hk. simpl. rewrite usage_empty.
    assert (HM : (0 < length keys)%nat) by (destruct keys; simpl; [done | lia]).
    rewrite Nat.Div0.div_0_l, Nat.Div0.mod_0_l. reflexivity.
  - rewrite acquire_n_end. by apply rotated_step.
Qed.

(** X1. On a pool of distinct credentials, starting from zero counts, the
    acquisitions go round the pool in the configured order: the acquisition
    that follows [n] earlier ones returns the credential at position
    [n mod M], and after [n] acquisitions every credential has been used
    [n / M] times, the first [n mod M] of them once more. *)
Theorem acquisitions_go_round (keys : list jsstring) (n : nat) :
  NoDup keys → keys ≠ [] →
  keys !! (n mod length keys)%nat = Some (nth_acquired keys n) ∧
  ∀ i k, keys !! i = Some k →
    usage (acquire_n keys n ∅) k
    = (n / length keys + (if (i <? n mod length keys)%nat then 1 else 0))%nat.
Proof.
  intros Hnodup Hne. pose proof (rotated_acquire_n keys n Hnodup Hne) as Hrot.
  split; [|exact Hrot]. unfold nth_acquired, getNextApiKey. cbn [fst].
  by apply rotated_pick.
Qed.

Lemma acquisitions_go_round_witness :
  [key_a; key_b; key_c] !! (7 mod 3)%nat
    = Some (nth_acquired [key_a; key_b; key_c] 7) ∧
  ∀ i k, [key_a; key_b; key_c] !! i = Some k →
    usage (acquire_n [key_a; key_b; key_c] 7 ∅) k
    = (7 / 3 + (if (i <? 7 mod 3)%nat then 1 else 0))%nat.
Proof.
  apply (acquisitions_go_round [key_a; key_b; key_c] 7).
  - apply (bool_decide_unpack _). vm_compute. exact I.
  - discriminate.
Defined.

End PoolRotation.

(* ===================================================================== *)
(** ** Rate-limited calls: bounds, thrown errors, page memory *)
(* ===================================================================== *)

Module ExecutorBounds.
Import Pool Json Decoder Runtime Gemini Steps DecoderSpec DecoderFacts DecoderClaims.
Import ExecutorFacts RefJson Scenarios MoreSpec MoreScenarios.

Lemma delays_app t1 t2 : delays (t1 ++ t2) = delays t1 ++ delays t2.
Proof. unfold delays. apply omap_app. Qed.

Lemma calls_reports t ds : calls (t ++ (Report <$> ds)) = calls t.
Proof.
  rewrite calls_app. induction ds as [| d ds IH]; simpl; [by rewrite app_nil_r|].
  exact IH.
Qed.

Lemma delays_reports t ds : delays (t ++ (Report <$> ds)) = delays t.
Proof.
  rewrite delays_app. induction ds as [| d ds IH]; simpl; [by rewrite app_nil_r|].
  exact IH.
Qed.

Lemma one_attempt_called rt p imageBase64 w :
  one_attempt w (called rt p imageBase64 w).
Proof.
  unfold one_attempt, called. cbn [trace]. rewrite calls_generate, delays_app.
  simpl. rewrite app_nil_r. split; [lia | done].
Qed.

Lemma analyzePageStructure_attempt_world rt imageBase64 w r w1 :
  analyzePageStructure_attempt rt imageBase64 w = (r, w1) →
  w1 = called rt StructurePrompt imageBase64 w.
Proof.
  unfold analyzePageStructure_attempt, bind, acquire, generate, called, getNextApiKey.
  cbn [trace keyUsageCount pageMemory fst snd].
  destruct (generateContent rt _ _) as [e0 | text]; [by intros [= <- <-]|].
  destruct (match_object text) as [m |]; [|by intros [= <- <-]].
  unfold lift. destruct (JSON_parse rt m); by intros [= <- <-].
Qed.

Lemma extractQuestionsWithContext_attempt_one rt imageBase64 pageNumber
    sharedDescriptions previousQuestions w r w1 :
  extractQuestionsWithContext_attempt rt imageBase64 pageNumber
    sharedDescriptions previousQuestions w = (r, w1) →
  one_attempt w w1 ∧ pageMemory w1 = pageMemory w.
Proof.
  unfold extractQuestionsWithContext_attempt, bind at 1, acquire at 1.
  unfold getNextApiKey. cbn beta iota zeta.
  destruct (recentContext rt previousQuestions) as [e0 | recent].
  - unfold lift, bind, throw. intros [= <- <-]. unfold one_attempt.
    cbn [trace pageMemory]. split; [split; [lia | done] | done].
  - unfold lift, bind at 1, ret at 1. cbn beta iota zeta.
    unfold bind at 1, generate at 1. cbn [trace keyUsageCount pageMemory].
    destruct (generateContent rt _ _) as [e0 | text].
    + intros [= <- <-]. unfold one_attempt. cbn [trace pageMemory].
      rewrite calls_generate, delays_app. simpl. rewrite app_nil_r.
      split; [split; [lia | done] | done].
    + match goal with
      | |- context [extractQuestionsWithContext_decode ?r ?p ?t ?w0] =>
          destruct (extractQuestionsWithContext_decode_reports r p t w0) as (ds & ->)
      end.
      intros [= <- <-]. unfold one_attempt. cbn [trace pageMemory].
      rewrite calls_reports, delays_reports, calls_generate, delays_app.
      simpl. rewrite app_nil_r. split; [split; [lia | done] | done].
Qed.

(** An attempt of [performExtraction] that returns has stored the answer of
    the model, cut to 1000 code units, under the page number. *)
Lemma performExtraction_attempt_return rt imageBase64 pageNumber previousContext
    w questions w1 :
  performExtraction_attempt rt imageBase64 pageNumber previousContext w
    = (Return questions, w1) →
  ∃ text,
    generateContent rt (length (calls (trace w)))
      (single_pass_request rt imageBase64 pageNumber previousContext w) = inr text ∧
    questions = decode_without_repair rt pageNumber text ∧
    pageMemory w1 = map_set pageNumber (substring0 1000 text) (pageMemory w) ∧
    one_attempt w w1.
Proof.
  unfold performExtraction_attempt, bind at 1, acquire at 1.
  unfold getNextApiKey. cbn beta iota zeta.
  unfold bind at 1, recall at 1. cbn beta iota zeta.
  unfold bind at 1, generate at 1. cbn [trace keyUsageCount pageMemory].
  unfold single_pass_request.
  destruct (generateContent rt _ _) as [e0 | text]; [done|].
  unfold bind at 1, remember at 1. cbn [trace keyUsageCount pageMemory].
  match goal with
  | |- context [performExtraction_decode ?r ?p ?t ?w0] =>
      destruct (performExtraction_decode_reports r p t w0) as (ds & ->)
  end.
  intros [= <- <-]. exists text. split; [done|]. split; [done|].
  cbn [pageMemory trace]. split; [done|]. unfold one_attempt. cbn [trace].
  rewrite calls_reports, delays_reports, calls_generate, delays_app.
  simpl. rewrite app_nil_r. split; [lia | done].
Qed.

Ltac count_norm :=
  unfold one_attempt, within, slept, reported, called, acquired_only in *;
  cbn [trace pageMemory keyUsageCount] in *;
  rewrite ?calls_app, ?delays_app, ?length_app in *;
  simpl in *.

Lemma analyzePageStructure_loop_within rt maxRetries imageBase64 :
  ∀ remaining retryCount w r w',
  (retryCount + remaining = maxRetries)%nat →
  analyzePageStructure_loop rt maxRetries remaining retryCount imageBase64 w = (r, w') →
  within remaining w w'.
Proof.
  induction remaining as [| remaining IH]; intros retryCount w r w' Hsum.
  - cbn [analyzePageStructure_loop]. intros [= <- <-]. unfold within. lia.
  - destruct (analyzePageStructure_attempt rt imageBase64 w) as [[a | e] w1] eqn:Hatt.
    + cbn [analyzePageStructure_loop]. unfold try_catch. rewrite Hatt.
      intros [= <- <-]. apply analyzePageStructure_attempt_world in Hatt as ->.
      count_norm. lia.
    + rewrite (analyzePageStructure_loop_throw _ _ _ _ _ _ _ _ Hatt).
      apply analyzePageStructure_attempt_world in Hatt as ->.
      destruct (is_rate_limit e).
      * destruct (Nat.ltb_spec (S retryCount) maxRetries).
        -- intros Hrun. apply IH in Hrun; [|lia]. count_norm. lia.
        -- intros [= <- <-]. count_norm. lia.
      * intros [= <- <-]. count_norm. lia.
Qed.

Lemma extractQuestionsWithContext_loop_within rt maxRetries imageBase64 pageNumber
    sharedDescriptions previousQuestions :
  ∀ remaining retryCount w r w',
  (retryCount + remaining = maxRetries)%nat →
  extractQuestionsWithContext_loop rt maxRetries remaining retryCount imageBase64
    pageNumber sharedDescriptions previousQuestions w = (r, w') →
  within remaining w w' ∧ pageMemory w' = pageMemory w.
Proof.
  induction remaining as [| remaining IH]; intros retryCount w r w' Hsum.
  - cbn [extractQuestionsWithContext_loop]. intros [= <- <-]. unfold within.
    split; [lia | done].
  - destruct (extractQuestionsWithContext_attempt rt imageBase64 pageNumber
                sharedDescriptions previousQuestions w) as [[a | e] w1] eqn:Hatt;
      pose proof (extractQuestionsWithContext_attempt_one _ _ _ _ _ _ _ _ Hatt)
        as [[Hc Hd] Hm].
    + cbn [extractQuestionsWithContext_loop]. unfold try_catch. rewrite Hatt.
      intros [= <- <-]. unfold within. rewrite Hd. split; [lia | done].
    + rewrite (extractQuestionsWithContext_loop_throw _ _ _ _ _ _ _ _ _ _ _ Hatt).
      destruct (is_rate_limit e).
      * destruct (Nat.ltb_spec (S retryCount) maxRetries).
        -- intros Hrun. apply IH in Hrun as [Hw Hm']; [|lia].
           count_norm. rewrite Hd in Hw. split; [lia | congruence].
        -- intros [= <- <-]. count_norm. rewrite Hd. split; [lia | done].
      * intros [= <- <-]. unfold within. rewrite Hd. split; [lia | done].
Qed.

Lemma performExtraction_attempt_one rt imageBase64 pageNumber previousContext w r w1 :
  performExtraction_attempt rt imageBase64 pageNumber previousContext w = (r, w1) →
  one_attempt w w1.
Proof.
  destruct r as [questions | e]; intros Hatt.
  - by destruct (performExtraction_attempt_return _ _ _ _ _ _ _ Hatt)
      as (text & _ & _ & _ & Hone).
  - destruct (performExtraction_attempt_throw _ _ _ _ _ _ _ Hatt) as [-> _].
    apply one_attempt_called.
Qed.

Lemma performExtraction_loop_within rt maxRetries imageBase64 pageNumber
    previousContext :
  ∀ remaining retryCount w r w',
  (retryCount + remaining = maxRetries)%nat →
  performExtraction_loop rt maxRetries remaining retryCount imageBase64
    pageNumber previousContext w = (r, w') →
  within remaining w w'.
Proof.
  induction remaining as [| remaining IH]; intros retryCount w r w' Hsum.
  - cbn [performExtraction_loop]. intros [= <- <-]. unfold within. lia.
  - destruct (performExtraction_attempt rt imageBase64 pageNumber previousContext w)
      as [[a | e] w1] eqn:Hatt;
      pose proof (performExtraction_attempt_one _ _ _ _ _ _ _ Hatt) as [Hc Hd].
    + cbn [performExtraction_loop]. unfold try_catch. rewrite Hatt.
      intros [= <- <-]. unfold within. rewrite Hd. lia.
    + rewrite (performExtraction_loop_throw _ _ _ _ _ _ _ _ _ _ Hatt). cbn zeta.
      destruct (is_rate_limit e);
        destruct (Nat.ltb_spec (S retryCount) maxRetries);
        destruct (Nat.leb_spec maxRetries (S retryCount));
        try lia;
        try (intros [= <- <-]; count_norm; rewrite Hd; lia);
        (intros Hrun; apply IH in Hrun; [|lia]; count_norm; rewrite Hd in Hrun; lia).
Qed.

(** X2. Every call site is bounded by the pool: whatever the model does,
    [analyzePageStructure], [extractQuestionsWithContext] and
    [performExtraction] each issue at most [M] model calls and await at
    most [M - 1] back-off delays, [M] being the pool size. *)
Theorem attempts_are_bounded_by_the_pool (rt : runtime) (imageBase64 : jsstring)
    (pageNumber : N) (previousImage nextImage : option jsstring)
    (sharedDescriptions : gmap N json) (previousQuestions : list json)
    (previousContext : jsstring) (w : world) :
  within (length (API_KEYS rt)) w
    (analyzePageStructure rt imageBase64 pageNumber previousImage nextImage w).2 ∧
  within (length (API_KEYS rt)) w
    (extractQuestionsWithContext rt imageBase64 pageNumber sharedDescriptions
       previousImage nextImage previousQuestions w).2 ∧
  within (length (API_KEYS rt)) w
    (performExtraction rt imageBase64 pageNumber previousContext w).2.
Proof.
  split; [|split].
  - unfold analyzePageStructure.
    destruct (analyzePageStructure_loop _ _ _ _ _ _) as [r w'] eqn:Hrun.
    by apply analyzePageStructure_loop_within in Hrun.
  - unfold extractQuestionsWithContext.
    destruct (extractQuestionsWithContext_loop _ _ _ _ _ _ _ _ _) as [r w'] eqn:Hrun.
    by apply extractQuestionsWithContext_loop_within in Hrun as [Hw _].
  - unfold performExtraction.
    destruct (performExtraction_loop _ _ _ _ _ _ _ _) as [r w'] eqn:Hrun.
    by apply performExtraction_loop_within in Hrun.
Qed.

Lemma analyzePageStructure_attempt_origin rt imageBase64 w e w1 :
  analyzePageStructure_attempt rt imageBase64 w = (Throw e, w1) →
  (∃ n r, generateContent rt n r = inl e) ∨ (∃ s, JSON_parse rt s = inl e).
Proof.
  unfold analyzePageStructure_attempt, bind, acquire, generate, getNextApiKey.
  cbn [trace keyUsageCount pageMemory fst snd].
  destruct (generateContent rt _ _) as [e0 | text] eqn:Hgen.
  - intros [= <- <-]. left. eauto.
  - destruct (match_object text) as [m |]; [|done].
    unfold lift. destruct (JSON_parse rt m) eqn:Hparse; [|done].
    intros [= <- <-]. right. eauto.
Qed.

Lemma extractQuestionsWithContext_attempt_origin rt imageBase64 pageNumber
    sharedDescriptions previousQuestions w e w1 :
  extractQuestionsWithContext_attempt rt imageBase64 pageNumber
    sharedDescriptions previousQuestions w = (Throw e, w1) →
  (∃ n r, generateContent rt n r = inl e) ∨ recentContext rt previousQuestions = inl e.
Proof.
  unfold extractQuestionsWithContext_attempt, bind at 1, acquire at 1.
  unfold getNextApiKey. cbn beta iota zeta.
  destruct (recentContext rt previousQuestions) as [e0 | recent].
  - unfold lift, bind, throw. intros [= <- <-]. by right.
  - unfold lift, bind at 1, ret at 1. cbn beta iota zeta.
    unfold bind at 1, generate at 1. cbn [trace keyUsageCount pageMemory].
    destruct (generateContent rt _ _) as [e0 | text] eqn:Hgen.
    + intros [= <- <-]. left. eauto.
    + match goal with
      | |- context [extractQuestionsWithContext_decode ?r ?p ?t ?w0] =>
          destruct (extractQuestionsWithContext_decode_reports r p t w0) as (ds & ->)
      end.
      done.
Qed.

Lemma analyzePageStructure_loop_origin rt maxRetries imageBase64 :
  ∀ remaining retryCount w e w',
  (1 ≤ remaining)%nat → (retryCount + remaining = maxRetries)%nat →
  analyzePageStructure_loop rt maxRetries remaining retryCount imageBase64 w
    = (Throw e, w') →
  (∃ n r, generateContent rt n r = inl e) ∨ (∃ s, JSON_parse rt s = inl e).
Proof.
  induction remaining as [| remaining IH]; intros retryCount w e w' Hpos Hsum; [lia|].
  destruct (analyzePageStructure_attempt rt imageBase64 w) as [[a | e0] w1] eqn:Hatt.
  - cbn [analyzePageStructure_loop]. unfold try_catch. by rewrite Hatt.
  - rewrite (analyzePageStructure_loop_throw _ _ _ _ _ _ _ _ Hatt).
    pose proof (analyzePageStructure_attempt_origin _ _ _ _ _ Hatt) as Horigin.
    destruct (is_rate_limit e0).
    + destruct (Nat.ltb_spec (S retryCount) maxRetries).
      * apply IH; lia.
      * by intros [= <- <-].
    + by intros [= <- <-].
Qed.

Lemma extractQuestionsWithContext_loop_origin rt maxRetries imageBase64 pageNumber
    sharedDescriptions previousQuestions :
  ∀ remaining retryCount w e w',
  (1 ≤ remaining)%nat → (retryCount + remaining = maxRetries)%nat →
  extractQuestionsWithContext_loop rt maxRetries remaining retryCount imageBase64
    pageNumber sharedDescriptions previousQuestions w = (Throw e, w') →
  (∃ n r, generateContent rt n r = inl e) ∨ recentContext rt previousQuestions = inl e.
Proof.
  induction remaining as [| remaining IH]; intros retryCount w e w' Hpos Hsum; [lia|].
  destruct (extractQuestionsWithContext_attempt rt imageBase64 pageNumber
              sharedDescriptions previousQuestions w) as [[a | e0] w1] eqn:Hatt.
  - cbn [extractQuestionsWithContext_loop]. unfold try_catch. by rewrite Hatt.
  - rewrite (extractQuestionsWithContext_loop_throw _ _ _ _ _ _ _ _ _ _ _ Hatt).
    pose proof (extractQuestionsWithContext_attempt_origin _ _ _ _ _ _ _ _ Hatt)
      as Horigin.
    destruct (is_rate_limit e0).
    + destruct (Nat.ltb_spec (S retryCount) maxRetries).
      * apply IH; lia.
      * by intros [= <- <-].
    + by intros [= <- <-].
Qed.

Lemma performExtraction_loop_origin rt maxRetries imageBase64 pageNumber
    previousContext :
  ∀ remaining retryCount w e w',
  (1 ≤ remaining)%nat → (retryCount + remaining = maxRetries)%nat →
  performExtraction_loop rt maxRetries remaining retryCount imageBase64
    pageNumber previousContext w = (Throw e, w') →
  ∃ e0, (∃ n r, generateContent rt n r = inl e0) ∧
        e = new_Error (exhausted_message maxRetries pageNumber e0).
Proof.
  induction remaining as [| remaining IH]; intros retryCount w e w' Hpos Hsum; [lia|].
  destruct (performExtraction_attempt rt imageBase64 pageNumber previousContext w)
    as [[a | e0] w1] eqn:Hatt.
  - cbn [performExtraction_loop]. unfold try_catch. by rewrite Hatt.
  - rewrite (performExtraction_loop_throw _ _ _ _ _ _ _ _ _ _ Hatt). cbn zeta.
    destruct (performExtraction_attempt_throw _ _ _ _ _ _ _ Hatt) as [_ Hgen].
    destruct (is_rate_limit e0);
      destruct (Nat.ltb_spec (S retryCount) maxRetries);
      destruct (Nat.leb_spec maxRetries (S retryCount));
      try lia;
      try (intros [= <- <-]; exists e0; split; [eauto | done]);
      (apply IH; lia).
Qed.

(** X3. With a non-empty pool the errors written after the three retry
    loops are never thrown. [analyzePageStructure] throws only an error
    that the model call or [JSON.parse] raised; [extractQuestionsWithContext]
    only an error of the model call or of building the recent context;
    [performExtraction] only the exhausted failure, whose message ends with
    the message of an error of the model call. *)
Theorem thrown_errors_by_call_site (rt : runtime) (imageBase64 : jsstring)
    (pageNumber : N) (previousImage nextImage : option jsstring)
    (sharedDescriptions : gmap N json) (previousQuestions : list json)
    (previousContext : jsstring) (w w' : world) (e : js_error) :
  API_KEYS rt ≠ [] →
  (analyzePageStructure rt imageBase64 pageNumber previousImage nextImage w
     = (Throw e, w') →
   (∃ n r, generateContent rt n r = inl e) ∨ (∃ s, JSON_parse rt s = inl e)) ∧
  (extractQuestionsWithContext rt imageBase64 pageNumber sharedDescriptions
     previousImage nextImage previousQuestions w = (Throw e, w') →
   (∃ n r, generateContent rt n r = inl e) ∨
   recentContext rt previousQuestions = inl e) ∧
  (performExtraction rt imageBase64 pageNumber previousContext w = (Throw e, w') →
   ∃ e0, (∃ n r, generateContent rt n r = inl e0) ∧
         e = new_Error (exhausted_message (length (API_KEYS rt)) pageNumber e0)).
Proof.
  intros Hne.
  assert (1 ≤ length (API_KEYS rt))%nat
    by (destruct (API_KEYS rt); simpl; [done | lia]).
  split; [|split].
  - apply analyzePageStructure_loop_origin; lia.
  - apply extractQuestionsWithContext_loop_origin; lia.
  - unfold performExtraction. apply performExtraction_loop_origin; lia.
Qed.

Lemma thrown_errors_by_call_site_witness :
  ∃ e0, (∃ n r, generateContent (two_keys (failing_model fetch_failed)) n r = inl e0) ∧
        new_Error (js "All 2 API keys exhausted for page 1: fetch failed")
        = new_Error (exhausted_message 2 1 e0).
Proof.
  destruct (thrown_errors_by_call_site (two_keys (failing_model fetch_failed))
              (js "img") 1 None None ∅ [] [] empty_world
              (performExtraction (two_keys (failing_model fetch_failed))
                 (js "img") 1 [] empty_world).2
              (new_Error (js "All 2 API keys exhausted for page 1: fetch failed")))
    as (_ & _ & Hsingle); [discriminate|].
  apply Hsingle. vm_compute. reflexivity.
Defined.

Lemma map_get_set k v m : map_get k (map_set k v m) = Some v.
Proof.
  induction m as [| [k' v'] rest IH]; simpl.
  - by rewrite N.eqb_refl.
  - destruct (N.eqb_spec k' k) as [-> | Hne]; simpl.
    + by rewrite N.eqb_refl.
    + destruct (N.eqb_spec k' k); [done | exact IH].
Qed.

Lemma map_get_set_ne k k' v m : k' ≠ k → map_get k' (map_set k v m) = map_get k' m.
Proof.
  intros Hne. induction m as [| [k0 v0] rest IH]; simpl.
  - destruct (N.eqb_spec k k'); [congruence | done].
  - destruct (N.eqb_spec k0 k) as [-> | Hk]; simpl.
    + destruct (N.eqb_spec k k'); [congruence | done].
    + destruct (N.eqb_spec k0 k'); [done | exact IH].
Qed.

Lemma performExtraction_loop_memory rt maxRetries imageBase64 pageNumber
    previousContext :
  ∀ remaining retryCount w r w',
  performExtraction_loop rt maxRetries remaining retryCount imageBase64
    pageNumber previousContext w = (r, w') →
  match r with
  | Throw _ => pageMemory w' = pageMemory w
  | Return questions =>
      ∃ text, (∃ n req, generateContent rt n req = inr text) ∧
              questions = decode_without_repair rt pageNumber text ∧
              pageMemory w' = map_set pageNumber (substring0 1000 text) (pageMemory w)
  end.
Proof.
  induction remaining as [| remaining IH]; intros retryCount w r w'.
  - cbn [performExtraction_loop]. by intros [= <- <-].
  - destruct (performExtraction_attempt rt imageBase64 pageNumber previousContext w)
      as [[a | e0] w1] eqn:Hatt.
    + cbn [performExtraction_loop]. unfold try_catch. rewrite Hatt.
      intros [= <- <-].
      destruct (performExtraction_attempt_return _ _ _ _ _ _ _ Hatt)
        as (text & Hgen & -> & Hmem & _).
      exists text. split; [eauto | done].
    + rewrite (performExtraction_loop_throw _ _ _ _ _ _ _ _ _ _ Hatt). cbn zeta.
      destruct (performExtraction_attempt_throw _ _ _ _ _ _ _ Hatt) as [-> _].
      destruct (is_rate_limit e0);
        destruct (S retryCount <? maxRetries)%nat;
        destruct (maxRetries <=? S retryCount)%nat;
        try (by intros [= <- <-]);
        (intros Hrun; apply IH in Hrun; exact Hrun).
Qed.

(** X4. [performExtraction] writes the page memory only when it returns:
    after a call that throws the memory is as before; after a call that
    returns, the entry of the page is the first 1000 code units of the
    answer that was decoded, and the entries of all other pages are as
    before. *)
Theorem page_memory_after_performExtraction (rt : runtime) (imageBase64 : jsstring)
    (pageNumber : N) (previousContext : jsstring) (w w' : world)
    (r : completion (list json)) :
  performExtraction rt imageBase64 pageNumber previousContext w = (r, w') →
  match r with
  | Throw _ => pageMemory w' = pageMemory w
  | Return questions =>
      ∃ text, (∃ n req, generateContent rt n req = inr text) ∧
              questions = decode_without_repair rt pageNumber text ∧
              map_get pageNumber (pageMemory w') = Some (substring0 1000 text) ∧
              (length (substring0 1000 text) ≤ 1000)%nat ∧
              ∀ other, other ≠ pageNumber →
                map_get other (pageMemory w') = map_get other (pageMemory w)
  end.
Proof.
  unfold performExtraction. intros Hrun.
  apply performExtraction_loop_memory in Hrun.
  destruct r as [questions | e]; [|exact Hrun].
  destruct Hrun as (text & Hgen & Hq & ->).
  exists text. split; [done|]. split; [done|].
  split; [apply map_get_set|]. split.
  - unfold substring0. rewrite length_take. lia.
  - intros other Hother. by apply map_get_set_ne.
Qed.

Lemma page_memory_after_performExtraction_witness :
  ∃ text,
    map_get 4 (pageMemory (performExtraction (one_key wrong_page) (js "img") 4 []
                             (World ∅ [(3, js "earlier")] [])).2)
      = Some (substring0 1000 text) ∧
    map_get 3 (pageMemory (performExtraction (one_key wrong_page) (js "img") 4 []
                             (World ∅ [(3, js "earlier")] [])).2)
      = Some (js "earlier").
Proof.
  pose proof (page_memory_after_performExtraction (one_key wrong_page) (js "img") 4 []
                (World ∅ [(3, js "earlier")] []) _ _
                (surjective_pairing _)) as Hmem.
  destruct (performExtraction _ _ _ _ _).1 as [questions | e] eqn:Hr.
  - destruct Hmem as (text & _ & _ & Hhere & _ & Hother).
    exists text. split; [exact Hhere|]. rewrite Hother; [reflexivity | discriminate].
  - vm_compute in Hr. discriminate Hr.
Defined.

End ExecutorBounds.

(* ===================================================================== *)
(** ** Context handed to the extraction pass *)
(* ===================================================================== *)

Module ContextWindow.
Import Pool Json Decoder Runtime Gemini Steps DecoderSpec DecoderFacts DecoderClaims.
Import ExecutorFacts RefJson Scenarios MoreSpec MoreScenarios ExecutorBounds.
Local Open Scope async_scope.

Lemma slice_last_app {A} (n : nat) (older recent : list A) :
  (n ≤ length recent)%nat → slice_last n (older ++ recent) = slice_last n recent.
Proof.
  intros Hlen. unfold slice_last. rewrite length_app.
  rewrite drop_app_ge by lia. f_equal. lia.
Qed.

Lemma extractQuestionsWithContext_loop_ext rt maxRetries imageBase64 pageNumber
    sharedDescriptions previous previous' :
  recentContext rt previous = recentContext rt previous' →
  ∀ remaining retryCount w,
    extractQuestionsWithContext_loop rt maxRetries remaining retryCount imageBase64
      pageNumber sharedDescriptions previous w =
    extractQuestionsWithContext_loop rt maxRetries remaining retryCount imageBase64
      pageNumber sharedDescriptions previous' w.
Proof.
  intros Hsame.
  assert (Hatt : ∀ w,
            extractQuestionsWithContext_attempt rt imageBase64 pageNumber
              sharedDescriptions previous w =
            extractQuestionsWithContext_attempt rt imageBase64 pageNumber
              sharedDescriptions previous' w).
  { intros w. unfold extractQuestionsWithContext_attempt. by rewrite Hsame. }
  induction remaining as [| remaining IH]; intros retryCount w; [reflexivity|].
  destruct (extractQuestionsWithContext_attempt rt imageBase64 pageNumber
              sharedDescriptions previous w) as [[a | e] w1] eqn:Hrun.
  - cbn [extractQuestionsWithContext_loop]. unfold try_catch.
    by rewrite <- Hatt, Hrun.
  - rewrite (extractQuestionsWithContext_loop_throw _ _ _ _ _ _ _ _ _ _ _ Hrun).
    rewrite Hatt in Hrun.
    rewrite (extractQuestionsWithContext_loop_throw _ _ _ _ _ _ _ _ _ _ _ Hrun).
    by rewrite IH.
Qed.

(** X5. Only the three most recent questions reach the extraction pass: a
    call of [extractQuestionsWithContext] with any number of older
    questions in front of at least three recent ones behaves exactly like
    the call with the recent ones alone, and the memory text of the
    single-pass prompt is built from the last three entries alone. *)
Theorem only_the_last_three_count (rt : runtime) (imageBase64 : jsstring)
    (pageNumber : N) (sharedDescriptions : gmap N json)
    (previousImage nextImage : option jsstring) (older recent : list json)
    (olderPages recentPages : list (N * jsstring)) (w : world) :
  (3 ≤ length recent)%nat →
  (3 ≤ length recentPages)%nat →
  extractQuestionsWithContext rt imageBase64 pageNumber sharedDescriptions
    previousImage nextImage (older ++ recent) w =
  extractQuestionsWithContext rt imageBase64 pageNumber sharedDescriptions
    previousImage nextImage recent w ∧
  memoryContext (olderPages ++ recentPages) = memoryContext recentPages.
Proof.
  intros Hrecent Hpages. split.
  - unfold extractQuestionsWithContext.
    apply extractQuestionsWithContext_loop_ext.
    unfold recentContext. by rewrite slice_last_app.
  - unfold memoryContext. by rewrite slice_last_app.
Qed.

Lemma only_the_last_three_count_witness :
  extractQuestionsWithContext (one_key one_question) (js "img") 5 ∅ None None
    ([JNull] ++ [question_on_page 2; question_on_page 3; question_on_page 4])
    empty_world =
  extractQuestionsWithContext (one_key one_question) (js "img") 5 ∅ None None
    [question_on_page 2; question_on_page 3; question_on_page 4] empty_world.
Proof.
  apply (only_the_last_three_count (one_key one_question) (js "img") 5 ∅ None None
           [JNull] [question_on_page 2; question_on_page 3; question_on_page 4]
           [] [(1, []); (2, []); (3, [])] empty_world); simpl; lia.
Defined.

Lemma map_throwing_inl {A B} (f : A → js_error + B) (items : list A) q :
  q ∈ items → (∃ e, f q = inl e) → ∃ e, map_throwing f items = inl e.
Proof.
  intros Hin [e He]. induction items as [| x items IH]; [by apply elem_of_nil in Hin|].
  simpl. destruct (f x) as [e' | y] eqn:Hx; [eauto|].
  apply elem_of_cons in Hin as [-> | Hin]; [congruence|].
  destruct (IH Hin) as [e'' ->]. eauto.
Qed.

Lemma recentContext_without_statement rt previousQuestions q :
  q ∈ slice_last 3 previousQuestions → ¬ has_statement rt q →
  ∃ e, recentContext rt previousQuestions = inl e.
Proof.
  intros Hin Hnone. unfold recentContext.
  destruct (map_throwing_inl (recent_line rt) _ q Hin) as [e ->]; [|eauto].
  unfold recent_line.
  destruct (get_member (type_error rt) q (js "question_number")) as [e | number];
    [eauto|].
  destruct (get_member (type_error rt) q (js "question_statement"))
    as [e | [[] |]] eqn:Hs; eauto.
  exfalso. apply Hnone. unfold has_statement. eauto.
Qed.

Lemma extractQuestionsWithContext_loop_no_call rt maxRetries imageBase64 pageNumber
    sharedDescriptions previousQuestions e :
  recentContext rt previousQuestions = inl e →
  ∀ remaining retryCount w,
  ∃ e' w',
    extractQuestionsWithContext_loop rt maxRetries remaining retryCount imageBase64
      pageNumber sharedDescriptions previousQuestions w = (Throw e', w') ∧
    calls (trace w') = calls (trace w).
Proof.
  intros Hctx.
  assert (Hatt : ∀ w,
            extractQuestionsWithContext_attempt rt imageBase64 pageNumber
              sharedDescriptions previousQuestions w = (Throw e, acquired_only rt w)).
  { intros w. unfold extractQuestionsWithContext_attempt, bind at 1, acquire at 1.
    unfold getNextApiKey. cbn beta iota zeta. by rewrite Hctx. }
  induction remaining as [| remaining IH]; intros retryCount w.
  - by eexists _, _.
  - rewrite (extractQuestionsWithContext_loop_throw _ _ _ _ _ _ _ _ _ _ _ (Hatt w)).
    destruct (is_rate_limit e).
    + destruct (S retryCount <? maxRetries)%nat.
      * destruct (IH (S retryCount)
                    (slept 2000 (reported (RateLimitHit (S retryCount))
                                   (acquired_only rt w))))
          as (e' & w' & -> & Hcalls).
        exists e', w'. split; [done|]. rewrite Hcalls.
        unfold slept, reported, acquired_only. cbn [trace].
        by rewrite calls_timeout, calls_report.
      * eexists _, _. split; [done|]. unfold reported, acquired_only. cbn [trace].
        by rewrite calls_report.
    + by eexists _, _.
Qed.

(** X6. A record without a string statement among the last three
    accumulated questions stops the second pass of the two-pass
    orchestrator for good: every remaining page throws before the model is
    called, so the pass returns the accumulated questions unchanged, having
    issued no model call. *)
Theorem missing_statement_silences_later_pages (rt : runtime)
    (images : list jsstring) (startPageNumber : N)
    (sharedDescriptions : gmap N json) (allQuestions : list json) (q : json)
    (i : nat) (todo : list jsstring) (w : world) :
  q ∈ slice_last 3 allQuestions →
  ¬ has_statement rt q →
  ∃ w',
    second_pass rt images startPageNumber i todo sharedDescriptions allQuestions w
      = (Return allQuestions, w') ∧
    calls (trace w') = calls (trace w).
Proof.
  intros Hin Hnone.
  destruct (recentContext_without_statement rt allQuestions q Hin Hnone) as [e Hctx].
  revert i w. induction todo as [| image later IH]; intros i w.
  - by exists w.
  - cbn [second_pass]. unfold bind at 1, try_catch, bind at 1.
    unfold extractQuestionsWithContext.
    destruct (extractQuestionsWithContext_loop_no_call rt (length (API_KEYS rt))
                image (startPageNumber + N.of_nat i) sharedDescriptions
                allQuestions e Hctx (length (API_KEYS rt)) 0%nat w)
      as (e' & w1 & -> & Hcalls).
    unfold bind at 1, report, emit, ret at 1. cbn [trace keyUsageCount pageMemory].
    match goal with
    | |- context [second_pass _ _ _ _ _ _ _ ?w0] =>
        destruct (IH (S i) w0) as (w' & -> & Hcalls')
    end.
    exists w'. split; [done|]. rewrite Hcalls'. cbn [trace].
    by rewrite calls_report.
Qed.

Lemma missing_statement_silences_later_pages_witness :
  ∃ w',
    second_pass (one_key one_question) [js "page-1"; js "page-2"] 1 0
      [js "page-1"; js "page-2"] ∅ [statementless] empty_world
      = (Return [statementless], w') ∧
    calls (trace w') = calls (trace empty_world).
Proof.
  apply (missing_statement_silences_later_pages (one_key one_question)
           [js "page-1"; js "page-2"] 1 ∅ [statementless] statementless).
  - apply list_elem_of_In. simpl. auto.
  - intros (s & Hs). vm_compute in Hs. discriminate Hs.
Defined.

End ContextWindow.

(* ===================================================================== *)
(** ** Response decoder: the repair, the patterns, the stamp *)
(* ===================================================================== *)

Module DecoderMore.
Import Pool Json Decoder Runtime Gemini Steps DecoderSpec DecoderFacts DecoderClaims.
Import RefJson Scenarios MoreSpec MoreScenarios.

Lemma escape_char_removes c x s : x ≠ c → c ≠ 92 → c ∉ escape_char c x s.
Proof.
  intros Hx Hc. unfold escape_char. intros Hin.
  apply list_elem_of_bind in Hin as (a & Hin & _).
  destruct (N.eqb_spec a c) as [Heq | Hne].
  - apply elem_of_cons in Hin as [Hin | Hin]; [congruence|].
    apply list_elem_of_singleton in Hin. congruence.
  - apply list_elem_of_singleton in Hin. congruence.
Qed.

Lemma escape_char_keeps_out c x d s :
  d ∉ s → d ≠ 92 → d ≠ x → d ∉ escape_char c x s.
Proof.
  intros Hd H92 Hx. unfold escape_char. intros Hin.
  apply list_elem_of_bind in Hin as (a & Hin & Ha).
  destruct (a =? c).
  - apply elem_of_cons in Hin as [Hin | Hin]; [congruence|].
    apply list_elem_of_singleton in Hin. congruence.
  - apply list_elem_of_singleton in Hin. congruence.
Qed.

Lemma escape_char_id c x s : c ∉ s → escape_char c x s = s.
Proof.
  unfold escape_char. induction s as [| a s IH]; [done|].
  intros [Ha Hs]%not_elem_of_cons. cbn [mbind list_bind].
  destruct (N.eqb_spec a c); [congruence|]. simpl. f_equal. by apply IH.
Qed.

Lemma escape_single_backslashes_id s : 92 ∉ s → escape_single_backslashes s = s.
Proof.
  induction s as [| a s IH]; [done|].
  intros [Ha Hs]%not_elem_of_cons. cbn [escape_single_backslashes].
  destruct (N.eqb_spec a 92); [congruence|]. simpl. f_equal. by apply IH.
Qed.

Lemma collapse_backslashes_id s : 92 ∉ s → collapse_backslashes s = s.
Proof.
  unfold collapse_backslashes. induction s as [| a s IH]; [done|].
  intros [Ha Hs]%not_elem_of_cons.
  cbn [collapse_backslashes_from backslash_run].
  destruct (N.eqb_spec a 92); [congruence|]. simpl. f_equal. by apply IH.
Qed.

(** X7. The repaired text holds no raw line feed, tab or carriage return,
    whatever the input; and a text that has no backslash and none of these
    three characters is returned as it is. *)
Theorem repair_escapes_raw_control_characters (s : jsstring) :
  (10 ∉ fixJson s) ∧ (9 ∉ fixJson s) ∧ (13 ∉ fixJson s) ∧
  ((92 ∉ s) → (10 ∉ s) → (9 ∉ s) → (13 ∉ s) → fixJson s = s).
Proof.
  unfold fixJson. split; [|split; [|split]].
  - apply escape_char_keeps_out; [|done|done].
    apply escape_char_keeps_out; [|done|done].
    by apply escape_char_removes.
  - apply escape_char_keeps_out; [|done|done].
    by apply escape_char_removes.
  - by apply escape_char_removes.
  - intros H92 H10 H9 H13.
    rewrite (escape_single_backslashes_id s H92), (collapse_backslashes_id s H92).
    rewrite (escape_char_id 10 110 s H10), (escape_char_id 9 116 s H9).
    by apply escape_char_id.
Qed.

Lemma repair_escapes_raw_control_characters_witness :
  fixJson (js "[1, 2]") = js "[1, 2]".
Proof.
  destruct (repair_escapes_raw_control_characters (js "[1, 2]"))
    as (_ & _ & _ & Hid).
  apply Hid; intros Hin; apply list_elem_of_In in Hin; vm_compute in Hin;
    intuition discriminate.
Defined.

Lemma through_last_is_Some c s : c ∈ s → is_Some (through_last c s).
Proof.
  induction s as [| x s IH]; [by intros ?%elem_of_nil|].
  intros Hin. simpl. destruct (through_last c s) as [p |] eqn:E; [by eexists|].
  apply elem_of_cons in Hin as [-> | Hin].
  - rewrite N.eqb_refl. by eexists.
  - destruct (IH Hin) as [p Hp]. discriminate Hp.
Qed.

Lemma match_span_is_Some o c pre mid post :
  is_Some (match_span o c (pre ++ o :: mid ++ c :: post)).
Proof.
  assert (Hin : ∀ front, c ∈ front ++ o :: mid ++ c :: post).
  { intros front. apply elem_of_app. right. apply elem_of_cons. right.
    apply elem_of_app. right. apply elem_of_cons. by left. }
  unfold match_span. induction pre as [| x pre IH].
  - simpl. rewrite N.eqb_refl.
    destruct (through_last_is_Some c (mid ++ c :: post)) as [p ->]; [|by eexists].
    apply elem_of_app. right. apply elem_of_cons. by left.
  - cbn [app from_first]. destruct (N.eqb_spec x o) as [-> | Hne]; [|exact IH].
    destruct (through_last_is_Some c (pre ++ o :: mid ++ c :: post) (Hin pre))
      as [p ->].
    by eexists.
Qed.

(** X8. When the decoder finds nothing. The bracket pattern matches exactly
    the texts with an opening bracket and a closing bracket somewhere after
    it; the fence pattern exactly the texts with a fence labelled json and
    a fence somewhere after it. So the two extraction passes report that no
    JSON was found, and return the empty list, exactly for the texts with
    neither. *)
Theorem nothing_located_iff (text : jsstring) :
  (is_Some (match_array text) ↔
     ∃ pre mid post, text = pre ++ 91 :: mid ++ 93 :: post) ∧
  (is_Some (match_code_block text) ↔
     ∃ pre mid post, text = pre ++ fence_json ++ mid ++ fence ++ post) ∧
  (locate text = None ↔
     (¬ ∃ pre mid post, text = pre ++ 91 :: mid ++ 93 :: post) ∧
     (¬ ∃ pre mid post, text = pre ++ fence_json ++ mid ++ fence ++ post)).
Proof.
  assert (Harray : is_Some (match_array text) ↔
            ∃ pre mid post, text = pre ++ 91 :: mid ++ 93 :: post).
  { split.
    - intros [span Hspan]. apply match_span_iff in Hspan
        as (pre & mid & post & -> & -> & _).
      exists pre, mid, post. cbn [app]. by rewrite <- app_assoc.
    - intros (pre & mid & post & ->). apply match_span_is_Some. }
  assert (Hfence : is_Some (match_code_block text) ↔
            ∃ pre mid post, text = pre ++ fence_json ++ mid ++ fence ++ post).
  { split.
    - intros [interior Hi]. apply match_code_block_Some in Hi
        as (pre & ws1 & ws2 & post & -> & _).
      exists pre, (ws1 ++ interior ++ ws2), post. by rewrite <- !app_assoc.
    - intros (pre & mid & post & ->). apply match_code_block_is_Some. }
  split; [exact Harray|]. split; [exact Hfence|].
  rewrite <- Harray, <- Hfence. unfold locate.
  destruct (match_array text) as [span |].
  - split; [done|]. intros [Hno _]. exfalso. apply Hno. by eexists.
  - destruct (match_code_block text) as [interior |].
    + split; [done|]. intros [_ Hno]. exfalso. apply Hno. by eexists.
    + split; [|done]. intros _. split; by intros [? ?].
Qed.

Lemma spread_fold_fresh props : ∀ acc,
  NoDup ((acc ++ props).*1) →
  fold_left (λ o kv, set_prop kv.1 kv.2 o) props acc = acc ++ props.
Proof.
  assert (Hfresh : ∀ k v acc, k ∉ acc.*1 → set_prop k v acc = acc ++ [(k, v)]).
  { intros k v acc. induction acc as [| [k' v'] acc IH]; [done|].
    intros [Hk Hacc]%not_elem_of_cons. simpl in Hk. simpl. unfold jseqb.
    rewrite bool_decide_false by congruence. f_equal. by apply IH. }
  induction props as [| [k v] props IH]; intros acc Hnodup; simpl.
  - by rewrite app_nil_r.
  - rewrite Hfresh.
    + rewrite IH; [by rewrite <- app_assoc|]. by rewrite <- app_assoc.
    + rewrite fmap_app in Hnodup. apply NoDup_app in Hnodup as (_ & Hdisj & _).
      intros Hin. apply (Hdisj k Hin). simpl. apply elem_of_cons. by left.
Qed.

(** X9. Stamping touches two fields only. For a decoded object with
    distinct keys, the stamped record exists, and every property other
    than [page_number] and [confidence_score] reads as in the decoded
    object; the same holds for the stamp of [analyzePageForQuestions] with
    [page_number] alone. *)
Theorem stamping_keeps_the_other_fields (te : js_error) (pageNumber : N)
    (props : list (jsstring * json)) :
  NoDup props.*1 →
  (∃ stamped_props,
     stamp te pageNumber (JObj props) = inr (JObj stamped_props) ∧
     ∀ k, k ≠ js "page_number" → k ≠ js "confidence_score" →
          get_prop stamped_props k = get_prop props k) ∧
  (∃ stamped_props,
     OneShot.stamp_page pageNumber (JObj props) = JObj stamped_props ∧
     ∀ k, k ≠ js "page_number" → get_prop stamped_props k = get_prop props k).
Proof.
  intros Hnodup.
  assert (Hspread : spread (JObj props) = props).
  { unfold spread. cbn [own_props]. by rewrite spread_fold_fresh. }
  split.
  - unfold stamp. cbn [get_member]. rewrite Hspread. eexists. split; [reflexivity|].
    intros k Hpage Hscore. by rewrite !get_set_prop_ne.
  - unfold OneShot.stamp_page. rewrite Hspread. eexists. split; [reflexivity|].
    intros k Hpage. by rewrite get_set_prop_ne.
Qed.

Lemma stamping_keeps_the_other_fields_witness :
  ∃ stamped_props,
    stamp reference_TypeError 7
      (JObj [(js "question_type", JStr (js "MSQ")); (js "page_number", JNum 2 0)])
      = inr (JObj stamped_props) ∧
    get_prop stamped_props (js "question_type") = Some (JStr (js "MSQ")).
Proof.
  destruct (stamping_keeps_the_other_fields reference_TypeError 7
              [(js "question_type", JStr (js "MSQ")); (js "page_number", JNum 2 0)])
    as ((stamped_props & Hstamp & Hkeep) & _).
  - apply (bool_decide_unpack _). vm_compute. exact I.
  - exists stamped_props. split; [exact Hstamp|].
    rewrite Hkeep; [reflexivity | discriminate | discriminate].
Defined.

End DecoderMore.

(* ===================================================================== *)
(** ** Loading the pool, and the one-shot page analysis *)
(* ===================================================================== *)

Module StartupFacts.
Import Pool Json Runtime PoolFacts Startup.

Lemma configured_keys_usable candidates :
  Forall (λ k, usable_key (Some k) = true) (configured_keys candidates).
Proof.
  unfold configured_keys. induction candidates as [| c rest IH]; [constructor|].
  cbn [omap list_omap]. destruct (usable_key c) eqn:E; [|exact IH].
  destruct c as [k |]; [|discriminate E]. by constructor.
Qed.

Lemma configured_keys_sublist candidates :
  (Some <$> configured_keys candidates) `sublist_of` candidates.
Proof.
  unfold configured_keys. induction candidates as [| c rest IH]; [constructor|].
  cbn [omap list_omap]. destruct (usable_key c) eqn:E.
  - destruct c as [k |]; [|discriminate E]. by apply sublist_skip.
  - by apply sublist_cons.
Qed.

Lemma configured_keys_nil candidates :
  configured_keys candidates = [] ↔ Forall (λ c, usable_key c = false) candidates.
Proof.
  unfold configured_keys. induction candidates as [| c rest IH]; [by split|].
  cbn [omap list_omap]. destruct (usable_key c) eqn:E.
  - destruct c as [k |]; [|discriminate E]. split; [done|].
    intros H. apply Forall_cons in H as [H _]. congruence.
  - rewrite IH. split.
    + intros H. by constructor.
    + intros H. by apply Forall_cons in H as [_ H].
Qed.

Lemma configured_keys_filter candidates :
  Some <$> configured_keys candidates = List.filter usable_key candidates.
Proof.
  unfold configured_keys. induction candidates as [| c rest IH]; [done|].
  cbn [omap list_omap List.filter]. destruct (usable_key c) eqn:E; [|exact IH].
  destruct c as [k |]; [|discriminate E]. cbn [fmap list_fmap]. by f_equal.
Qed.

Lemma configured_keys_complete candidates k :
  Some k ∈ candidates → usable_key (Some k) = true → k ∈ configured_keys candidates.
Proof.
  intros Hin Hk.
  assert (Hfiltered : Some k ∈ List.filter usable_key candidates).
  { apply list_elem_of_In, List.filter_In. split; [by apply list_elem_of_In | done]. }
  rewrite <- configured_keys_filter in Hfiltered.
  apply list_elem_of_fmap in Hfiltered as (k' & [= ->] & Hk'). exact Hk'.
Qed.

Lemma leastUsed_elem_of keys m : keys ≠ [] → leastUsed keys m ∈ keys.
Proof.
  intros Hne. destruct (leastUsed_inv m keys Hne) as (_ & _ & i & Hi & _).
  by apply list_elem_of_lookup_2 in Hi.
Qed.

(** X10. What the module top level leaves. Loading fails, with the error
    on the missing keys, exactly when no candidate is set to a text with a
    character other than white space. Otherwise the pool is not empty and
    is exactly the list of the usable candidates, all of them, in their
    order and as often as they are listed; none of its keys is blank, and
    every acquisition hands out one of its keys. *)
Theorem the_loaded_pool_is_usable (candidates : list (option jsstring)) :
  match load_module candidates with
  | inl e =>
      e = no_keys_error ∧ Forall (λ c, usable_key c = false) candidates
  | inr keys =>
      keys ≠ [] ∧
      Exists (λ c, usable_key c = true) candidates ∧
      Some <$> keys = List.filter usable_key candidates ∧
      (∀ k, Some k ∈ candidates → k ≠ [] → trim k ≠ [] → k ∈ keys) ∧
      (Some <$> keys) `sublist_of` candidates ∧
      Forall (λ k, k ≠ [] ∧ trim k ≠ []) keys ∧
      ∀ m, (getNextApiKey keys m).1 ∈ keys
  end.
Proof.
  unfold load_module.
  destruct (Nat.eqb_spec (length (configured_keys candidates)) 0) as [Hlen | Hlen].
  - split; [done|]. apply configured_keys_nil. by apply length_zero_iff_nil.
  - assert (Hne : configured_keys candidates ≠ []).
    { intros Hnil. by rewrite Hnil in Hlen. }
    split; [exact Hne|]. split; [|split; [|split; [|split; [|split]]]].
    2: apply configured_keys_filter.
    2: { intros k Hin Hk Htrim. apply configured_keys_complete; [exact Hin|].
         unfold usable_key, jseqb.
         by rewrite !bool_decide_false by done. }
    + clear Hlen. unfold configured_keys in Hne.
      induction candidates as [| c rest IH]; [done|].
      cbn [omap list_omap] in Hne. destruct (usable_key c) eqn:E.
      * by apply Exists_cons_hd.
      * apply Exists_cons_tl. by apply IH.
    + apply configured_keys_sublist.
    + eapply Forall_impl; [apply configured_keys_usable|].
      intros k Hk. simpl in Hk. unfold usable_key, jseqb in Hk.
      apply andb_prop in Hk as [Hk1 Hk2].
      apply negb_true_iff, bool_decide_eq_false in Hk1.
      apply negb_true_iff, bool_decide_eq_false in Hk2. done.
    + intros m. cbn [getNextApiKey fst]. by apply leastUsed_elem_of.
Qed.

End StartupFacts.

Module OneShotFacts.
Import Pool Json Decoder Runtime DecoderFacts OneShot MoreSpec.

Lemma stamp_page_on_page pageNumber q : on_page pageNumber (stamp_page pageNumber q).
Proof.
  unfold stamp_page, on_page. eexists. split; [reflexivity|].
  apply get_set_prop_eq.
Qed.

Lemma page_calls_app t1 t2 : page_calls (t1 ++ t2) = page_calls t1 ++ page_calls t2.
Proof. unfold page_calls. apply omap_app. Qed.

Ltac one_shot_trace :=
  rewrite ?page_calls_app; cbn [page_calls omap list_omap app];
  rewrite ?app_nil_r.

(** X11. [analyzePageForQuestions] is one shot. Whatever the model does,
    a call acquires one key and sends one request with it, and never a
    second one; a failed request, a rate limit included, is thrown at once
    under the message [Failed to analyze page N: ...], as is every other
    failure; a response with no bracket pair gives the empty list; and the
    records returned all carry the page number passed in. *)
Theorem analyzePageForQuestions_is_one_shot
    (rt : runtime) (respond : nat → page_request → js_error + jsstring)
    (String_of_error : js_error → jsstring)
    (imageBase64 : jsstring) (pageNumber : N) (previousContext : option jsstring)
    (w : page_world) :
  let run := analyzePageForQuestions rt respond String_of_error
               imageBase64 pageNumber previousContext w in
  let acquired := getNextApiKey (API_KEYS rt) (page_counts w) in
  let request := PageRequest acquired.1 imageBase64
                   (previous_context_text previousContext) pageNumber in
  let answer := respond (length (page_calls (page_trace w))) request in
  page_calls (page_trace run.2) = page_calls (page_trace w) ++ [request] ∧
  page_counts run.2 = acquired.2 ∧
  (∀ error, answer = inl error →
     run.1 = Throw (new_Error (failed_message String_of_error pageNumber error))) ∧
  (∀ text, answer = inr text → match_array text = None → run.1 = Return []) ∧
  (∀ questions, run.1 = Return questions → Forall (on_page pageNumber) questions) ∧
  (∀ e, run.1 = Throw e →
     ∃ cause, e = new_Error (failed_message String_of_error pageNumber cause)).
Proof.
  cbv zeta. unfold analyzePageForQuestions, analyzePageForQuestions_try.
  destruct (getNextApiKey (API_KEYS rt) (page_counts w)) as [apiKey counts].
  cbn [fst snd].
  destruct (respond _ _) as [error | text].
  { cbn [fst snd page_counts page_trace]. one_shot_trace.
    split; [done|]. split; [done|]. split; [by intros error' [= ->]|].
    split; [done|]. split; [done|]. intros e [= <-]. by eexists. }
  destruct (match_array text) as [jsonMatch |] eqn:Hmatch.
  2: { cbn [fst snd page_counts page_trace]. one_shot_trace.
       split; [done|]. split; [done|]. split; [done|]. split; [done|].
       split; [|done]. intros questions [= <-]. constructor. }
  assert (Hsome : ∀ (out : completion (list json)) text',
            @inr js_error jsstring text = inr text' →
            match_array text' = None → out = Return []).
  { intros out text' [= <-]. congruence. }
  destruct (JSON_parse rt jsonMatch) as [error | [ | b | m x | s | questions | props]];
    cbn [fst snd page_counts page_trace]; one_shot_trace;
    (split; [done|]); (split; [done|]); (split; [done|]);
    (split; [apply Hsome|]); (split; [|try done; intros e [= <-]; by eexists]);
    try done.
  intros questions' [= <-]. apply Forall_fmap, Forall_true.
  intros q. apply stamp_page_on_page.
Qed.

End OneShotFacts.

(* ===================================================================== *)
(** ** Editing the uploads and the extracted questions *)
(* ===================================================================== *)

Module EditingFacts.
Import Json Runtime Gemini Scanner SaveSpec SaveFacts Editing MoreSpec.
Import RefJson Scenarios.

Lemma filter_index_skip {A} index (l : list A) : ∀ base,
  (index < base)%nat →
  filter_index (λ i, negb (i =? index)%nat) base l = l.
Proof.
  induction l as [| x l IH]; intros base Hlt; [done|]. simpl.
  destruct (Nat.eqb_spec base index); [lia|]. simpl. f_equal. apply IH. lia.
Qed.

Lemma filter_index_delete {A} index (l : list A) : ∀ base,
  (base ≤ index)%nat →
  filter_index (λ i, negb (i =? index)%nat) base l
  = take (index - base) l ++ drop (S (index - base)) l.
Proof.
  induction l as [| x l IH]; intros base Hle.
  - by rewrite take_nil, drop_nil.
  - simpl. destruct (Nat.eqb_spec base index) as [-> | Hne]; simpl.
    + rewrite Nat.sub_diag. simpl. rewrite drop_0. apply filter_index_skip. lia.
    + rewrite IH by lia.
      replace (index - base)%nat with (S (index - S base)) by lia. done.
Qed.

Lemma imap_at_alter {A} (f : A → A) (l : list A) : ∀ index,
  imap (λ i x, if (i =? index)%nat then f x else x) l = alter f index l.
Proof.
  induction l as [| x l IH]; intros index; [done|].
  destruct index as [| n]; simpl.
  - f_equal. clear IH. etransitivity; [apply (imap_ext _ (λ _ y, y)); done|].
    induction l as [| y l IH]; [done|]. simpl. f_equal. exact IH.
  - f_equal. etransitivity; [|apply (IH n)]. by apply imap_ext.
Qed.

(** X12. Deleting a question removes the entry at the index and nothing
    else: the entries before it and after it stay, in order, and an index
    past the end leaves the list as it is. *)
Theorem deleteQuestion_removes_one_entry (index : nat)
    (extractedQuestions : list ExtractedQuestion) :
  deleteQuestion index extractedQuestions
    = take index extractedQuestions ++ drop (S index) extractedQuestions ∧
  ((index < length extractedQuestions)%nat →
     S (length (deleteQuestion index extractedQuestions)) = length extractedQuestions) ∧
  ((length extractedQuestions ≤ index)%nat →
     deleteQuestion index extractedQuestions = extractedQuestions).
Proof.
  assert (Heq : deleteQuestion index extractedQuestions
                = take index extractedQuestions ++ drop (S index) extractedQuestions).
  { unfold deleteQuestion. rewrite filter_index_delete by lia.
    by rewrite Nat.sub_0_r. }
  split; [exact Heq|]. split.
  - intros Hlt. rewrite Heq, length_app, length_take, length_drop. lia.
  - intros Hle. rewrite Heq, take_ge by lia. rewrite drop_ge by lia.
    apply app_nil_r.
Qed.

Lemma deleteQuestion_removes_one_entry_witness :
  S (length (deleteQuestion 1 (extractedQuestions two_page_state)))
  = length (extractedQuestions two_page_state).
Proof.
  destruct (deleteQuestion_removes_one_entry 1 (extractedQuestions two_page_state))
    as (_ & Hlen & _).
  apply Hlen. simpl. lia.
Defined.

Lemma with_image_saved_alike imageBase64 q : saved_alike q (with_image imageBase64 q).
Proof. by destruct q. Qed.

Lemma saved_alike_refl q : saved_alike q q.
Proof. done. Qed.

Lemma updateQuestionImage_saved_alike index imageBase64 questions :
  Forall2 saved_alike questions (updateQuestionImage index imageBase64 questions).
Proof.
  unfold updateQuestionImage. rewrite imap_at_alter. revert index.
  induction questions as [| q questions IH]; intros index; [constructor|].
  destruct index as [| n]; simpl.
  - constructor; [apply with_image_saved_alike|].
    apply Forall_Forall2_diag, Forall_true, saved_alike_refl.
  - constructor; [apply saved_alike_refl | apply IH].
Qed.

Lemma saved_alike_row selectedCourse year q q' :
  saved_alike q q' →
  questionToInsert selectedCourse year q' = questionToInsert selectedCourse year q.
Proof.
  intros (_ & Htype & Hstatement & Hoptions). unfold questionToInsert.
  by rewrite Htype, Hstatement, Hoptions.
Qed.

Lemma saved_alike_rows selectedCourse year questions questions' :
  Forall2 saved_alike questions questions' →
  questionToInsert selectedCourse year <$> questions'
  = questionToInsert selectedCourse year <$> questions.
Proof.
  induction 1 as [| q q' qs qs' Hq _ IH]; [done|].
  cbn [fmap list_fmap]. f_equal; [by apply saved_alike_row | exact IH].
Qed.

Lemma saved_alike_year q q' :
  saved_alike q q' → year_of_question q' = year_of_question q.
Proof. intros (Hpage & _). unfold year_of_question. by rewrite Hpage. Qed.

Lemma savePdfQuestions_saved_alike rt selectedCourse year questions questions' :
  Forall2 saved_alike questions questions' →
  savePdfQuestions rt selectedCourse questions' year
  = savePdfQuestions rt selectedCourse questions year.
Proof.
  intros Halike. unfold savePdfQuestions.
  by rewrite (saved_alike_rows selectedCourse year _ _ Halike).
Qed.

Lemma group_push_saved_alike q q' groups groups' :
  saved_alike q q' →
  Forall2 (λ g g', g'.1 = g.1 ∧ Forall2 saved_alike g.2 g'.2) groups groups' →
  Forall2 (λ g g', g'.1 = g.1 ∧ Forall2 saved_alike g.2 g'.2)
    (group_push (year_of_question q) q groups)
    (group_push (year_of_question q') q' groups').
Proof.
  intros Hq. rewrite (saved_alike_year _ _ Hq).
  induction 1 as [| [y b] [y' b'] gs gs' [Hy Hb] Hrest IH]; simpl in *.
  - constructor; [|constructor]. split; [done|]. by constructor.
  - subst y'. destruct (jseqb y (year_of_question q)).
    + constructor; [|exact Hrest]. split; [done|]. simpl.
      apply Forall2_app; [done|]. by constructor.
    + constructor; [by split | exact IH].
Qed.

Lemma fold_group_push_saved_alike questions questions' :
  Forall2 saved_alike questions questions' →
  ∀ groups groups',
    Forall2 (λ g g', g'.1 = g.1 ∧ Forall2 saved_alike g.2 g'.2) groups groups' →
    Forall2 (λ g g', g'.1 = g.1 ∧ Forall2 saved_alike g.2 g'.2)
      (fold_left (λ groups q, group_push (year_of_question q) q groups)
                 questions groups)
      (fold_left (λ groups q, group_push (year_of_question q) q groups)
                 questions' groups').
Proof.
  induction 1 as [| q q' qs qs' Hq _ IH]; intros groups groups' Hgroups; [done|].
  simpl. apply IH. by apply group_push_saved_alike.
Qed.

Lemma questionsByYear_saved_alike questions questions' :
  Forall2 saved_alike questions questions' →
  Forall2 (λ g g', g'.1 = g.1 ∧ Forall2 saved_alike g.2 g'.2)
    (questionsByYear questions) (questionsByYear questions').
Proof.
  intros Halike. unfold questionsByYear.
  apply fold_group_push_saved_alike; [exact Halike | constructor].
Qed.

Lemma save_groups_saved_alike rt selectedCourse groups groups' :
  Forall2 (λ g g', g'.1 = g.1 ∧ Forall2 saved_alike g.2 g'.2) groups groups' →
  ∀ totalSaved w,
    save_groups rt selectedCourse groups' totalSaved w
    = save_groups rt selectedCourse groups totalSaved w.
Proof.
  induction 1 as [| [y b] [y' b'] gs gs' [Hy Hb] _ IH]; intros totalSaved w; [done|].
  simpl in Hy, Hb. subst y'. cbn [save_groups].
  rewrite (savePdfQuestions_saved_alike rt selectedCourse y _ _ Hb).
  unfold bind.
  destruct (savePdfQuestions rt selectedCourse b y w) as [[data | e] w1]; [|done].
  by rewrite IH.
Qed.

(** X13. An attached image is never stored. After [updateQuestionImage],
    every save of the extracted questions sends the same rows to storage and
    shows the same notices as it would have without the image: the save
    path reads the type, the statement, the options and the page number
    only. *)
Theorem attached_images_are_never_stored (rt : runtime) (st : ui)
    (index : nat) (imageBase64 : jsstring) (w : world) :
  let edited := updateQuestionImage index imageBase64 (extractedQuestions st) in
  let st' := UI (selectedExam st) (selectedCourse st) (pdfUploads st) edited
                (isSaving st) in
  Forall2 saved_alike (extractedQuestions st) edited ∧
  (∀ year, savePdfQuestions rt (selectedCourse st) edited year w
           = savePdfQuestions rt (selectedCourse st) (extractedQuestions st) year w) ∧
  (saveAllToDatabase rt st' w).2 = (saveAllToDatabase rt st w).2.
Proof.
  cbv zeta.
  pose proof (updateQuestionImage_saved_alike index imageBase64
                (extractedQuestions st)) as Halike.
  split; [exact Halike|]. split.
  - intros year. by rewrite (savePdfQuestions_saved_alike rt _ year _ _ Halike).
  - unfold saveAllToDatabase. cbn [selectedCourse extractedQuestions].
    rewrite <- (Forall2_length _ _ _ Halike).
    destruct (jseqb (selectedCourse st) [] || (length (extractedQuestions st) =? 0)%nat);
      [done|].
    unfold bind, try_catch.
    rewrite (save_groups_saved_alike rt _ _ _ (questionsByYear_saved_alike _ _ Halike)).
    by destruct (save_groups rt (selectedCourse st)
                   (questionsByYear (extractedQuestions st)) 0 w) as [[n | e] w1].
Qed.

Lemma removePdf_alter index pdfUploads :
  removePdf index pdfUploads
  = alter (λ upload, {| file := None; year := []; id := id upload |}) index pdfUploads.
Proof. unfold removePdf. apply imap_at_alter. Qed.

Lemma updateYear_alter index newYear pdfUploads :
  updateYear index newYear pdfUploads
  = alter (λ upload, {| file := file upload; year := newYear; id := id upload |})
          index pdfUploads.
Proof. unfold updateYear. apply imap_at_alter. Qed.

Lemma filter_alter_split {A} (keep : A → bool) (f : A → A) index (l : list A) :
  List.filter keep (alter f index l)
  = List.filter keep (take index l)
    ++ List.filter keep (f <$> option_list (l !! index))
    ++ List.filter keep (drop (S index) l).
Proof.
  revert index. induction l as [| x l IH]; intros index.
  - by rewrite take_nil, drop_nil.
  - destruct index as [| n]; simpl.
    + rewrite drop_0. by destruct (keep (f x)).
    + specialize (IH n). unfold alter in IH.
      destruct (keep x); [cbn [app]; f_equal|]; exact IH.
Qed.

(** X14. Editing the upload slots. [removePdf] and [updateYear] keep the
    number of slots and their ids. After [removePdf] the slot is no longer
    among the uploads to scan, and the others are, as before, in order.
    After [updateYear] the slot is among them exactly when it holds a file
    and the new year has a character other than white space, whatever
    that year is. *)
Theorem editing_the_upload_slots (index : nat) (newYear : jsstring)
    (pdfUploads : list PDFUpload) :
  length (removePdf index pdfUploads) = length pdfUploads ∧
  id <$> removePdf index pdfUploads = id <$> pdfUploads ∧
  length (updateYear index newYear pdfUploads) = length pdfUploads ∧
  id <$> updateYear index newYear pdfUploads = id <$> pdfUploads ∧
  getValidPdfs (removePdf index pdfUploads)
    = getValidPdfs (take index pdfUploads) ++ getValidPdfs (drop (S index) pdfUploads) ∧
  getValidPdfs (updateYear index newYear pdfUploads)
    = getValidPdfs (take index pdfUploads)
      ++ match pdfUploads !! index with
         | Some upload =>
             match file upload with
             | Some name =>
                 if jseqb (trim newYear) [] then []
                 else [{| file := Some name; year := newYear; id := id upload |}]
             | None => []
             end
         | None => []
         end
      ++ getValidPdfs (drop (S index) pdfUploads).
Proof.
  rewrite removePdf_alter, updateYear_alter. unfold getValidPdfs.
  rewrite !length_alter, !filter_alter_split.
  split; [done|]. split.
  { rewrite (list_fmap_alter id _ (λ x, x)); [by apply list_alter_id|].
    by apply Forall_true. }
  split; [done|]. split.
  { rewrite (list_fmap_alter id _ (λ x, x)); [by apply list_alter_id|].
    by apply Forall_true. }
  split.
  - f_equal. by destruct (pdfUploads !! index).
  - f_equal. f_equal. destruct (pdfUploads !! index) as [upload |]; [|done].
    simpl. unfold valid_upload. simpl.
    destruct (file upload); [|done]. by destruct (jseqb (trim newYear) []).
Qed.

End EditingFacts.

(* ===================================================================== *)
(** ** The save path: years, batches and outcomes *)
(* ===================================================================== *)

Module SaveMore.
Import Json Runtime Gemini Scanner SaveSpec SaveFacts SaveClaims Editing MoreSpec.
Import RefJson Scenarios.
Local Open Scope Z_scope.

(** X15. A year that the scan accepts can still save nothing. [getValidPdfs]
    asks only for a year with a character other than white space; when
    [parseInt] of the year is not a number, or is one outside 2001..2029,
    [savePdfQuestions] throws [nothing_to_save] for every list
    of questions and sends nothing to storage. *)
Theorem a_year_out_of_range_saves_nothing (rt : runtime)
    (selectedCourse : jsstring) (questions : list ExtractedQuestion)
    (year : jsstring) (w : world) :
  (∀ n, parseInt year = Some n → ¬ (2000 < n < 2030)) →
  savePdfQuestions rt selectedCourse questions year w = (Throw nothing_to_save, w).
Proof.
  intros Hyear. apply savePdfQuestions_nothing_valid.
  induction questions as [| q questions IH]; [done|].
  cbn [fmap list_fmap List.filter].
  assert (valid_question (questionToInsert selectedCourse year q) = false) as ->;
    [|exact IH].
  apply not_true_is_false. intros Hvalid.
  apply valid_question_iff in Hvalid as (_ & n & Hn & Hrange).
  cbn [questionToInsert row_year] in Hn. apply (Hyear n Hn). lia.
Qed.

Lemma a_year_out_of_range_saves_nothing_witness :
  valid_upload {| file := Some (js "paper.pdf"); year := js "1999"; id := js "pdf-0" |}
    = true ∧
  savePdfQuestions store_only course [plain_question "What is 2 + 2?" 1]
    (js "1999") empty_world = (Throw nothing_to_save, empty_world).
Proof.
  split; [reflexivity|].
  apply (a_year_out_of_range_saves_nothing store_only course
           [plain_question "What is 2 + 2?" 1] (js "1999") empty_world).
  intros n Hn. vm_compute in Hn. injection Hn as <-. lia.
Defined.

Lemma batch_of_group_push year q groups y :
  batch_of y (group_push year q groups)
  = if jseqb year y then batch_of y groups ++ [q] else batch_of y groups.
Proof.
  unfold jseqb. induction groups as [| [y0 batch] rest IH]; simpl; [done|].
  unfold jseqb. destruct (decide (y0 = year)) as [-> | Hkey].
  - rewrite (bool_decide_true (year = year)) by done. simpl. unfold jseqb.
    by destruct (bool_decide (year = y)).
  - rewrite (bool_decide_false (y0 = year)) by done. simpl. unfold jseqb.
    rewrite IH. destruct (decide (y0 = y)) as [-> | Hy0].
    + rewrite (bool_decide_true (y = y)) by done.
      by rewrite (bool_decide_false (year = y)) by congruence.
    + by rewrite (bool_decide_false (y0 = y)) by done.
Qed.

Lemma batch_of_fold questions y : ∀ groups,
  batch_of y (fold_left (λ groups q, group_push (year_of_question q) q groups)
                questions groups)
  = batch_of y groups
    ++ List.filter (λ q, jseqb (year_of_question q) y) questions.
Proof.
  induction questions as [| q questions IH]; intros groups; simpl.
  - by rewrite app_nil_r.
  - rewrite IH, batch_of_group_push.
    destruct (jseqb (year_of_question q) y); [by rewrite <- app_assoc | done].
Qed.

Lemma group_push_NoDup year q groups :
  NoDup groups.*1 → NoDup (group_push year q groups).*1.
Proof.
  induction groups as [| [y0 batch] rest IH]; simpl.
  - intros _. apply NoDup_singleton.
  - intros [Hfresh Hrest]%NoDup_cons. unfold jseqb. case_bool_decide as Hkey; simpl.
    + by apply NoDup_cons.
    + apply NoDup_cons. split; [|by apply IH].
      intros [-> | Hin]%group_push_keys; [done | by apply Hfresh].
Qed.

Lemma group_push_batches year q groups :
  Forall (λ g, g.2 ≠ []) groups → Forall (λ g, g.2 ≠ []) (group_push year q groups).
Proof.
  induction 1 as [| [y0 batch] rest Hb Hrest IH]; simpl.
  - by constructor.
  - destruct (jseqb y0 year); constructor; try done.
    simpl. by destruct batch.
Qed.

Lemma fold_group_push_inv questions : ∀ groups,
  NoDup groups.*1 → Forall (λ g, g.2 ≠ []) groups →
  NoDup (fold_left (λ groups q, group_push (year_of_question q) q groups)
           questions groups).*1 ∧
  Forall (λ g, g.2 ≠ [])
    (fold_left (λ groups q, group_push (year_of_question q) q groups)
       questions groups).
Proof.
  induction questions as [| q questions IH]; intros groups Hkeys Hbatches; [done|].
  simpl. apply IH; [by apply group_push_NoDup | by apply group_push_batches].
Qed.

Lemma batch_of_elem_of groups y batch :
  NoDup groups.*1 → (y, batch) ∈ groups → batch_of y groups = batch.
Proof.
  induction groups as [| [y0 b0] rest IH]; [by intros _ ?%elem_of_nil|].
  simpl. intros [Hfresh Hrest]%NoDup_cons [Hhd | Htl]%elem_of_cons.
  - injection Hhd as -> ->. unfold jseqb. by rewrite bool_decide_true.
  - unfold jseqb. rewrite bool_decide_false; [by apply IH|].
    intros ->. apply Hfresh. apply list_elem_of_fmap. by exists (y, batch).
Qed.

Lemma batch_of_key groups y : batch_of y groups ≠ [] → y ∈ groups.*1.
Proof.
  induction groups as [| [y0 b0] rest IH]; [done|]. simpl.
  unfold jseqb. case_bool_decide as Hkey.
  - intros _. subst. apply elem_of_cons. by left.
  - intros H. apply elem_of_cons. right. by apply IH.
Qed.

(** X16. The grouping made by [saveAllToDatabase] is a partition by page
    number. No key occurs twice; the batch filed under a key is the list
    of the questions whose page number prints as that key, in their
    order, and it is not empty; and every question is in the batch of its
    page. *)
Theorem questionsByYear_is_a_partition (questions : list ExtractedQuestion) :
  NoDup (questionsByYear questions).*1 ∧
  (∀ y batch, (y, batch) ∈ questionsByYear questions →
     batch ≠ [] ∧
     batch = List.filter (λ q, jseqb (N_toString (page_number q)) y) questions) ∧
  (∀ q, q ∈ questions →
     N_toString (page_number q) ∈ (questionsByYear questions).*1 ∧
     q ∈ batch_of (N_toString (page_number q)) (questionsByYear questions)).
Proof.
  assert (Hbatch : ∀ y, batch_of y (questionsByYear questions)
            = List.filter (λ q, jseqb (N_toString (page_number q)) y) questions).
  { intros y. unfold questionsByYear. rewrite batch_of_fold. simpl.
    induction questions as [| q qs IH]; [done|]. simpl.
    rewrite year_of_question_is_page.
    destruct (jseqb _ y); [f_equal|]; apply IH. }
  destruct (fold_group_push_inv questions [] (NoDup_nil_2 : NoDup ([] : list _).*1)
              (Forall_nil_2 _)) as [Hkeys Hbatches].
  fold (questionsByYear questions) in Hkeys, Hbatches.
  split; [exact Hkeys|]. split.
  - intros y batch Hin. split.
    + rewrite Forall_forall in Hbatches. exact (Hbatches _ Hin).
    + rewrite <- Hbatch. symmetry. by apply batch_of_elem_of.
  - intros q Hq.
    assert (Hmember : q ∈ batch_of (N_toString (page_number q))
                            (questionsByYear questions)).
    { rewrite Hbatch. apply list_elem_of_In, List.filter_In.
      split; [by apply list_elem_of_In|]. unfold jseqb. by rewrite bool_decide_true. }
    split; [|exact Hmember]. apply batch_of_key. intros Hnil.
    rewrite Hnil in Hmember. by apply elem_of_nil in Hmember.
Qed.

Lemma savePdfQuestions_effect rt selectedCourse questions year w :
  savePdfQuestions rt selectedCourse questions year w = (Throw nothing_to_save, w) ∨
  ∃ rows, clean_batch selectedCourse rows ∧
    savePdfQuestions rt selectedCourse questions year w
    = (after_insert (insert_select rt (length (inserts (trace w))) rows),
       World (keyUsageCount w) (pageMemory w) (trace w ++ [Insert rows])).
Proof.
  destruct (List.filter valid_question
              (questionToInsert selectedCourse year <$> questions)) as [| r rows] eqn:E.
  - left. by apply savePdfQuestions_nothing_valid.
  - right. exists (r :: rows). rewrite <- E. split.
    + split; [by rewrite E|]. apply Forall_forall. intros q Hq.
      apply filter_valid_elem_of in Hq as [Hq Hok]. split; [exact Hok|].
      apply list_elem_of_fmap in Hq as (x & -> & _). done.
    + apply savePdfQuestions_some_valid. by rewrite E.
Qed.

Lemma save_groups_effect rt selectedCourse groups : ∀ totalSaved w,
  ∃ batches,
    (save_groups rt selectedCourse groups totalSaved w).2
      = World (keyUsageCount w) (pageMemory w) (trace w ++ (Insert <$> batches)) ∧
    Forall (clean_batch selectedCourse) batches ∧
    (length batches ≤ length groups)%nat ∧
    (∀ n, (save_groups rt selectedCourse groups totalSaved w).1 = Return n →
          length batches = length groups).
Proof.
  induction groups as [| [year questions] rest IH]; intros totalSaved w.
  - exists []. simpl. rewrite app_nil_r. split; [by destruct w|].
    split; [constructor|]. split; [lia|]. intros n Hn. reflexivity.
  - cbn [save_groups]. unfold bind.
    destruct (savePdfQuestions_effect rt selectedCourse questions year w)
      as [-> | (rows & Hclean & ->)].
    + exists []. simpl. rewrite app_nil_r. split; [by destruct w|].
      split; [constructor|]. split; [lia | done].
    + unfold after_insert.
      destruct (reply_error (insert_select rt (length (inserts (trace w))) rows))
        as [error |].
      * exists [rows]. simpl. split; [done|]. split; [by constructor|].
        split; [lia | done].
      * match goal with
        | |- context [save_groups rt selectedCourse rest ?t ?w1] =>
            destruct (IH t w1) as (batches & Hworld & Hall & Hlen & Hret)
        end.
        exists (rows :: batches). rewrite Hworld. cbn [keyUsageCount pageMemory trace].
        split; [by rewrite <- app_assoc|]. split; [by constructor|].
        split; [simpl; lia|]. intros n Hn. simpl. f_equal. by apply (Hret n).
Qed.

(** X17. What [saveAllToDatabase] can do. It never throws. It sends to
    storage at most one batch per page number, each of them not empty and
    made of valid, uncategorized rows of the selected course, and then
    shows exactly one notice. Either it asked for a course and changed
    nothing; or a save failed, and the questions, the uploads and the
    selection are kept, whatever was stored before the failure; or every
    page sent a batch, and the state is cleared. *)
Theorem saveAllToDatabase_outcomes (rt : runtime) (st : ui) (w : world) :
  ∃ st' batches notice,
    saveAllToDatabase rt st w
      = (Return st',
         World (keyUsageCount w) (pageMemory w)
               (trace w ++ (Insert <$> batches) ++ [Report notice])) ∧
    Forall (clean_batch (selectedCourse st)) batches ∧
    (length batches ≤ length (questionsByYear (extractedQuestions st)))%nat ∧
    ((notice = SelectCourseFirst ∧ st' = st ∧ batches = [] ∧
      (selectedCourse st = [] ∨ extractedQuestions st = [])) ∨
     (∃ error, notice = SaveFailed error ∧ st' = idle st) ∨
     (∃ totalSaved, notice = SaveSucceeded totalSaved ∧ st' = cleared ∧
        length batches = length (questionsByYear (extractedQuestions st)))).
Proof.
  unfold saveAllToDatabase.
  destruct (jseqb (selectedCourse st) [] || (length (extractedQuestions st) =? 0)%nat)
    eqn:Hguard.
  - exists st, [], SelectCourseFirst. split; [done|]. split; [constructor|].
    split; [simpl; lia|]. left. split; [done|]. split; [done|]. split; [done|].
    apply orb_prop in Hguard as [Hcourse | Hnone].
    + left. unfold jseqb in Hcourse. by apply bool_decide_eq_true in Hcourse.
    + right. apply Nat.eqb_eq in Hnone. by apply length_zero_iff_nil.
  - destruct (save_groups_effect rt (selectedCourse st)
                (questionsByYear (extractedQuestions st)) 0%nat w)
      as (batches & Hworld & Hall & Hlen & Hret).
    unfold bind, try_catch, report, emit, ret.
    destruct (save_groups rt (selectedCourse st)
                (questionsByYear (extractedQuestions st)) 0%nat w)
      as [[totalSaved | error] w1] eqn:Hrun; simpl in Hworld; subst w1.
    + exists cleared, batches, (SaveSucceeded totalSaved).
      cbn [keyUsageCount pageMemory trace selectedExam selectedCourse pdfUploads
           extractedQuestions].
      split; [by rewrite <- app_assoc|]. split; [exact Hall|]. split; [exact Hlen|].
      right. right. exists totalSaved. split; [done|]. split; [done|].
      by apply (Hret totalSaved).
    + exists (idle st), batches, (SaveFailed error).
      cbn [keyUsageCount pageMemory trace].
      split; [by rewrite <- app_assoc|]. split; [exact Hall|]. split; [exact Hlen|].
      right. left. by exists error.
Qed.

End SaveMore.

(* ===================================================================== *)
(** ** Whole runs: page order and call budget *)
(* ===================================================================== *)

Module RunFacts.
Import Pool Json Decoder Runtime Gemini Scanner Steps DecoderSpec OrchestratorSpec.
Import DecoderFacts DecoderClaims ExecutorFacts OrchestratorClaims.
Import RefJson Scenarios MoreSpec MoreScenarios ExecutorBounds.

Lemma stamped_on_page pageNumber q q' : stamped pageNumber q q' → on_page pageNumber q'.
Proof. intros (props & -> & Hpage & _). by exists props. Qed.

Lemma parse_and_stamp_on_page rt pageNumber candidate questions :
  parse_and_stamp rt pageNumber candidate = inr questions →
  Forall (on_page pageNumber) questions.
Proof.
  intros (items & _ & Hall)%parse_and_stamp_inr.
  induction Hall as [| q q' qs qs' Hq _ IH]; constructor; [|exact IH].
  by apply stamped_on_page in Hq.
Qed.

Lemma decode_without_repair_on_page rt pageNumber text :
  Forall (on_page pageNumber) (decode_without_repair rt pageNumber text).
Proof.
  unfold decode_without_repair. destruct (locate text) as [candidate |]; [|constructor].
  destruct (parse_and_stamp rt pageNumber candidate) as [e | questions] eqn:E;
    [constructor|].
  by apply parse_and_stamp_on_page in E.
Qed.

Lemma decode_with_one_repair_on_page rt pageNumber text :
  Forall (on_page pageNumber) (decode_with_one_repair rt pageNumber text).
Proof.
  unfold decode_with_one_repair. destruct (locate text) as [candidate |]; [|constructor].
  destruct (parse_and_stamp rt pageNumber candidate) as [e | questions] eqn:E.
  - destruct (parse_and_stamp rt pageNumber (fixJson candidate))
      as [e2 | questions] eqn:E2; [constructor|].
    by apply parse_and_stamp_on_page in E2.
  - by apply parse_and_stamp_on_page in E.
Qed.

Lemma extractQuestionsWithContext_attempt_return rt imageBase64 pageNumber
    sharedDescriptions previousQuestions w questions w1 :
  extractQuestionsWithContext_attempt rt imageBase64 pageNumber
    sharedDescriptions previousQuestions w = (Return questions, w1) →
  ∃ text, questions = decode_with_one_repair rt pageNumber text.
Proof.
  unfold extractQuestionsWithContext_attempt, bind at 1, acquire at 1.
  unfold getNextApiKey. cbn beta iota zeta.
  destruct (recentContext rt previousQuestions) as [e0 | recent].
  - unfold lift, bind, throw. done.
  - unfold lift, bind at 1, ret at 1. cbn beta iota zeta.
    unfold bind at 1, generate at 1. cbn [trace keyUsageCount pageMemory].
    destruct (generateContent rt _ _) as [e0 | text]; [done|].
    match goal with
    | |- context [extractQuestionsWithContext_decode ?r ?p ?t ?w0] =>
        destruct (extractQuestionsWithContext_decode_reports r p t w0) as (ds & ->)
    end.
    intros [= <- <-]. by exists text.
Qed.

Lemma extractQuestionsWithContext_loop_on_page rt maxRetries imageBase64 pageNumber
    sharedDescriptions previousQuestions :
  ∀ remaining retryCount w questions w',
  extractQuestionsWithContext_loop rt maxRetries remaining retryCount imageBase64
    pageNumber sharedDescriptions previousQuestions w = (Return questions, w') →
  Forall (on_page pageNumber) questions.
Proof.
  induction remaining as [| remaining IH]; intros retryCount w questions w'.
  - cbn [extractQuestionsWithContext_loop]. done.
  - destruct (extractQuestionsWithContext_attempt rt imageBase64 pageNumber
                sharedDescriptions previousQuestions w) as [[a | e] w1] eqn:Hatt.
    + cbn [extractQuestionsWithContext_loop]. unfold try_catch. rewrite Hatt.
      intros [= <- <-].
      apply extractQuestionsWithContext_attempt_return in Hatt as (text & ->).
      apply decode_with_one_repair_on_page.
    + rewrite (extractQuestionsWithContext_loop_throw _ _ _ _ _ _ _ _ _ _ _ Hatt).
      destruct (is_rate_limit e); [|done].
      destruct (S retryCount <? maxRetries)%nat; [|done].
      apply IH.
Qed.

Lemma performExtraction_on_page rt imageBase64 pageNumber previousContext
    w questions w' :
  performExtraction rt imageBase64 pageNumber previousContext w
    = (Return questions, w') →
  Forall (on_page pageNumber) questions.
Proof.
  unfold performExtraction. intros Hrun.
  apply performExtraction_loop_memory in Hrun as (text & _ & -> & _).
  apply decode_without_repair_on_page.
Qed.

Lemma second_pass_runs_on_page rt images startPageNumber sharedDescriptions
    i todo allQuestions w contributions w' :
  second_pass_runs rt images startPageNumber sharedDescriptions
    i todo allQuestions w contributions w' →
  ∀ k questions, contributions !! k = Some questions →
    Forall (on_page (startPageNumber + N.of_nat (i + k))) questions.
Proof.
  induction 1 as [| i image later allQuestions w questions w1 contributions w'
                    Hpage _ IH
                  | i image later allQuestions w error w1 contributions w' _ _ IH];
    intros k qs Hk.
  - done.
  - destruct k as [| k].
    + injection Hk as <-. rewrite Nat.add_0_r.
      by apply extractQuestionsWithContext_loop_on_page in Hpage.
    + replace (i + S k)%nat with (S i + k)%nat by lia. by apply IH.
  - destruct k as [| k].
    + injection Hk as <-. constructor.
    + replace (i + S k)%nat with (S i + k)%nat by lia. by apply IH.
Qed.

Lemma scan_runs_on_page rt images i todo pdfQuestions previousContext w
    contributions w' :
  scan_runs rt images i todo pdfQuestions previousContext w contributions w' →
  ∀ k questions, contributions !! k = Some questions →
    Forall (on_page (N.of_nat (i + k) + 1)) questions.
Proof.
  induction 1 as [| i image later pdfQuestions previousContext w questions w1
                    contributions w' Hpage _ IH
                  | i image later pdfQuestions previousContext w pageError w1
                    contributions w' _ _ IH];
    intros k qs Hk.
  - done.
  - destruct k as [| k].
    + injection Hk as <-. rewrite Nat.add_0_r.
      by apply performExtraction_on_page in Hpage.
    + replace (i + S k)%nat with (S i + k)%nat by lia. by apply IH.
  - destruct k as [| k].
    + injection Hk as <-. constructor.
    + replace (i + S k)%nat with (S i + k)%nat by lia. by apply IH.
Qed.

(** X18. The questions of a run come in page order. Both orchestrators
    return, whatever the model does, and what they return is the
    concatenation of one contribution per page, in page order, where
    every record of the contribution of a page carries the number of that
    page: [startPageNumber + i] in [enhancedQuestionExtraction], [i + 1]
    in the page loop of [scanAndExtractQuestions]. *)
Theorem questions_come_in_page_order (rt : runtime) (images : list jsstring)
    (startPageNumber : N) (w : world) :
  (∃ contributions,
     (enhancedQuestionExtraction rt images startPageNumber w).1
       = Return (concat contributions) ∧
     length contributions = length images ∧
     ∀ i questions, contributions !! i = Some questions →
       Forall (on_page (startPageNumber + N.of_nat i)) questions) ∧
  (∃ contributions,
     (scan_pdf rt images w).1 = Return (concat contributions) ∧
     length contributions = length images ∧
     ∀ i questions, contributions !! i = Some questions →
       Forall (on_page (N.of_nat i + 1)) questions).
Proof.
  split.
  - unfold enhancedQuestionExtraction, bind.
    destruct (first_pass_decomposes rt images startPageNumber images 0 ∅ w)
      as (sharedDescriptions & w1 & _ & ->).
    destruct (second_pass_decomposes rt images startPageNumber sharedDescriptions
                images 0 [] w1) as (contributions & w' & Hruns & Hlen & ->).
    exists contributions. split; [done|]. split; [exact Hlen|].
    intros i questions Hi.
    exact (second_pass_runs_on_page _ _ _ _ _ _ _ _ _ _ Hruns i questions Hi).
  - unfold scan_pdf, bind, fresh_memory.
    destruct (scan_pages_decomposes rt images images 0 [] []
                (World (keyUsageCount w) [] (trace w)))
      as (contributions & w' & Hruns & Hlen & ->).
    exists contributions. split; [done|]. split; [exact Hlen|].
    intros i questions Hi.
    exact (scan_runs_on_page _ _ _ _ _ _ _ _ _ Hruns i questions Hi).
Qed.

Ltac page_budget :=
  unfold paused in *;
  repeat match goal with
         | |- context [(?i <? ?n)%nat] => destruct (Nat.ltb_spec i n)
         | H : context [(?i <? ?n)%nat] |- _ => destruct (Nat.ltb_spec i n)
         end;
  count_norm; lia.

Lemma first_pass_runs_budget rt images startPageNumber i todo sharedDescriptions
    w final w' :
  first_pass_runs rt images startPageNumber i todo sharedDescriptions w final w' →
  (i + length todo = length images)%nat →
  (length (calls (trace w'))
     ≤ length (calls (trace w)) + length todo * length (API_KEYS rt))%nat ∧
  (length (delays (trace w'))
     ≤ length (delays (trace w)) + length todo * (length (API_KEYS rt) - 1)
       + (length todo - 1))%nat.
Proof.
  induction 1 as [| i image later sharedDescriptions w pageAnalysis w1 description
                    final w' Hpage _ _ IH
                  | i image later sharedDescriptions w error w1 final w' Hpage _ IH];
    intros Hlen.
  - simpl. lia.
  - apply analyzePageStructure_loop_within in Hpage; [|lia].
    cbn [length] in Hlen. destruct IH as [Hc Hd]; [lia|].
    cbn [length]. page_budget.
  - assert (Hwithin : within (length (API_KEYS rt)) w w1).
    { destruct Hpage as [Hpage | (pageAnalysis & Hpage & _)];
        apply analyzePageStructure_loop_within in Hpage; done || lia. }
    cbn [length] in Hlen. destruct IH as [Hc Hd]; [lia|].
    cbn [length]. page_budget.
Qed.

Lemma second_pass_runs_budget rt images startPageNumber sharedDescriptions
    i todo allQuestions w contributions w' :
  second_pass_runs rt images startPageNumber sharedDescriptions
    i todo allQuestions w contributions w' →
  (i + length todo = length images)%nat →
  (length (calls (trace w'))
     ≤ length (calls (trace w)) + length todo * length (API_KEYS rt))%nat ∧
  (length (delays (trace w'))
     ≤ length (delays (trace w)) + length todo * (length (API_KEYS rt) - 1)
       + (length todo - 1))%nat.
Proof.
  induction 1 as [| i image later allQuestions w questions w1 contributions w'
                    Hpage _ IH
                  | i image later allQuestions w error w1 contributions w' Hpage _ IH];
    intros Hlen.
  - simpl. lia.
  - apply extractQuestionsWithContext_loop_within in Hpage as [Hpage _]; [|lia].
    cbn [length] in Hlen. destruct IH as [Hc Hd]; [lia|].
    cbn [length]. page_budget.
  - apply extractQuestionsWithContext_loop_within in Hpage as [Hpage _]; [|lia].
    cbn [length] in Hlen. destruct IH as [Hc Hd]; [lia|].
    cbn [length]. page_budget.
Qed.

Lemma scan_runs_budget rt images i todo pdfQuestions previousContext w
    contributions w' :
  scan_runs rt images i todo pdfQuestions previousContext w contributions w' →
  (i + length todo = length images)%nat →
  (length (calls (trace w'))
     ≤ length (calls (trace w)) + length todo * length (API_KEYS rt))%nat ∧
  (length (delays (trace w'))
     ≤ length (delays (trace w)) + length todo * (length (API_KEYS rt) - 1)
       + (length todo - 1))%nat.
Proof.
  induction 1 as [| i image later pdfQuestions previousContext w questions w1
                    contributions w' Hpage _ IH
                  | i image later pdfQuestions previousContext w pageError w1
                    contributions w' Hpage _ IH];
    intros Hlen.
  - simpl. lia.
  - unfold performExtraction in Hpage.
    apply performExtraction_loop_within in Hpage; [|lia].
    cbn [length] in Hlen. destruct IH as [Hc Hd]; [lia|].
    cbn [length]. page_budget.
  - unfold performExtraction in Hpage.
    apply performExtraction_loop_within in Hpage; [|lia].
    cbn [length] in Hlen. destruct IH as [Hc Hd]; [lia|].
    cbn [length]. page_budget.
Qed.

(** X19. The budget of a run. With [n] pages and a pool of [M] keys, the
    page loop of [scanAndExtractQuestions] issues at most [n * M] model
    calls and awaits at most [n * (M - 1) + (n - 1)] timers, and
    [enhancedQuestionExtraction], which visits every page twice, at most
    twice as many of each. *)
Theorem a_run_stays_within_its_budget (rt : runtime) (images : list jsstring)
    (startPageNumber : N) (w : world) :
  let M := length (API_KEYS rt) in
  let n := length images in
  let scanned := (scan_pdf rt images w).2 in
  let extracted := (enhancedQuestionExtraction rt images startPageNumber w).2 in
  (length (calls (trace scanned)) ≤ length (calls (trace w)) + n * M)%nat ∧
  (length (delays (trace scanned))
     ≤ length (delays (trace w)) + n * (M - 1) + (n - 1))%nat ∧
  (length (calls (trace extracted)) ≤ length (calls (trace w)) + 2 * (n * M))%nat ∧
  (length (delays (trace extracted))
     ≤ length (delays (trace w)) + 2 * (n * (M - 1) + (n - 1)))%nat.
Proof.
  cbv zeta.
  assert (Hscan :
    (length (calls (trace (scan_pdf rt images w).2))
       ≤ length (calls (trace w)) + length images * length (API_KEYS rt))%nat ∧
    (length (delays (trace (scan_pdf rt images w).2))
       ≤ length (delays (trace w)) + length images * (length (API_KEYS rt) - 1)
         + (length images - 1))%nat).
  { unfold scan_pdf, bind, fresh_memory.
    destruct (scan_pages_decomposes rt images images 0 [] []
                (World (keyUsageCount w) [] (trace w)))
      as (contributions & w' & Hruns & _ & ->).
    apply scan_runs_budget in Hruns; [|done]. exact Hruns. }
  assert (Hextract :
    (length (calls (trace (enhancedQuestionExtraction rt images startPageNumber w).2))
       ≤ length (calls (trace w)) + 2 * (length images * length (API_KEYS rt)))%nat ∧
    (length (delays (trace (enhancedQuestionExtraction rt images startPageNumber w).2))
       ≤ length (delays (trace w))
         + 2 * (length images * (length (API_KEYS rt) - 1) + (length images - 1)))%nat).
  { unfold enhancedQuestionExtraction, bind.
    destruct (first_pass_decomposes rt images startPageNumber images 0 ∅ w)
      as (sharedDescriptions & w1 & Hfirst & ->).
    destruct (second_pass_decomposes rt images startPageNumber sharedDescriptions
                images 0 [] w1) as (contributions & w' & Hsecond & _ & ->).
    apply first_pass_runs_budget in Hfirst; [|done].
    apply second_pass_runs_budget in Hsecond; [|done].
    cbn [snd]. lia. }
  destruct Hscan as [? ?], Hextract as [? ?]. done.
Qed.

Lemma store_description_kept pageNum description sharedDescriptions :
  store_description pageNum description sharedDescriptions
  = match kept_description description with
    | Some d => <[pageNum := d]> sharedDescriptions
    | None => sharedDescriptions
    end.
Proof.
  unfold store_description, kept_description.
  destruct description as [d |]; [|done]. by destruct (truthy (Some d)).
Qed.

Lemma kept_description_truthy description d :
  kept_description description = Some d → truthy (Some d) = true.
Proof.
  unfold kept_description. destruct (truthy description) eqn:E; [|done].
  by intros ->.
Qed.

Lemma first_pass_keeps_decomposes rt images startPageNumber todo :
  ∀ i sharedDescriptions w,
  ∃ kept final w',
    first_pass_keeps rt images startPageNumber i todo w kept w' ∧
    length kept = length todo ∧
    Forall (λ outcome, ∀ d, outcome = Some d → truthy (Some d) = true) kept ∧
    first_pass rt images startPageNumber i todo sharedDescriptions w
      = (Return final, w') ∧
    (∀ k outcome, kept !! k = Some outcome →
       final !! (startPageNumber + N.of_nat (i + k))
       = match outcome with
         | Some d => Some d
         | None => sharedDescriptions !! (startPageNumber + N.of_nat (i + k))
         end) ∧
    (∀ p, (∀ k, (k < length todo)%nat → p ≠ startPageNumber + N.of_nat (i + k)) →
       final !! p = sharedDescriptions !! p).
Proof.
  induction todo as [| image later IH]; intros i sharedDescriptions w.
  - exists [], sharedDescriptions, w. split; [constructor|]. split; [done|].
    split; [constructor|]. split; [done|]. split; [by intros k outcome ?|done].
  - assert (Hstep : ∀ outcome w1,
              (∃ kept final w',
                 first_pass_keeps rt images startPageNumber (S i) later w1 kept w' ∧
                 length kept = length later ∧
                 Forall (λ o, ∀ d, o = Some d → truthy (Some d) = true) kept ∧
                 first_pass rt images startPageNumber (S i) later
                   (match outcome with
                    | Some d => <[startPageNumber + N.of_nat i := d]> sharedDescriptions
                    | None => sharedDescriptions
                    end) w1 = (Return final, w') ∧
                 (∀ k o, (outcome :: kept) !! k = Some o →
                    final !! (startPageNumber + N.of_nat (i + k))
                    = match o with
                      | Some d => Some d
                      | None => sharedDescriptions
                                  !! (startPageNumber + N.of_nat (i + k))
                      end) ∧
                 (∀ p, (∀ k, (k < S (length later))%nat →
                          p ≠ startPageNumber + N.of_nat (i + k)) →
                    final !! p = sharedDescriptions !! p))).
    { intros outcome w1.
      destruct (IH (S i)
                  (match outcome with
                   | Some d => <[startPageNumber + N.of_nat i := d]> sharedDescriptions
                   | None => sharedDescriptions
                   end) w1)
        as (kept & final & w' & Hruns & Hlen & Htruthy & Hrun & Hpages & Hother).
      exists kept, final, w'. split; [exact Hruns|]. split; [exact Hlen|].
      split; [exact Htruthy|]. split; [exact Hrun|].
      assert (Hlater : ∀ p, p ≠ startPageNumber + N.of_nat i →
                match outcome with
                | Some d => <[startPageNumber + N.of_nat i := d]> sharedDescriptions
                | None => sharedDescriptions
                end !! p = sharedDescriptions !! p).
      { intros p Hp. destruct outcome as [d |]; [|done].
        by rewrite lookup_insert_ne. }
      split.
      - intros [| k] o Hk.
        + injection Hk as <-. rewrite Nat.add_0_r.
          rewrite Hother by (intros k _; lia).
          destruct outcome as [d |]; [|done]. by rewrite lookup_insert_eq.
        + simpl in Hk. replace (i + S k)%nat with (S i + k)%nat by lia.
          rewrite (Hpages k o Hk). destruct o as [d |]; [done|].
          apply Hlater. lia.
      - intros p Hp. rewrite Hother.
        + apply Hlater. specialize (Hp 0%nat ltac:(lia)).
          by rewrite Nat.add_0_r in Hp.
        + intros k Hk. replace (S i + k)%nat with (i + S k)%nat by lia.
          apply Hp. lia. }
    cbn [first_pass]. unfold bind at 1, try_catch, bind at 1.
    destruct (analyzePageStructure rt image (startPageNumber + N.of_nat i)
                (previous_image images i) (next_image images i) w)
      as [[pageAnalysis | error] w1] eqn:Hpage.
    + unfold bind at 1, lift.
      destruct (get_member (type_error rt) pageAnalysis (js "sharedDescription"))
        as [error | description] eqn:Hmember.
      * unfold throw at 1, bind at 1, report, emit, ret at 1.
        cbn [trace keyUsageCount pageMemory].
        destruct (Hstep None
                    (reported (FirstPassError (startPageNumber + N.of_nat i) error) w1))
          as (kept & final & w' & Hruns & Hlen & Htruthy & Hrun & Hpages & Hother).
        exists (None :: kept), final, w'. split.
        { eapply first_pass_keeps_failed; [|exact Hruns]. right.
          by exists pageAnalysis. }
        split; [simpl; by rewrite Hlen|]. split; [by constructor|]. done.
      * unfold ret at 1, bind at 1. rewrite pause_unless_last_paused.
        unfold ret at 1. rewrite store_description_kept.
        destruct (Hstep (kept_description description) (paused images i 5000 w1))
          as (kept & final & w' & Hruns & Hlen & Htruthy & Hrun & Hpages & Hother).
        exists (kept_description description :: kept), final, w'. split.
        { by eapply first_pass_keeps_returned. }
        split; [simpl; by rewrite Hlen|]. split; [|done].
        constructor; [|exact Htruthy]. intros d. apply kept_description_truthy.
    + unfold bind at 1, report, emit, ret at 1.
      cbn [trace keyUsageCount pageMemory].
      destruct (Hstep None
                  (reported (FirstPassError (startPageNumber + N.of_nat i) error) w1))
        as (kept & final & w' & Hruns & Hlen & Htruthy & Hrun & Hpages & Hother).
      exists (None :: kept), final, w'. split.
      { eapply first_pass_keeps_failed; [|exact Hruns]. by left. }
      split; [simpl; by rewrite Hlen|]. split; [by constructor|]. done.
Qed.

(** X22. The shared descriptions of the first pass. The first pass of
    [enhancedQuestionExtraction] always returns, and the map it returns
    holds, for every page of the run, exactly what the analysis of that
    page left: the description, when the analysis returned a truthy one,
    and no entry when the analysis threw, could not be read, or reported
    no description or a falsy one. It has no entry for any other page.
    For a page without entry the prompt of the second pass says that no
    shared description was found. *)
Theorem shared_descriptions_belong_to_pages (rt : runtime) (images : list jsstring)
    (startPageNumber : N) (w : world) :
  ∃ kept sharedDescriptions w',
    first_pass_keeps rt images startPageNumber 0 images w kept w' ∧
    length kept = length images ∧
    first_pass rt images startPageNumber 0 images ∅ w
      = (Return sharedDescriptions, w') ∧
    (∀ i outcome, kept !! i = Some outcome →
       sharedDescriptions !! (startPageNumber + N.of_nat i) = outcome) ∧
    (∀ p, (∀ i, (i < length images)%nat → p ≠ startPageNumber + N.of_nat i) →
       sharedDescriptions !! p = None) ∧
    (∀ p d, sharedDescriptions !! p = Some d →
       truthy (Some d) = true ∧
       ∃ i, (i < length images)%nat ∧ p = startPageNumber + N.of_nat i) ∧
    (∀ i, kept !! i = Some None →
       shared_description_text rt (sharedDescriptions !! (startPageNumber + N.of_nat i))
       = js "No shared description found").
Proof.
  destruct (first_pass_keeps_decomposes rt images startPageNumber images 0 ∅ w)
    as (kept & sharedDescriptions & w' & Hruns & Hlen & Htruthy & Hrun & Hpages
        & Hother).
  assert (Hpage : ∀ i outcome, kept !! i = Some outcome →
            sharedDescriptions !! (startPageNumber + N.of_nat i) = outcome).
  { intros i outcome Hi. rewrite <- (Nat.add_0_l i) at 1.
    rewrite (Hpages i outcome Hi). destruct outcome; [done|].
    apply lookup_empty. }
  assert (Hnone : ∀ p,
            (∀ i, (i < length images)%nat → p ≠ startPageNumber + N.of_nat i) →
            sharedDescriptions !! p = None).
  { intros p Hp. rewrite Hother; [apply lookup_empty|]. intros k Hk. by apply Hp. }
  exists kept, sharedDescriptions, w'.
  split; [exact Hruns|]. split; [exact Hlen|]. split; [exact Hrun|].
  split; [exact Hpage|]. split; [exact Hnone|]. split.
  - intros p d Hp.
    destruct (decide (startPageNumber ≤ p
                      ∧ (N.to_nat (p - startPageNumber) < length images)%nat))
      as [[Hge Hlt] | Hout].
    + assert (Hp' : p = startPageNumber + N.of_nat (N.to_nat (p - startPageNumber)))
        by lia.
      destruct (lookup_lt_is_Some_2 kept (N.to_nat (p - startPageNumber))
                  ltac:(lia)) as [outcome Hi].
      pose proof (Hpage _ _ Hi) as Hentry. rewrite <- Hp', Hp in Hentry.
      split; [|by eexists].
      rewrite Forall_forall in Htruthy.
      apply (Htruthy outcome); [|done].
      by apply list_elem_of_lookup_2 in Hi.
    + rewrite Hnone in Hp; [done|]. intros i Hi ->. apply Hout. split; [lia|].
      replace (startPageNumber + N.of_nat i - startPageNumber) with (N.of_nat i)
        by lia.
      by rewrite Nat2N.id.
  - intros i Hi. by rewrite (Hpage i None Hi).
Qed.

End RunFacts.

(* ===================================================================== *)
(** ** The fence fallback of the decoder *)
(* ===================================================================== *)

Module FenceFacts.
Import Pool Json Decoder Runtime Gemini Steps DecoderSpec DecoderFacts DecoderClaims.
Import RefJson Scenarios MoreSpec MoreScenarios DecoderMore.

Lemma bracket_pair_skip opened x r :
  x ≠ 91 → x ≠ 93 → bracket_pair opened (x :: r) = bracket_pair opened r.
Proof.
  intros H91 H93. simpl.
  destruct (N.eqb_spec x 93); [done|]. destruct (N.eqb_spec x 91); [done|].
  by rewrite andb_false_r, orb_false_r.
Qed.

Lemma bracket_pair_opened s : bracket_pair true s = true ↔ 93 ∈ s.
Proof.
  induction s as [| x s IH]; simpl.
  - split; [done | by intros ?%elem_of_nil].
  - destruct (N.eqb_spec x 93) as [-> | Hne].
    + split; [|done]. intros _. apply elem_of_cons. by left.
    + rewrite IH. split.
      * intros H. apply elem_of_cons. by right.
      * intros [Heq | H]%elem_of_cons; [congruence | done].
Qed.

Lemma bracket_pair_from_first s :
  bracket_pair false s
  = match from_first 91 s with
    | Some (_ :: r) => bracket_pair true r
    | _ => false
    end.
Proof.
  induction s as [| x s IH]; [done|]. simpl.
  destruct (x =? 91); [done | exact IH].
Qed.

Lemma match_array_bracket_pair s :
  is_Some (match_array s) ↔ bracket_pair false s = true.
Proof.
  rewrite bracket_pair_from_first. unfold match_array, match_span.
  destruct (from_first 91 s) as [[| x r] |].
  - split; [by intros [? ?] | done].
  - rewrite bracket_pair_opened. rewrite fmap_is_Some. split.
    + intros [p Hp]. apply through_last_Some in Hp as (mid & post & -> & _).
      apply elem_of_app. right. apply elem_of_cons. by left.
    + apply through_last_is_Some.
  - split; [by intros [? ?] | done].
Qed.

Lemma escape_char_brackets c x s : ∀ opened,
  c ≠ 91 → c ≠ 93 → x ≠ 91 → x ≠ 93 →
  bracket_pair opened (escape_char c x s) = bracket_pair opened s.
Proof.
  intros opened Hc1 Hc2 Hx1 Hx2. revert opened.
  unfold escape_char. induction s as [| a s IH]; intros opened; [done|].
  cbn [mbind list_bind]. destruct (N.eqb_spec a c) as [-> | Hne].
  - cbn [app]. rewrite !bracket_pair_skip by done. apply IH.
  - cbn [app]. cbn [bracket_pair]. by rewrite IH.
Qed.

Lemma escape_single_backslashes_brackets s : ∀ opened,
  bracket_pair opened (escape_single_backslashes s) = bracket_pair opened s.
Proof.
  induction s as [| a s IH]; intros opened; [done|].
  cbn [escape_single_backslashes].
  destruct (N.eqb_spec a 92) as [-> | Hne]; cbn [andb].
  - destruct (negb _).
    + rewrite !bracket_pair_skip by done. apply IH.
    + rewrite !bracket_pair_skip by done. apply IH.
  - cbn [bracket_pair]. by rewrite IH.
Qed.

Lemma collapse_backslashes_from_brackets s : ∀ skip opened,
  (skip ≤ backslash_run s)%nat →
  bracket_pair opened (collapse_backslashes_from skip s) = bracket_pair opened s.
Proof.
  induction s as [| a s IH]; intros skip opened Hskip; [done|].
  cbn [collapse_backslashes_from backslash_run] in *.
  destruct (N.eqb_spec a 92) as [-> | Hne].
  - destruct skip as [| k].
    + destruct (Nat.leb_spec 4 (S (backslash_run s))).
      * cbn [app]. rewrite !bracket_pair_skip by done. apply IH. lia.
      * rewrite !bracket_pair_skip by done. apply IH. lia.
    + rewrite bracket_pair_skip by done. apply IH. lia.
  - destruct skip as [| k]; [|lia]. cbn [Nat.leb].
    cbn [bracket_pair]. rewrite IH by lia. done.
Qed.

Lemma fixJson_brackets s :
  is_Some (match_array (fixJson s)) → is_Some (match_array s).
Proof.
  rewrite !match_array_bracket_pair. unfold fixJson, collapse_backslashes.
  rewrite !escape_char_brackets by done.
  rewrite collapse_backslashes_from_brackets by lia.
  by rewrite escape_single_backslashes_brackets.
Qed.

Lemma match_array_inside front s back :
  is_Some (match_array s) → is_Some (match_array (front ++ s ++ back)).
Proof.
  intros [span Hspan].
  apply match_span_iff in Hspan as (pre & mid & post & -> & -> & _).
  replace (front ++ (pre ++ (91 :: mid ++ [93]) ++ post) ++ back)
    with ((front ++ pre) ++ 91 :: mid ++ 93 :: (post ++ back)).
  - apply match_span_is_Some.
  - rewrite <- !app_assoc. cbn [app]. by rewrite <- !app_assoc.
Qed.

Lemma fenced_interior_has_no_array rt pageNumber text interior :
  arrays_need_brackets rt →
  match_array text = None →
  match_code_block text = Some interior →
  (∀ questions, parse_and_stamp rt pageNumber interior = inr questions →
                questions = []) ∧
  (∀ questions, parse_and_stamp rt pageNumber (fixJson interior) = inr questions →
                questions = []).
Proof.
  intros Hparser Hnone Hfence.
  assert (Hinside : ¬ is_Some (match_array interior)).
  { intros Hsome.
    apply match_code_block_Some in Hfence as (pre & ws1 & ws2 & post & -> & _).
    apply (match_array_inside (pre ++ fence_json ++ ws1) _ (ws2 ++ fence ++ post))
      in Hsome.
    rewrite <- !app_assoc in Hsome. rewrite Hnone in Hsome. by destruct Hsome. }
  split; intros questions (items & Hparse & _)%parse_and_stamp_inr;
    apply Hparser in Hparse; exfalso; apply Hinside; [done|].
  by apply fixJson_brackets.
Qed.

(** X20. The fence fallback never yields a question. The fenced block is
    looked for only in an answer that has no opening bracket followed by a
    closing one, so what it captures cannot be the text of an array, and
    neither can its repaired form; with a parser that returns arrays only
    for texts with such a pair, as [JSON.parse] does, both extraction
    passes then return the empty list. *)
Theorem fence_fallback_yields_nothing (rt : runtime) (pageNumber : N)
    (text : jsstring) (w : world) :
  arrays_need_brackets rt →
  match_array text = None →
  locate text = match_code_block text ∧
  (performExtraction_decode rt pageNumber text w).1 = Return [] ∧
  (extractQuestionsWithContext_decode rt pageNumber text w).1 = Return [].
Proof.
  intros Hparser Hnone.
  assert (Hlocate : locate text = match_code_block text).
  { unfold locate. by rewrite Hnone. }
  split; [exact Hlocate|].
  destruct (performExtraction_decode_reports rt pageNumber text w) as (ds1 & ->).
  destruct (extractQuestionsWithContext_decode_reports rt pageNumber text w)
    as (ds2 & ->).
  cbn [fst]. unfold decode_without_repair, decode_with_one_repair.
  rewrite Hlocate.
  destruct (match_code_block text) as [interior |] eqn:Hfence; [|done].
  destruct (fenced_interior_has_no_array rt pageNumber text interior
              Hparser Hnone Hfence) as [Hfirst Hsecond].
  destruct (parse_and_stamp rt pageNumber interior) as [e | questions].
  - split; [done|].
    destruct (parse_and_stamp rt pageNumber (fixJson interior)) as [e2 | questions];
      [done|].
    by rewrite (Hsecond questions).
  - by rewrite (Hfirst questions).
Qed.

Lemma skip_ws_suffix s : skip_ws s `suffix_of` s.
Proof.
  induction s as [| c s IH]; [done|]. simpl.
  destruct ((c =? 9) || (c =? 10) || (c =? 13) || (c =? 32)); [|done].
  by apply suffix_cons_r.
Qed.

Ltac by_bits c :=
  let p := fresh "p" in
  destruct c as [| p];
  repeat match goal with
         | |- context [match ?q with xI _ => _ | xO _ => _ | xH => _ end] =>
             is_var q; destruct q
         end.

Ltac string_rest IH :=
  match goal with
  | |- context [parse_string_body ?r] =>
      let E := fresh "E" in
      destruct (parse_string_body r) as [[? ?] |] eqn:E; [|done];
      intros [= <- <-]; apply IH in E; [|simpl in *; lia];
      repeat apply suffix_cons_r; exact E
  end.

Lemma parse_string_body_suffix n : ∀ s body rest,
  (length s ≤ n)%nat →
  parse_string_body s = Some (body, rest) → rest `suffix_of` s.
Proof.
  induction n as [| n IH]; intros s body rest Hlen.
  - destruct s; [done | simpl in Hlen; lia].
  - destruct s as [| c r]; [done|]. simpl in Hlen.
    cbn [parse_string_body]. by_bits c.
    all: cbn [parse_string_body].
    all: try (destruct (_ <? 32); [done|]; string_rest IH).
    + intros [= <- <-]. by apply suffix_cons_r.
    + destruct r as [| e r0]; [done|]. simpl in Hlen.
      repeat (destruct (e =? _); [string_rest IH|]).
      destruct (e =? 117); [|done].
      destruct r0 as [| a [| b [| c [| d r']]]]; try done.
      destruct (hex_value a), (hex_value b), (hex_value c), (hex_value d);
        try done.
      string_rest IH.
Qed.

Lemma read_decimal_suffix s : ∀ acc len, (read_decimal s acc len).2 `suffix_of` s.
Proof.
  induction s as [| c s IH]; intros acc len; [done|]. simpl.
  destruct (is_digit c); [|done]. apply suffix_cons_r. apply IH.
Qed.

Lemma number_sign_suffix (s : jsstring) :
  (match s with 45 :: r => ((-1)%Z, r) | _ => (1%Z, s) end).2 `suffix_of` s.
Proof.
  destruct s as [| c r]; [done|].
  by_bits c; cbn [snd]; try done; by apply suffix_cons_r.
Qed.

Lemma exponent_sign_suffix (r : jsstring) :
  (match r with
   | 45 :: r' => ((-1)%Z, r')
   | 43 :: r' => (1%Z, r')
   | _ => (1%Z, r)
   end).2 `suffix_of` r.
Proof.
  destruct r as [| c r]; [done|].
  by_bits c; cbn [snd]; try done; by apply suffix_cons_r.
Qed.

Lemma number_fraction_suffix (int : Z) (after_int : jsstring) m len after_frac :
  match after_int with
  | 46 :: r =>
      let '(m, len, rest) := read_decimal r int 0 in
      if (len =? 0)%nat then None else Some (m, len, rest)
  | _ => Some (int, O, after_int)
  end = Some (m, len, after_frac) →
  after_frac `suffix_of` after_int.
Proof.
  destruct after_int as [| c r]; [by intros [= <- <- <-]|].
  by_bits c; try (by intros [= <- <- <-]).
  pose proof (read_decimal_suffix r int 0) as Hrest.
  destruct (read_decimal r int 0) as [[m' len'] rest]. cbn [snd] in Hrest.
  destruct (len' =? 0)%nat; [done|]. intros [= <- <- <-]. by apply suffix_cons_r.
Qed.

Lemma number_exponent_suffix (after_frac : jsstring) e rest :
  match after_frac with
  | x :: r0 =>
      if (x =? 101) || (x =? 69) then
        let esigned :=
          match r0 with
          | 45 :: r' => ((-1)%Z, r')
          | 43 :: r' => (1%Z, r')
          | _ => (1%Z, r0)
          end in
        let '(e, len, rest) := read_decimal esigned.2 0 0 in
        if (len =? 0)%nat then None else Some ((esigned.1 * e)%Z, rest)
      else Some (0%Z, after_frac)
  | [] => Some (0%Z, after_frac)
  end = Some (e, rest) → rest `suffix_of` after_frac.
Proof.
  destruct after_frac as [| x r0]; [by intros [= <- <-]|].
  destruct ((x =? 101) || (x =? 69)); [|by intros [= <- <-]].
  cbv zeta. pose proof (exponent_sign_suffix r0) as Hes.
  match goal with
  | |- context [read_decimal (?t).2 0%Z 0%nat] => destruct t as [esign ebody]
  end.
  cbn [fst snd] in *.
  pose proof (read_decimal_suffix ebody 0 0) as Hdigits.
  destruct (read_decimal ebody 0 0) as [[e' len'] rest']. cbn [snd] in Hdigits.
  destruct (len' =? 0)%nat; [done|]. intros [= <- <-].
  apply suffix_cons_r. by etrans.
Qed.

Lemma parse_number_inv s v r :
  parse_number s = Some (v, r) → r `suffix_of` s ∧ ∃ m e, v = JNum m e.
Proof.
  unfold parse_number.
  match goal with
  | |- context [read_decimal (?t).2 0%Z 0%nat] =>
      pose proof (number_sign_suffix s : t.2 `suffix_of` s) as Hsign;
      destruct t as [sign body]
  end.
  cbn [fst snd] in *.
  pose proof (read_decimal_suffix body 0 0) as Hint.
  destruct (read_decimal body 0 0) as [[int int_len] after_int]. cbn [snd] in Hint.
  destruct (_ || _); [done|].
  match goal with
  | |- match ?fp with Some _ => _ | None => _ end = _ → _ =>
      destruct fp as [[[m frac_len] after_frac] |] eqn:Efrac; [|done]
  end.
  apply number_fraction_suffix in Efrac.
  match goal with
  | |- match ?ep with Some _ => _ | None => _ end = _ → _ =>
      destruct ep as [[e rest] |] eqn:Eexp; [|done]
  end.
  apply number_exponent_suffix in Eexp. intros [= <- <-]. split; [|by eauto].
  etrans; [exact Eexp|]. etrans; [exact Efrac|]. by etrans.
Qed.

Lemma expect_inv word v s v' r :
  expect word v s = Some (v', r) → v' = v ∧ r `suffix_of` s.
Proof.
  unfold expect. destruct (starts_with word s); [|done]. intros [= <- <-].
  split; [done|]. exists (take (length word) s). by rewrite take_drop.
Qed.

Lemma suffix_head_elem_of (x : N) l k : x :: l `suffix_of` k → x ∈ k.
Proof.
  intros [front ->]. apply elem_of_app. right. apply elem_of_cons. by left.
Qed.

Lemma suffix_elem_of (x : N) l k : l `suffix_of` k → x ∈ l → x ∈ k.
Proof. intros [front ->] Hx. apply elem_of_app. by right. Qed.

Ltac suffix_chain :=
  repeat first
    [ eassumption
    | reflexivity
    | match goal with
      | H : ?a `suffix_of` ?b |- _ `suffix_of` ?b => (etrans; [|exact H]); clear H
      end
    | apply suffix_cons_r ].

Ltac after_space E H :=
  match type of E with
  | skip_ws ?r = ?l =>
      assert (H : l `suffix_of` r) by (rewrite <- E; apply skip_ws_suffix)
  end.

Lemma parse_value_inv fuel :
  (∀ s v r, parse_value fuel s = Some (v, r) →
     r `suffix_of` s ∧
     ∀ items, v = JArr items → ∃ r0, skip_ws s = 91 :: r0 ∧ 93 ∈ r0) ∧
  (∀ s acc v r, parse_elements fuel s acc = Some (v, r) →
     r `suffix_of` s ∧ 93 ∈ s) ∧
  (∀ s acc v r, parse_members fuel s acc = Some (v, r) →
     r `suffix_of` s ∧ ∃ props, v = JObj props).
Proof.
  induction fuel as [| fuel (IHvalue & IHelements & IHmembers)]; [done|].
  split; [|split].
  - intros s v r. cbn [parse_value].
    pose proof (skip_ws_suffix s) as Hws.
    destruct (skip_ws s) as [| c r0]; [done|].
    destruct (N.eqb_spec c 123) as [-> | _].
    { assert (Hmembers : parse_members fuel r0 [] = Some (v, r) →
                r `suffix_of` s ∧
                ∀ items, v = JArr items →
                  ∃ r1, 123 :: r0 = 91 :: r1 ∧ 93 ∈ r1).
      { intros (Hr & props & ->)%IHmembers. split; [suffix_chain | done]. }
      destruct (skip_ws r0) as [| c1 r1] eqn:E1; [exact Hmembers|].
      after_space E1 H1. by_bits c1; try exact Hmembers.
      intros [= <- <-]. split; [suffix_chain | done]. }
    destruct (N.eqb_spec c 91) as [-> | _].
    { assert (Helements : parse_elements fuel r0 [] = Some (v, r) →
                r `suffix_of` s ∧
                ∀ items, v = JArr items →
                  ∃ r1, 91 :: r0 = 91 :: r1 ∧ 93 ∈ r1).
      { intros (Hr & Hclose)%IHelements. split; [suffix_chain|].
        intros items _. by exists r0. }
      destruct (skip_ws r0) as [| c1 r1] eqn:E1; [exact Helements|].
      after_space E1 H1. by_bits c1; try exact Helements.
      intros [= <- <-]. split.
      - suffix_chain.
      - intros items _. exists r0. split; [done|].
        by apply suffix_head_elem_of in H1. }
    destruct (N.eqb_spec c 34) as [-> | _].
    { destruct (parse_string_body r0) as [[body rest] |] eqn:E; [|done].
      apply (parse_string_body_suffix (length r0)) in E; [|done].
      intros [= <- <-]. split; [suffix_chain | done]. }
    destruct (N.eqb_spec c 116) as [-> | _].
    { intros [-> Hr]%expect_inv. split; [suffix_chain | done]. }
    destruct (N.eqb_spec c 102) as [-> | _].
    { intros [-> Hr]%expect_inv. split; [suffix_chain | done]. }
    destruct (N.eqb_spec c 110) as [-> | _].
    { intros [-> Hr]%expect_inv. split; [suffix_chain | done]. }
    intros (Hr & m & e & ->)%parse_number_inv. split; [suffix_chain | done].
  - intros s acc v r. cbn [parse_elements].
    destruct (parse_value fuel s) as [[v1 r1] |] eqn:Ev; [|done].
    apply IHvalue in Ev as [Hr1 _].
    destruct (skip_ws r1) as [| c2 r2] eqn:E2; [done|].
    after_space E2 H2. by_bits c2; try done.
    + intros [= <- <-]. split; [suffix_chain|].
      apply (suffix_head_elem_of _ r2). suffix_chain.
    + intros (Hr & Hclose)%IHelements. split; [suffix_chain|].
      apply (suffix_elem_of _ r2); [suffix_chain | exact Hclose].
  - intros s acc v r. cbn [parse_members].
    pose proof (skip_ws_suffix s) as Hws.
    destruct (skip_ws s) as [| c r0]; [done|].
    by_bits c; try done.
    destruct (parse_string_body r0) as [[key r1] |] eqn:Ek; [|done].
    apply (parse_string_body_suffix (length r0)) in Ek; [|done].
    destruct (skip_ws r1) as [| c2 r2] eqn:E2; [done|].
    after_space E2 H2. by_bits c2; try done.
    destruct (parse_value fuel r2) as [[v1 r3] |] eqn:Ev; [|done].
    apply IHvalue in Ev as [Hr3 _].
    destruct (skip_ws r3) as [| c4 r4] eqn:E4; [done|].
    after_space E4 H4. by_bits c4; try done.
    + intros [= <- <-]. split; [suffix_chain | by eexists].
    + intros (Hr & props & ->)%IHmembers. split; [suffix_chain | by eexists].
Qed.

Lemma reference_arrays_need_brackets keys model store :
  arrays_need_brackets (runtime_of keys model store).
Proof.
  intros s items. cbn [runtime_of JSON_parse]. unfold reference_parse.
  destruct (parse_value (S (length s)) s) as [[v rest] |] eqn:E; [|done].
  destruct (skip_ws rest); [|done]. intros [= ->].
  destruct (parse_value_inv (S (length s))) as (Hvalue & _ & _).
  apply Hvalue in E as (_ & Harray).
  destruct (Harray items eq_refl) as (r0 & Hopen & Hclose).
  destruct (skip_ws_suffix s) as [front Hs]. rewrite Hopen in Hs.
  apply list_elem_of_split in Hclose as (mid & post & ->).
  rewrite Hs. apply match_span_is_Some.
Qed.

Lemma fence_fallback_yields_nothing_witness :
  match_code_block fenced_object = Some fenced_interior ∧
  (performExtraction_decode (runtime_of [key_a] silent_model accepting_store)
     3 fenced_object empty_world).1 = Return [].
Proof.
  split; [reflexivity|].
  apply (fence_fallback_yields_nothing
           (runtime_of [key_a] silent_model accepting_store) 3 fenced_object
           empty_world).
  - apply reference_arrays_need_brackets.
  - reflexivity.
Defined.

End FenceFacts.

(* ===================================================================== *)
(** ** Which keys a call tries *)
(* ===================================================================== *)

Module KeysTried.
Import Pool Json Decoder Runtime Gemini Steps DecoderSpec DecoderFacts DecoderClaims.
Import PoolFacts ExecutorFacts RefJson Scenarios MoreSpec MoreScenarios.
Import PoolRotation ExecutorBounds.

Lemma next_keys_app keys n a b :
  next_keys keys n (a + b) = next_keys keys n a ++ next_keys keys (n + a) b.
Proof.
  unfold next_keys. rewrite seq_app, fmap_app. f_equal. simpl.
  replace (seq a b) with (Nat.add a <$> seq 0 b)
    by (rewrite fmap_add_seq; f_equal; lia).
  rewrite <- list_fmap_compose.
  apply list_fmap_ext. intros _ j _. simpl. f_equal. lia.
Qed.

Lemma advanced_refl keys n w :
  keyUsageCount w = acquire_n keys n ∅ → advanced keys n 0 w w.
Proof.
  intros Hn. split; [by rewrite Nat.add_0_r|]. exists []. by rewrite app_nil_r.
Qed.

Lemma advanced_trans keys n a b w w1 w2 :
  advanced keys n a w w1 → advanced keys (n + a) b w1 w2 →
  advanced keys n (a + b) w w2.
Proof.
  intros (_ & reqs1 & Hcalls1 & Hkeys1) (Hcounts & reqs2 & Hcalls2 & Hkeys2).
  split; [by rewrite Nat.add_assoc|]. exists (reqs1 ++ reqs2).
  rewrite Hcalls2, Hcalls1, <- app_assoc. split; [done|].
  by rewrite fmap_app, Hkeys1, Hkeys2, next_keys_app.
Qed.

Lemma advanced_logged keys n k w w1 ds :
  advanced keys n k w w1 →
  advanced keys n k w
    (World (keyUsageCount w1) (pageMemory w1) (trace w1 ++ (Report <$> ds))).
Proof.
  intros (Hcounts & reqs & Hcalls & Hkeys). split; [done|]. exists reqs.
  cbn [trace]. by rewrite calls_reports.
Qed.

Lemma advanced_reported keys n k w w1 d :
  advanced keys n k w w1 → advanced keys n k w (reported d w1).
Proof. intros H. exact (advanced_logged keys n k w w1 [d] H). Qed.

Lemma advanced_slept keys n k w w1 ms :
  advanced keys n k w w1 → advanced keys n k w (slept ms w1).
Proof.
  intros (Hcounts & reqs & Hcalls & Hkeys). split; [done|]. exists reqs.
  unfold slept. cbn [trace]. by rewrite calls_timeout.
Qed.

Lemma advanced_called rt p imageBase64 n w :
  keyUsageCount w = acquire_n (API_KEYS rt) n ∅ →
  advanced (API_KEYS rt) n 1 w (called rt p imageBase64 w).
Proof.
  intros Hn. unfold called. split.
  - cbn [keyUsageCount]. rewrite Hn, Nat.add_1_r. by rewrite acquire_n_end.
  - eexists [_]. cbn [trace]. rewrite calls_app. split; [reflexivity|].
    unfold next_keys, nth_acquired. simpl. by rewrite Hn, Nat.add_0_r.
Qed.

Lemma advanced_counts keys n k w w' :
  advanced keys n k w w' → keyUsageCount w' = acquire_n keys (n + k) ∅.
Proof. by intros [H _]. Qed.

Lemma advanced_keys_tried keys n k w w' :
  advanced keys n k w w' → keys_tried w w' = next_keys keys n k.
Proof.
  intros (_ & reqs & Hcalls & Hkeys). unfold keys_tried.
  by rewrite Hcalls, drop_app_length.
Qed.

Lemma analyzePageStructure_loop_advanced rt maxRetries imageBase64 :
  ∀ remaining retryCount w r w' n,
  analyzePageStructure_loop rt maxRetries remaining retryCount imageBase64 w = (r, w') →
  keyUsageCount w = acquire_n (API_KEYS rt) n ∅ →
  ∃ k, (k ≤ remaining)%nat ∧ advanced (API_KEYS rt) n k w w'.
Proof.
  induction remaining as [| remaining IH]; intros retryCount w r w' n.
  - cbn [analyzePageStructure_loop]. intros [= <- <-] Hn.
    exists 0%nat. split; [lia | by apply advanced_refl].
  - intros Hrun Hn.
    pose proof (advanced_called rt StructurePrompt imageBase64 n w Hn) as Hone.
    destruct (analyzePageStructure_attempt rt imageBase64 w) as [[a | e] w1] eqn:Hatt;
      pose proof (analyzePageStructure_attempt_world _ _ _ _ _ Hatt) as ->.
    + cbn [analyzePageStructure_loop] in Hrun. unfold try_catch in Hrun.
      rewrite Hatt in Hrun. injection Hrun as <- <-.
      exists 1%nat. split; [lia | done].
    + rewrite (analyzePageStructure_loop_throw _ _ _ _ _ _ _ _ Hatt) in Hrun.
      destruct (is_rate_limit e).
      * destruct (S retryCount <? maxRetries)%nat.
        -- apply (IH _ _ _ _ (n + 1)%nat) in Hrun as (k & Hk & Hrest).
           ++ exists (1 + k)%nat. split; [lia|].
              eapply advanced_trans; [|exact Hrest].
              by apply advanced_slept, advanced_reported.
           ++ unfold slept, reported. cbn [keyUsageCount].
              by apply advanced_counts in Hone.
        -- injection Hrun as <- <-. exists 1%nat. split; [lia|].
           by apply advanced_reported.
      * injection Hrun as <- <-. exists 1%nat. split; [lia | done].
Qed.

Lemma performExtraction_attempt_advanced rt imageBase64 pageNumber previousContext
    n w r w1 :
  performExtraction_attempt rt imageBase64 pageNumber previousContext w = (r, w1) →
  keyUsageCount w = acquire_n (API_KEYS rt) n ∅ →
  advanced (API_KEYS rt) n 1 w w1.
Proof.
  intros Hatt Hn.
  pose proof (advanced_called rt
                (SinglePassPrompt pageNumber (memoryContext (pageMemory w))
                   previousContext) imageBase64 n w Hn) as Hone.
  destruct r as [questions | e].
  - revert Hatt.
    unfold performExtraction_attempt, bind at 1, acquire at 1.
    unfold getNextApiKey. cbn beta iota zeta.
    unfold bind at 1, recall at 1. cbn beta iota zeta.
    unfold bind at 1, generate at 1. cbn [trace keyUsageCount pageMemory].
    destruct (generateContent rt _ _) as [e0 | text]; [done|].
    unfold bind at 1, remember at 1. cbn [trace keyUsageCount pageMemory].
    match goal with
    | |- context [performExtraction_decode ?r ?p ?t ?w0] =>
        destruct (performExtraction_decode_reports r p t w0) as (ds & ->)
    end.
    intros [= <- <-]. cbn [trace keyUsageCount pageMemory].
    destruct Hone as (Hcounts & reqs & Hcalls & Hkeys). split; [exact Hcounts|].
    exists reqs. unfold called in Hcalls. cbn [trace] in Hcalls. cbn [trace].
    by rewrite calls_reports.
  - by destruct (performExtraction_attempt_throw _ _ _ _ _ _ _ Hatt) as [-> _].
Qed.

Lemma performExtraction_loop_advanced rt maxRetries imageBase64 pageNumber
    previousContext :
  ∀ remaining retryCount w r w' n,
  performExtraction_loop rt maxRetries remaining retryCount imageBase64
    pageNumber previousContext w = (r, w') →
  keyUsageCount w = acquire_n (API_KEYS rt) n ∅ →
  ∃ k, (k ≤ remaining)%nat ∧ advanced (API_KEYS rt) n k w w'.
Proof.
  induction remaining as [| remaining IH]; intros retryCount w r w' n.
  - cbn [performExtraction_loop]. intros [= <- <-] Hn.
    exists 0%nat. split; [lia | by apply advanced_refl].
  - intros Hrun Hn.
    destruct (performExtraction_attempt rt imageBase64 pageNumber previousContext w)
      as [[a | e] w1] eqn:Hatt;
      pose proof (performExtraction_attempt_advanced _ _ _ _ _ _ _ _ Hatt Hn) as Hone.
    + cbn [performExtraction_loop] in Hrun. unfold try_catch in Hrun.
      rewrite Hatt in Hrun. injection Hrun as <- <-.
      exists 1%nat. split; [lia | done].
    + rewrite (performExtraction_loop_throw _ _ _ _ _ _ _ _ _ _ Hatt) in Hrun.
      cbn zeta in Hrun.
      assert (Hnext : ∀ w2, advanced (API_KEYS rt) n 1 w w2 →
                performExtraction_loop rt maxRetries remaining (S retryCount)
                  imageBase64 pageNumber previousContext w2 = (r, w') →
                ∃ k, (k ≤ S remaining)%nat ∧ advanced (API_KEYS rt) n k w w').
      { intros w2 Hw2 Hrest.
        apply (IH _ _ _ _ (n + 1)%nat) in Hrest as (k & Hk & Hrest).
        - exists (1 + k)%nat. split; [lia|]. by eapply advanced_trans.
        - by apply advanced_counts in Hw2. }
      destruct (is_rate_limit e);
        destruct (S retryCount <? maxRetries)%nat;
        destruct (maxRetries <=? S retryCount)%nat;
        try (injection Hrun as <- <-; exists 1%nat; split; [lia|];
             by repeat apply advanced_reported);
        (eapply Hnext; [|exact Hrun];
         by repeat first [apply advanced_slept | apply advanced_reported]).
Qed.

Lemma extractQuestionsWithContext_loop_silent rt maxRetries imageBase64 pageNumber
    sharedDescriptions previousQuestions e :
  recentContext rt previousQuestions = inl e →
  ∀ remaining retryCount w r w' n,
  extractQuestionsWithContext_loop rt maxRetries remaining retryCount imageBase64
    pageNumber sharedDescriptions previousQuestions w = (r, w') →
  keyUsageCount w = acquire_n (API_KEYS rt) n ∅ →
  ∃ k, (k ≤ remaining)%nat ∧ advanced_silently (API_KEYS rt) n k w w'.
Proof.
  intros Hctx.
  assert (Hatt : ∀ w,
            extractQuestionsWithContext_attempt rt imageBase64 pageNumber
              sharedDescriptions previousQuestions w = (Throw e, acquired_only rt w)).
  { intros w. unfold extractQuestionsWithContext_attempt, bind at 1, acquire at 1.
    unfold getNextApiKey. cbn beta iota zeta. by rewrite Hctx. }
  induction remaining as [| remaining IH]; intros retryCount w r w' n.
  - cbn [extractQuestionsWithContext_loop]. intros [= <- <-] Hn.
    exists 0%nat. split; [lia|]. split; [by rewrite Nat.add_0_r | done].
  - rewrite (extractQuestionsWithContext_loop_throw _ _ _ _ _ _ _ _ _ _ _ (Hatt w)).
    intros Hrun Hn.
    assert (Hone : keyUsageCount (acquired_only rt w)
                   = acquire_n (API_KEYS rt) (n + 1) ∅).
    { unfold acquired_only. cbn [keyUsageCount].
      rewrite Hn, Nat.add_1_r. by rewrite acquire_n_end. }
    destruct (is_rate_limit e).
    + destruct (S retryCount <? maxRetries)%nat.
      * apply (IH _ _ _ _ (n + 1)%nat) in Hrun as (k & Hk & Hcounts & Hcalls);
          [|exact Hone].
        exists (1 + k)%nat. split; [lia|]. split; [by rewrite Nat.add_assoc|].
        rewrite Hcalls. unfold slept, reported, acquired_only. cbn [trace].
        by rewrite calls_timeout, calls_report.
      * injection Hrun as <- <-. exists 1%nat. split; [lia|]. split; [exact Hone|].
        unfold reported, acquired_only. cbn [trace]. by rewrite calls_report.
    + injection Hrun as <- <-. exists 1%nat. split; [lia|]. by split.
Qed.

Lemma extractQuestionsWithContext_attempt_advanced rt imageBase64 pageNumber
    sharedDescriptions previousQuestions recent n w r w1 :
  recentContext rt previousQuestions = inr recent →
  extractQuestionsWithContext_attempt rt imageBase64 pageNumber
    sharedDescriptions previousQuestions w = (r, w1) →
  keyUsageCount w = acquire_n (API_KEYS rt) n ∅ →
  advanced (API_KEYS rt) n 1 w w1.
Proof.
  intros Hctx Hatt Hn.
  pose proof (advanced_called rt
                (ContextPrompt pageNumber
                   (shared_description_text rt (sharedDescriptions !! pageNumber))
                   recent) imageBase64 n w Hn) as Hone.
  destruct r as [questions | e].
  - revert Hatt.
    unfold extractQuestionsWithContext_attempt, bind at 1, acquire at 1.
    unfold getNextApiKey. cbn beta iota zeta. rewrite Hctx.
    unfold lift, bind at 1, ret at 1. cbn beta iota zeta.
    unfold bind at 1, generate at 1. cbn [trace keyUsageCount pageMemory].
    destruct (generateContent rt _ _) as [e0 | text]; [done|].
    match goal with
    | |- context [extractQuestionsWithContext_decode ?r ?p ?t ?w0] =>
        destruct (extractQuestionsWithContext_decode_reports r p t w0) as (ds & ->)
    end.
    intros [= <- <-].
    destruct Hone as (Hcounts & reqs & Hcalls & Hkeys). split; [exact Hcounts|].
    exists reqs. unfold called in Hcalls. cbn [trace] in Hcalls. cbn [trace].
    by rewrite calls_reports.
  - destruct (extractQuestionsWithContext_attempt_throw _ _ _ _ _ _ _ _ Hatt)
      as [[Hbad _] | (recent' & Hsame & ->)]; [congruence|].
    rewrite Hctx in Hsame. by injection Hsame as <-.
Qed.

Lemma extractQuestionsWithContext_loop_advanced rt maxRetries imageBase64 pageNumber
    sharedDescriptions previousQuestions recent :
  recentContext rt previousQuestions = inr recent →
  ∀ remaining retryCount w r w' n,
  extractQuestionsWithContext_loop rt maxRetries remaining retryCount imageBase64
    pageNumber sharedDescriptions previousQuestions w = (r, w') →
  keyUsageCount w = acquire_n (API_KEYS rt) n ∅ →
  ∃ k, (k ≤ remaining)%nat ∧ advanced (API_KEYS rt) n k w w'.
Proof.
  intros Hctx.
  induction remaining as [| remaining IH]; intros retryCount w r w' n.
  - cbn [extractQuestionsWithContext_loop]. intros [= <- <-] Hn.
    exists 0%nat. split; [lia | by apply advanced_refl].
  - intros Hrun Hn.
    destruct (extractQuestionsWithContext_attempt rt imageBase64 pageNumber
                sharedDescriptions previousQuestions w) as [[a | e] w1] eqn:Hatt;
      pose proof (extractQuestionsWithContext_attempt_advanced
                    _ _ _ _ _ _ _ _ _ _ Hctx Hatt Hn) as Hone.
    + cbn [extractQuestionsWithContext_loop] in Hrun. unfold try_catch in Hrun.
      rewrite Hatt in Hrun. injection Hrun as <- <-.
      exists 1%nat. split; [lia | done].
    + rewrite (extractQuestionsWithContext_loop_throw _ _ _ _ _ _ _ _ _ _ _ Hatt)
        in Hrun.
      destruct (is_rate_limit e).
      * destruct (S retryCount <? maxRetries)%nat.
        -- apply (IH _ _ _ _ (n + 1)%nat) in Hrun as (k & Hk & Hrest).
           ++ exists (1 + k)%nat. split; [lia|].
              eapply advanced_trans; [|exact Hrest].
              by apply advanced_slept, advanced_reported.
           ++ unfold slept, reported. cbn [keyUsageCount].
              by apply advanced_counts in Hone.
        -- injection Hrun as <- <-. exists 1%nat. split; [lia|].
           by apply advanced_reported.
      * injection Hrun as <- <-. exists 1%nat. split; [lia | done].
Qed.

Lemma nth_acquired_lookup keys n :
  NoDup keys → keys ≠ [] →
  keys !! (n mod length keys)%nat = Some (nth_acquired keys n).
Proof.
  intros Hnodup Hne. unfold nth_acquired, getNextApiKey. cbn [fst].
  apply rotated_pick; [done|]. by apply rotated_acquire_n.
Qed.

Lemma next_keys_NoDup keys n k :
  NoDup keys → (k ≤ length keys)%nat → NoDup (next_keys keys n k).
Proof.
  intros Hnodup Hk. destruct keys as [| k0 rest] eqn:Hkeys.
  { simpl in Hk. replace k with 0%nat by lia. constructor. }
  rewrite <- Hkeys in *. assert (Hne : keys ≠ []) by (by rewrite Hkeys).
  clear Hkeys. apply NoDup_alt. intros i j x Hi Hj.
  unfold next_keys in Hi, Hj. rewrite list_lookup_fmap in Hi, Hj.
  destruct (seq 0 k !! i) as [i' |] eqn:Ei; [|done].
  destruct (seq 0 k !! j) as [j' |] eqn:Ej; [|done].
  apply lookup_seq in Ei as [-> Hik]. apply lookup_seq in Ej as [-> Hjk].
  simpl in Hi, Hj. injection Hi as Hi. injection Hj as Hj.
  pose proof (nth_acquired_lookup keys (n + i) Hnodup Hne) as Hli.
  pose proof (nth_acquired_lookup keys (n + j) Hnodup Hne) as Hlj.
  rewrite Hi in Hli. rewrite Hj in Hlj.
  pose proof (NoDup_lookup _ _ _ _ Hnodup Hli Hlj) as Hmod.
  pose proof (Nat.div_mod_eq (n + i) (length keys)) as Hdi.
  pose proof (Nat.div_mod_eq (n + j) (length keys)) as Hdj.
  rewrite Hmod in Hdi.
  generalize dependent ((n + i) / length keys)%nat. intros qi Hdi.
  generalize dependent ((n + j) / length keys)%nat. intros qj Hdj.
  generalize dependent ((n + j) mod length keys)%nat. intros rj _ _ Hdi Hdj.
  destruct (Nat.lt_trichotomy qi qj) as [Hlt | [-> | Hgt]]; [nia | lia | nia].
Qed.

(** X21. No key is tried twice within a call. In a state whose counters
    are those left by [n] acquisitions, on a pool of distinct keys, a call
    of [analyzePageStructure] or of [performExtraction] makes some
    [k <= M] model calls, with the keys that the next [k] acquisitions
    hand out, in that order, and these are pairwise distinct;
    [extractQuestionsWithContext] does the same, or acquires [k] keys and
    makes no call when the recent context cannot be built. The counters
    afterwards are those of [n + k] acquisitions. *)
Theorem no_key_is_tried_twice (rt : runtime) (imageBase64 : jsstring)
    (pageNumber : N) (previousImage nextImage : option jsstring)
    (sharedDescriptions : gmap N json) (previousQuestions : list json)
    (previousContext : jsstring) (n : nat) (w : world) :
  NoDup (API_KEYS rt) →
  keyUsageCount w = acquire_n (API_KEYS rt) n ∅ →
  let keys := API_KEYS rt in
  let after_structure :=
    (analyzePageStructure rt imageBase64 pageNumber previousImage nextImage w).2 in
  let after_single_pass :=
    (performExtraction rt imageBase64 pageNumber previousContext w).2 in
  let after_context :=
    (extractQuestionsWithContext rt imageBase64 pageNumber sharedDescriptions
       previousImage nextImage previousQuestions w).2 in
  (∃ k, (k ≤ length keys)%nat ∧
        keyUsageCount after_structure = acquire_n keys (n + k) ∅ ∧
        keys_tried w after_structure = next_keys keys n k) ∧
  (∃ k, (k ≤ length keys)%nat ∧
        keyUsageCount after_single_pass = acquire_n keys (n + k) ∅ ∧
        keys_tried w after_single_pass = next_keys keys n k) ∧
  (∃ k, (k ≤ length keys)%nat ∧
        keyUsageCount after_context = acquire_n keys (n + k) ∅ ∧
        (keys_tried w after_context = next_keys keys n k ∨
         keys_tried w after_context = [])) ∧
  NoDup (keys_tried w after_structure) ∧
  NoDup (keys_tried w after_single_pass) ∧
  NoDup (keys_tried w after_context).
Proof.
  intros Hnodup Hn. cbv zeta.
  assert (Hstructure : ∃ k, (k ≤ length (API_KEYS rt))%nat ∧
            advanced (API_KEYS rt) n k w
              (analyzePageStructure rt imageBase64 pageNumber previousImage
                 nextImage w).2).
  { unfold analyzePageStructure.
    destruct (analyzePageStructure_loop _ _ _ _ _ _) as [r w'] eqn:Hrun.
    by apply (analyzePageStructure_loop_advanced _ _ _ _ _ _ _ _ n) in Hrun. }
  assert (Hsingle : ∃ k, (k ≤ length (API_KEYS rt))%nat ∧
            advanced (API_KEYS rt) n k w
              (performExtraction rt imageBase64 pageNumber previousContext w).2).
  { unfold performExtraction.
    destruct (performExtraction_loop _ _ _ _ _ _ _ _) as [r w'] eqn:Hrun.
    by apply (performExtraction_loop_advanced _ _ _ _ _ _ _ _ _ _ n) in Hrun. }
  assert (Hcontext : ∃ k, (k ≤ length (API_KEYS rt))%nat ∧
            (advanced (API_KEYS rt) n k w
               (extractQuestionsWithContext rt imageBase64 pageNumber
                  sharedDescriptions previousImage nextImage previousQuestions w).2 ∨
             advanced_silently (API_KEYS rt) n k w
               (extractQuestionsWithContext rt imageBase64 pageNumber
                  sharedDescriptions previousImage nextImage previousQuestions w).2)).
  { unfold extractQuestionsWithContext.
    destruct (extractQuestionsWithContext_loop _ _ _ _ _ _ _ _ _) as [r w'] eqn:Hrun.
    destruct (recentContext rt previousQuestions) as [e | recent] eqn:Hctx.
    - apply (extractQuestionsWithContext_loop_silent _ _ _ _ _ _ _ Hctx _ _ _ _ _ n)
        in Hrun as (k & Hk & Hsilent); [|done].
      exists k. split; [done | by right].
    - apply (extractQuestionsWithContext_loop_advanced _ _ _ _ _ _ _ Hctx _ _ _ _ _ n)
        in Hrun as (k & Hk & Hadv); [|done].
      exists k. split; [done | by left]. }
  destruct Hstructure as (k1 & Hk1 & Hadv1).
  destruct Hsingle as (k2 & Hk2 & Hadv2).
  destruct Hcontext as (k3 & Hk3 & Hadv3).
  assert (Htried3 :
    keys_tried w (extractQuestionsWithContext rt imageBase64 pageNumber
                    sharedDescriptions previousImage nextImage previousQuestions w).2
      = next_keys (API_KEYS rt) n k3 ∨
    keys_tried w (extractQuestionsWithContext rt imageBase64 pageNumber
                    sharedDescriptions previousImage nextImage previousQuestions w).2
      = []).
  { destruct Hadv3 as [Hadv3 | [_ Hcalls]].
    - left. by apply advanced_keys_tried.
    - right. unfold keys_tried. by rewrite Hcalls, drop_all. }
  split; [|split; [|split; [|split; [|split]]]].
  - exists k1. split; [done|]. split; [by apply advanced_counts in Hadv1|].
    by apply advanced_keys_tried.
  - exists k2. split; [done|]. split; [by apply advanced_counts in Hadv2|].
    by apply advanced_keys_tried.
  - exists k3. split; [done|]. split; [|exact Htried3].
    destruct Hadv3 as [Hadv3 | [Hcounts _]]; [|done]. by apply advanced_counts in Hadv3.
  - rewrite (advanced_keys_tried _ _ _ _ _ Hadv1). by apply next_keys_NoDup.
  - rewrite (advanced_keys_tried _ _ _ _ _ Hadv2). by apply next_keys_NoDup.
  - destruct Htried3 as [-> | ->]; [by apply next_keys_NoDup | constructor].
Qed.

Lemma no_key_is_tried_twice_witness :
  keys_tried empty_world
    (performExtraction (two_keys (failing_model too_many_requests))
       (js "image") 1 [] empty_world).2 = [key_a; key_b] ∧
  NoDup (keys_tried empty_world
           (performExtraction (two_keys (failing_model too_many_requests))
              (js "image") 1 [] empty_world).2).
Proof.
  split; [vm_compute; reflexivity|].
  destruct (no_key_is_tried_twice (two_keys (failing_model too_many_requests))
              (js "image") 1 None None ∅ [] [] 0 empty_world)
    as (_ & _ & _ & _ & Hdistinct & _).
  - apply (bool_decide_unpack _). vm_compute. exact I.
  - reflexivity.
  - exact Hdistinct.
Defined.

End KeysTried.
